(** * OTP Manager Pro: a shallow embedding of the core services

    The development follows the TypeScript sources:
    - [src/services/EncryptionService.ts]     (module [EncryptionService])
    - [src/repositories/StorageRepository.ts] (module [StorageRepository])
    - [src/repositories/SecureStorageRepository.ts]
                                              (module [SecureStorageRepository])
    - [src/services/OTPService.ts]            (module [OTPService])
    - [src/lib/utils.ts]                      (module [OtpAuthUri])
    - [src/app/page.tsx], the form handlers   (module [Page])

    JavaScript strings are sequences of UTF-16 code units, bytes are numbers
    below 256, a JS [Map] and an object used as a map are a [gmap], and an
    [async] method is a function of the state it runs in (the fields of the
    object, localStorage, the random generator) that returns a value or
    throws.  The built-ins the code calls ([TextEncoder], [btoa],
    [decodeURIComponent], [crypto.subtle], ...) are modelled after their
    standards; the definitions come first, the properties after them. *)

From Stdlib Require Import ZArith NArith List Lia Bool String Ascii ZifyNat
  DecimalString.
From stdpp Require Import base option list gmap.

Open Scope Z_scope.

(** ** JavaScript strings *)

Module JS.

(** A JS string is a list of UTF-16 code units. *)
Abbreviation jsstring := (list N).

(** The elements of a [Uint8Array] or the bytes of an [ArrayBuffer]. *)
Abbreviation bytes := (list N).

(** A [Uint8Array] element: a stored number is reduced to 8 bits. *)
Definition u8 (b : N) : N := N.land b 255.

(** A literal made of ASCII characters. *)
Definition lit (s : string) : jsstring :=
  map N_of_ascii (list_ascii_of_string s).

(** What the code throws: an [Error] with its message, or an exception of
    the platform by its name. *)
Inductive exn :=
  | Error (message : string)
  | DOMException (name : string)
  | SyntaxError
  | URIError.

(** The outcome of a call that may throw: [Ok v] or [Throw e]. *)
Inductive result (E A : Type) : Type :=
  | Ok (v : A)
  | Throw (e : E).
Arguments Ok {E A} v.
Arguments Throw {E A} e.

(** A method body: it runs in a state [S] (the fields of the object and
    the part of the browser it touches) and returns a value or throws. *)
Definition M (S A : Type) : Type := S -> result exn A * S.

Definition ret {S A} (v : A) : M S A := fun s => (Ok v, s).

Definition bind {S A B} (m : M S A) (k : A -> M S B) : M S B :=
  fun s =>
    match m s with
    | (Ok v, s') => k v s'
    | (Throw e, s') => (Throw e, s')
    end.

(** [try { body } catch (error) { handler }]. *)
Definition try_catch {S A} (body : M S A) (handler : exn -> M S A) : M S A :=
  fun s =>
    match body s with
    | (Ok v, s') => (Ok v, s')
    | (Throw e, s') => handler e s'
    end.

Notation "'let*' x ':=' m 'in' k" := (bind m (fun x => k))
  (at level 10, x name, m at level 100, k at level 200).

(** [String.prototype.startsWith] and [endsWith]. *)
Fixpoint startsWith (s p : jsstring) : bool :=
  match p, s with
  | [], _ => true
  | _ :: _, [] => false
  | c :: p', d :: s' => N.eqb c d && startsWith s' p'
  end.

Definition endsWith (s p : jsstring) : bool :=
  startsWith (rev s) (rev p).

(** [String.prototype.indexOf] for a one-unit needle: the position of its
    first occurrence, or -1. *)
Fixpoint indexOf (s : jsstring) (c : N) : Z :=
  match s with
  | [] => -1
  | d :: s' =>
      if N.eqb d c then 0
      else let i := indexOf s' c in if i <? 0 then -1 else i + 1
  end.

(** [s.substring(a, b)] and [s.substring(a)] for in-range natural bounds. *)
Definition substring (s : jsstring) (a b : nat) : jsstring :=
  take (b - a) (drop a s).
Definition substring_from (s : jsstring) (a : nat) : jsstring := drop a s.

(** The code units [String.prototype.trim] strips: WhiteSpace and
    LineTerminator of ECMA-262. *)
Definition is_space (u : N) : bool :=
  match u with
  | 9 | 10 | 11 | 12 | 13 | 32 | 160 | 5760 | 8232 | 8233 | 8239 | 8287
  | 12288 | 65279 => true
  | _ => (8192 <=? u) && (u <=? 8202)
  end%N.

Fixpoint trimStart (s : jsstring) : jsstring :=
  match s with
  | [] => []
  | c :: s' => if is_space c then trimStart s' else s
  end.

Definition trim (s : jsstring) : jsstring :=
  rev (trimStart (rev (trimStart s))).

End JS.

Import JS.

(** ** UTF-8: [TextEncoder], [TextDecoder] *)

Module UTF8.
Local Open Scope N_scope.

Definition in_range (lo hi b : N) : bool := (lo <=? b) && (b <=? hi).

Definition is_high (u : N) : bool := in_range 0xD800 0xDBFF u.
Definition is_low (u : N) : bool := in_range 0xDC00 0xDFFF u.

(** The code points of a JS string as [TextEncoder] reads it (conversion to
    a USVString): a surrogate pair is one code point, an unpaired surrogate
    becomes U+FFFD. *)
Fixpoint code_points (s : jsstring) : list N :=
  match s with
  | [] => []
  | u :: s' =>
      if is_high u then
        match s' with
        | l :: s'' =>
            if is_low l
            then (0x10000 + (u - 0xD800) * 0x400 + (l - 0xDC00)) :: code_points s''
            else 0xFFFD :: code_points s'
        | [] => [0xFFFD]
        end
      else if is_low u then 0xFFFD :: code_points s'
      else u :: code_points s'
  end.

Definition encode_cp (cp : N) : bytes :=
  if cp <? 0x80 then [cp]
  else if cp <? 0x800 then [0xC0 + cp / 64; 0x80 + cp mod 64]
  else if cp <? 0x10000 then
    [0xE0 + cp / 4096; 0x80 + (cp / 64) mod 64; 0x80 + cp mod 64]
  else
    [0xF0 + cp / 262144; 0x80 + (cp / 4096) mod 64;
     0x80 + (cp / 64) mod 64; 0x80 + cp mod 64].

(** [new TextEncoder().encode(s)]. *)
Definition TextEncoder_encode (s : jsstring) : bytes :=
  flat_map encode_cp (code_points s).

(** The UTF-8 decoder of the Encoding standard, replacement mode: an
    ill-formed sequence yields U+FFFD and decoding resumes at the byte that
    broke it. *)
Fixpoint decode (bs : bytes) : list N :=
  match bs with
  | [] => []
  | b0 :: r0 =>
      if b0 <=? 0x7F then b0 :: decode r0
      else if in_range 0xC2 0xDF b0 then
        match r0 with
        | [] => [0xFFFD]
        | b1 :: r1 =>
            if in_range 0x80 0xBF b1
            then ((b0 - 0xC0) * 64 + (b1 - 0x80)) :: decode r1
            else 0xFFFD :: decode r0
        end
      else if in_range 0xE0 0xEF b0 then
        let lo := if b0 =? 0xE0 then 0xA0 else 0x80 in
        let hi := if b0 =? 0xED then 0x9F else 0xBF in
        match r0 with
        | [] => [0xFFFD]
        | b1 :: r1 =>
            if in_range lo hi b1 then
              match r1 with
              | [] => [0xFFFD]
              | b2 :: r2 =>
                  if in_range 0x80 0xBF b2
                  then ((b0 - 0xE0) * 4096 + (b1 - 0x80) * 64 + (b2 - 0x80))
                         :: decode r2
                  else 0xFFFD :: decode r1
              end
            else 0xFFFD :: decode r0
        end
      else if in_range 0xF0 0xF4 b0 then
        let lo := if b0 =? 0xF0 then 0x90 else 0x80 in
        let hi := if b0 =? 0xF4 then 0x8F else 0xBF in
        match r0 with
        | [] => [0xFFFD]
        | b1 :: r1 =>
            if in_range lo hi b1 then
              match r1 with
              | [] => [0xFFFD]
              | b2 :: r2 =>
                  if in_range 0x80 0xBF b2 then
                    match r2 with
                    | [] => [0xFFFD]
                    | b3 :: r3 =>
                        if in_range 0x80 0xBF b3
                        then ((b0 - 0xF0) * 262144 + (b1 - 0x80) * 4096
                              + (b2 - 0x80) * 64 + (b3 - 0x80)) :: decode r3
                        else 0xFFFD :: decode r2
                    end
                  else 0xFFFD :: decode r1
              end
            else 0xFFFD :: decode r0
        end
      else 0xFFFD :: decode r0
  end.

(** A code point as UTF-16 code units. *)
Definition utf16 (cp : N) : jsstring :=
  if cp <? 0x10000 then [cp]
  else [0xD800 + (cp - 0x10000) / 0x400; 0xDC00 + (cp - 0x10000) mod 0x400].

(** A leading byte order mark is dropped by a decoder made with the default
    options ([ignoreBOM] false). *)
Definition strip_bom (bs : bytes) : bytes :=
  match bs with
  | b0 :: b1 :: b2 :: r =>
      if (b0 =? 0xEF) && (b1 =? 0xBB) && (b2 =? 0xBF) then r else bs
  | _ => bs
  end.

(** [new TextDecoder().decode(bs)]. *)
Definition TextDecoder_decode (bs : bytes) : jsstring :=
  flat_map utf16 (decode (strip_bom bs)).

(** [String.prototype.isWellFormed]: no unpaired surrogate (and every unit
    is a 16-bit value). *)
Fixpoint isWellFormed (s : jsstring) : bool :=
  match s with
  | [] => true
  | u :: s' =>
      if is_high u then
        match s' with
        | l :: s'' => is_low l && isWellFormed s''
        | [] => false
        end
      else negb (is_low u) && (u <? 0x10000) && isWellFormed s'
  end.

(** A Unicode scalar value: a code point that is not a surrogate. *)
Definition scalar (cp : N) : Prop :=
  cp < 0x110000 /\ ~ (0xD800 <= cp <= 0xDFFF).

End UTF8.

(** ** Base64: [btoa], [atob] *)

Module Base64.
Local Open Scope N_scope.

(** The 6-bit groups of a byte sequence, the last one filled with zero bits. *)
Fixpoint sextets (bs : bytes) : list N :=
  match bs with
  | a :: b :: c :: r =>
      a / 4 :: (a mod 4) * 16 + b / 16 :: (b mod 16) * 4 + c / 64 :: c mod 64
        :: sextets r
  | [a; b] => [a / 4; (a mod 4) * 16 + b / 16; (b mod 16) * 4]
  | [a] => [a / 4; (a mod 4) * 16]
  | [] => []
  end.

(** The base64 alphabet: A-Z, a-z, 0-9, + and /. *)
Definition b64_char (v : N) : N :=
  if v <? 26 then 65 + v
  else if v <? 52 then 97 + (v - 26)
  else if v <? 62 then 48 + (v - 52)
  else if v =? 62 then 43 else 47.

Definition b64_value (u : N) : option N :=
  if (65 <=? u) && (u <=? 90) then Some (u - 65)
  else if (97 <=? u) && (u <=? 122) then Some (u - 97 + 26)
  else if (48 <=? u) && (u <=? 57) then Some (u - 48 + 52)
  else if u =? 43 then Some 62
  else if u =? 47 then Some 63
  else None.

Definition encode (bs : bytes) : jsstring :=
  let cs := map b64_char (sextets bs) in
  cs ++ repeat 61 ((4 - length cs mod 4) mod 4)%nat.

(** [window.btoa(s)]: throws (here [None]) when a code unit exceeds 255. *)
Definition btoa (s : jsstring) : option jsstring :=
  if forallb (fun u => u <? 256) s then Some (encode s) else None.

Definition is_ascii_whitespace (u : N) : bool :=
  (u =? 9) || (u =? 10) || (u =? 12) || (u =? 13) || (u =? 32).

(** When the length is a multiple of 4, one or two trailing [=] are removed. *)
Definition strip_padding (d : jsstring) : jsstring :=
  if (length d mod 4 =? 0)%nat then
    match rev d with
    | x :: y :: r =>
        if (x =? 61) && (y =? 61) then rev r
        else if x =? 61 then rev (y :: r) else d
    | [x] => if x =? 61 then [] else d
    | [] => d
    end
  else d.

Fixpoint decode_sextets (vs : list N) : bytes :=
  match vs with
  | a :: b :: c :: d :: r =>
      a * 4 + b / 16 :: (b mod 16) * 16 + c / 4 :: (c mod 4) * 64 + d
        :: decode_sextets r
  | [a; b; c] => [a * 4 + b / 16; (b mod 16) * 16 + c / 4]
  | [a; b] => [a * 4 + b / 16]
  | _ => []
  end.

(** [window.atob(s)], the forgiving-base64 decode of the HTML standard:
    ASCII whitespace is dropped, padding is removed, a length of 1 modulo 4
    or a character outside the alphabet fails. *)
Definition atob (s : jsstring) : option jsstring :=
  let d := strip_padding (filter (fun u => negb (is_ascii_whitespace u)) s) in
  if (length d mod 4 =? 1)%nat then None
  else vs ← mapM b64_value d; Some (decode_sextets vs).

End Base64.

(** ** The Web Crypto operations the service calls

    [crypto.subtle] is part of the browser, not of the repository.  It is
    modelled by the constructions its algorithms are defined by, over the
    primitives they are built from, which stay parameters: PBKDF2 with
    HMAC-SHA-256 (RFC 8018, RFC 2104) over the hash function, and AES-GCM
    (NIST SP 800-38D) as counter-mode encryption followed by a 128-bit tag
    over the ciphertext, over the key stream and the tag function. *)

Module WebCrypto.
Local Open Scope N_scope.

Section Primitives.
(** SHA-256 (block size 64 bytes). *)
Variable sha256 : bytes -> bytes.
(** [aes_ctr key iv i]: byte [i] of the AES counter-mode key stream. *)
Variable aes_ctr : bytes -> bytes -> nat -> N.
(** The GCM authentication tag of a ciphertext under a key and an IV. *)
Variable gcm_tag : bytes -> bytes -> bytes -> bytes.

(** HMAC: a key longer than a block is hashed, a shorter one is filled
    with zero bytes up to the block size. *)
Definition hmac_block (key : bytes) : bytes :=
  let k := if (64 <? length key)%nat then sha256 key else key in
  k ++ repeat 0 (64 - length k).

Definition hmac (key msg : bytes) : bytes :=
  sha256 (map (N.lxor 0x5c) (hmac_block key)
          ++ sha256 (map (N.lxor 0x36) (hmac_block key) ++ msg)).

(** PBKDF2, first output block:
    [U1 = HMAC(P, S || INT(1))], [Uj = HMAC(P, U(j-1))], [T = U1 xor ... xor Uc]. *)
Definition pbkdf2_step (password : bytes) (st : bytes * bytes) : bytes * bytes :=
  let u := hmac password (fst st) in (u, zip_with N.lxor (snd st) u).

Definition pbkdf2 (password salt : bytes) (iterations : N) : bytes :=
  let u1 := hmac password (salt ++ [0; 0; 0; 1]) in
  snd (N.iter (iterations - 1) (pbkdf2_step password) (u1, u1)).

(** [subtle.importKey('raw', password, 'PBKDF2', ...)] followed by
    [subtle.deriveKey({name: 'PBKDF2', salt, iterations, hash: 'SHA-256'},
    ..., {name: 'AES-GCM', length: 256}, ...)]: a 32-byte key.  The
    member [iterations] is an [[EnforceRange] unsigned long]: a count of
    2^32 or more is a TypeError, and zero iterations are an
    OperationError. *)
Definition subtle_deriveKey (password salt : bytes) (iterations : N)
  : option bytes :=
  if (iterations =? 0) || (2 ^ 32 <=? iterations) then None
  else Some (take 32 (pbkdf2 password salt iterations)).

Definition ctr_xor (key iv data : bytes) : bytes :=
  imap (fun i b => N.lxor (u8 b) (u8 (aes_ctr key iv i))) data.

Definition tag16 (key iv ciphertext : bytes) : bytes :=
  take 16 (map u8 (gcm_tag key iv ciphertext) ++ repeat 0 16).

(** [subtle.encrypt({name: 'AES-GCM', iv}, key, data)]: the ciphertext
    followed by the 16-byte tag; an empty IV is an OperationError. *)
Definition subtle_encrypt (key iv data : bytes) : option bytes :=
  match iv with
  | [] => None
  | _ => let c := ctr_xor key iv data in Some (c ++ tag16 key iv c)
  end.

(** [subtle.decrypt({name: 'AES-GCM', iv}, key, data)]: an OperationError
    when the input is shorter than a tag or the tag does not verify. *)
Definition subtle_decrypt (key iv data : bytes) : option bytes :=
  match iv with
  | [] => None
  | _ =>
      if (length data <? 16)%nat then None
      else
        let c := take (length data - 16) data in
        let t := drop (length data - 16) data in
        if bool_decide (t = tag16 key iv c) then Some (ctr_xor key iv c)
        else None
  end.
End Primitives.

Global Arguments pbkdf2 : simpl never.

(** The random generator behind [crypto.getRandomValues]: the bytes it is
    going to deliver, and how many it has delivered. *)
Record random := { stream : nat -> N; cursor : nat }.

Definition draw (n : nat) (g : random) : bytes :=
  map (fun i => u8 (stream g (cursor g + i)%nat)) (seq 0 n).

Definition advance (n : nat) (g : random) : random :=
  {| stream := stream g; cursor := (cursor g + n)%nat |}.

(** [crypto.getRandomValues(new Uint8Array(n))]. *)
Definition getRandomValues (n : nat) (g : random) : bytes * random :=
  (draw n g, advance n g).

End WebCrypto.

(** ** EncryptionService.ts *)

Module EncryptionService.
Import UTF8 Base64 WebCrypto.
Local Open Scope N_scope.

(** The two errors the service throws. *)
Definition Failed_to_encrypt_data : exn := Error "Failed to encrypt data".
Definition Failed_to_decrypt_data : exn :=
  Error "Failed to decrypt data. The password may be incorrect.".

Record EncryptionOptions := {
  opt_salt : option bytes;
  opt_iv : option bytes;
  opt_iterations : option N
}.

(** The default argument [{}]. *)
Definition no_options : EncryptionOptions :=
  {| opt_salt := None; opt_iv := None; opt_iterations := None |}.

Record EncryptionResult := {
  encryptedData : jsstring;
  salt : jsstring;
  iv : jsstring
}.

Definition DEFAULT_ITERATIONS : N := 100000.
Definition KEY_LENGTH : N := 256.
Definition SALT_LENGTH : nat := 16.
Definition IV_LENGTH : nat := 12.

Section Service.
Variable sha256 : bytes -> bytes.
Variable aes_ctr : bytes -> bytes -> nat -> N.
Variable gcm_tag : bytes -> bytes -> bytes -> bytes.

(** [deriveKey(password, salt, iterations)]. *)
Definition deriveKey (password : jsstring) (salt : bytes) (iterations : N)
  : option bytes :=
  subtle_deriveKey sha256 (TextEncoder_encode password) salt iterations.

(** [generateRandomBytes(length)]. *)
Definition generateRandomBytes (length : nat) (g : random) : bytes * random :=
  getRandomValues length g.

(** [arrayBufferToBase64(buffer)]: the bytes of the buffer, read through a
    [Uint8Array], as a binary string given to [btoa]. *)
Definition arrayBufferToBase64 (buffer : bytes) : option jsstring :=
  btoa (map u8 buffer).

(** [base64ToArrayBuffer(base64)]: the char codes of [atob(base64)]. *)
Definition base64ToArrayBuffer (base64 : jsstring) : option bytes :=
  atob base64.

(** [encrypt(data, password, options = {})].  [options.salt || ...] and
    [options.iv || ...] keep a supplied array (an object is truthy);
    [options.iterations || DEFAULT_ITERATIONS] replaces a missing or zero
    count.  Any exception inside the [try] becomes
    [Error('Failed to encrypt data')]. *)
Definition encrypt (data password : jsstring) (options : EncryptionOptions)
    (g : random) : result exn EncryptionResult * random :=
  let '(salt, g1) :=
    match opt_salt options with
    | Some s => (s, g)
    | None => generateRandomBytes SALT_LENGTH g
    end in
  let '(iv, g2) :=
    match opt_iv options with
    | Some v => (v, g1)
    | None => generateRandomBytes IV_LENGTH g1
    end in
  let iterations :=
    match opt_iterations options with
    | Some n => if n =? 0 then DEFAULT_ITERATIONS else n
    | None => DEFAULT_ITERATIONS
    end in
  let outcome :=
    key ← deriveKey password salt iterations;
    encryptedBuffer ← subtle_encrypt aes_ctr gcm_tag key iv (TextEncoder_encode data);
    e ← arrayBufferToBase64 encryptedBuffer;
    s ← arrayBufferToBase64 salt;
    v ← arrayBufferToBase64 iv;
    Some {| encryptedData := e; salt := s; iv := v |} in
  match outcome with
  | Some r => (Ok r, g2)
  | None => (Throw Failed_to_encrypt_data, g2)
  end.

(** [decrypt(encryptedData, password, salt, iv, iterations = DEFAULT_ITERATIONS)].
    Any exception inside the [try] becomes
    [Error('Failed to decrypt data. The password may be incorrect.')]. *)
Definition decrypt (encryptedData password salt iv : jsstring) (iterations : N)
  : result exn jsstring :=
  let outcome :=
    encryptedBuffer ← base64ToArrayBuffer encryptedData;
    saltBuffer ← base64ToArrayBuffer salt;
    ivBuffer ← base64ToArrayBuffer iv;
    key ← deriveKey password saltBuffer iterations;
    decryptedBuffer ← subtle_decrypt aes_ctr gcm_tag key ivBuffer encryptedBuffer;
    Some (TextDecoder_decode decryptedBuffer) in
  match outcome with
  | Some s => Ok s
  | None => Throw Failed_to_decrypt_data
  end.

(** The key both [encrypt] and [decrypt] derive from a password and a
    salt under the default iteration count. *)
Definition derived_key (password : jsstring) (salt : bytes) : bytes :=
  take 32 (pbkdf2 sha256 (TextEncoder_encode password) salt DEFAULT_ITERATIONS).

(** What a call of [encrypt] with the default options draws from the
    generator, 16 bytes of salt and then 12 bytes of IV, and the
    ciphertext it computes from them. *)
Definition salt_of (g : random) : bytes := draw SALT_LENGTH g.
Definition iv_of (g : random) : bytes := draw IV_LENGTH (advance SALT_LENGTH g).
Definition ciphertext_of (data password : jsstring) (g : random) : bytes :=
  ctr_xor aes_ctr (derived_key password (salt_of g)) (iv_of g)
    (TextEncoder_encode data).

(** The two halves of the specification's round-trip property, as it
    words them: [decrypt(encrypt(plaintext, password)) == plaintext] for
    all plaintexts and passwords, and decrypting with a wrong password
    fails with the decryption error. *)
Definition spec_decrypt_inverts_encrypt : Prop :=
  forall data password g r,
    fst (encrypt data password no_options g) = Ok r ->
    decrypt (encryptedData r) password (salt r) (iv r) DEFAULT_ITERATIONS
    = Ok data.

Definition spec_wrong_password_fails : Prop :=
  forall data password password' g r,
    password' <> password ->
    fst (encrypt data password no_options g) = Ok r ->
    decrypt (encryptedData r) password' (salt r) (iv r) DEFAULT_ITERATIONS
    = Throw Failed_to_decrypt_data.

End Service.

End EncryptionService.

(** ** StorageRepository.ts *)

Module StorageRepository.

Section LocalStorageRepository.
(** [T extends IStorageItem]: the items have an [id]. *)
Variable T : Type.
Variable id : T -> jsstring.
(** Whether [localStorage.setItem] accepts the text of these items; it
    throws a QuotaExceededError otherwise. *)
Variable within_quota : list T -> bool.

(** The text stored under a key, by what [JSON.parse] makes of it: an
    array of items, or a SyntaxError. *)
Inductive stored :=
  | Parsed (items : list T)
  | Unparsable.

Definition QuotaExceededError : exn := DOMException "QuotaExceededError".

(** [getAll()]: [data ? JSON.parse(data) : []], and [[]] on any error. *)
Definition getAll (storageKey : jsstring) (localStorage : gmap jsstring stored)
  : list T :=
  match localStorage !! storageKey with
  | Some (Parsed items) => items
  | Some Unparsable => []
  | None => []
  end.

(** [saveAll(items)]: [localStorage.setItem(key, JSON.stringify(items))];
    the [catch] throws the error again. *)
Definition saveAll (storageKey : jsstring) (items : list T)
  : M (gmap jsstring stored) unit :=
  fun localStorage =>
    if within_quota items
    then (Ok tt, <[storageKey := Parsed items]> localStorage)
    else (Throw QuotaExceededError, localStorage).

(** [clear()]: [localStorage.removeItem(key)]. *)
Definition clear (storageKey : jsstring) : M (gmap jsstring stored) unit :=
  fun localStorage => (Ok tt, delete storageKey localStorage).

(** What [save] makes of the array: the item replaces the first one with
    its id ([findIndex]), or is appended. *)
Definition upsert (item : T) (items : list T) : list T :=
  match list_find (fun i => id i = id item) items with
  | Some (index, _) => <[index := item]> items
  | None => items ++ [item]
  end.

(** The other three methods reach the storage through [this.getAll()] and
    [this.saveAll(items)].  A call on [this] runs the method of the class
    of the object, so on an instance of a subclass that overrides them it
    runs the overriding methods, also when the method was entered through
    [super].  They are therefore written over the two methods of [this]
    and the state [S] those run in. *)
Section Dispatch.
Variable S : Type.
Variable this_getAll : M S (list T).
Variable this_saveAll : list T -> M S unit.

(** [getById(id)]: [items.find(item => item.id === id) || null], and
    [null] on any error. *)
Definition getById (i : jsstring) : M S (option T) :=
  try_catch
    (let* items := this_getAll in
     ret (find (fun item => bool_decide (id item = i)) items))
    (fun _ => ret None).

(** [save(item)]: [items[index] = item] at the first item with the same
    id, or [items.push(item)]; the [catch] throws the error again. *)
Definition save (item : T) : M S T :=
  let* items := this_getAll in
  let* _ := this_saveAll (upsert item items) in
  ret item.

(** [remove(id)]: true when an item was removed; false also on an error. *)
Definition remove (i : jsstring) : M S bool :=
  try_catch
    (let* items := this_getAll in
     let filteredItems := filter (fun item => id item <> i) items in
     if bool_decide (length filteredItems <> length items)
     then let* _ := this_saveAll filteredItems in ret true
     else ret false)
    (fun _ => ret false).
End Dispatch.
End LocalStorageRepository.

Arguments Parsed {T} items.
Arguments Unparsable {T}.
Arguments getAll {T} _ _.
Arguments saveAll {T} _ _ _ _.
Arguments clear {T} _ _.
Arguments upsert {T} _ _ _.
Arguments getById {T} _ {S} _ _ _.
Arguments save {T} _ {S} _ _ _ _.
Arguments remove {T} _ {S} _ _ _ _.

End StorageRepository.

(** ** SecureStorageRepository.ts *)

Module SecureStorageRepository.
Import WebCrypto EncryptionService.

Section SecureStorageRepository.
(** The sensitive part of an item ([Record<string, any>]) and the rest of
    its fields, with [JSON.stringify] and [JSON.parse] on the former
    ([None]: a SyntaxError). *)
Variables Sensitive Public : Type.
Variable JSON_stringify : Sensitive -> jsstring.
Variable JSON_parse : jsstring -> option Sensitive.
Variable sha256 : bytes -> bytes.
Variable aes_ctr : bytes -> bytes -> nat -> N.
Variable gcm_tag : bytes -> bytes -> bytes -> bytes.

(** [ISecureStorageItem]: [{ id, sensitiveData, ...publicData }]. *)
Record ISecureStorageItem := {
  id : jsstring;
  sensitiveData : Sensitive;
  publicData : Public
}.

(** [IEncryptedStorageItem]. *)
Record IEncryptedStorageItem := {
  encrypted_id : jsstring;
  encryptedData : jsstring;
  salt : jsstring;
  iv : jsstring;
  encrypted_publicData : Public
}.

Variable within_quota : list ISecureStorageItem -> bool.

(** An instance of the class: the inherited [storageKey], the [password]
    and the [encryptedItems] map, which lives in memory only. *)
Record instance := {
  storageKey : jsstring;
  password : jsstring;
  encryptedItems : gmap jsstring IEncryptedStorageItem
}.

(** What outlives an instance: localStorage and the random generator. *)
Record world := {
  localStorage : gmap jsstring (StorageRepository.stored ISecureStorageItem);
  rng : random
}.

(** The methods run on an instance, [this], in a world. *)
Definition state : Type := instance * world.

(** [new SecureStorageRepository(storageKey, password)]. *)
Definition new (storageKey password : jsstring) : instance :=
  {| storageKey := storageKey; password := password; encryptedItems := ∅ |}.

Definition setPassword (newPassword : jsstring) (this : instance) : instance :=
  {| storageKey := storageKey this; password := newPassword;
     encryptedItems := encryptedItems this |}.

Definition set_encrypted (i : jsstring) (e : IEncryptedStorageItem)
    (this : instance) : instance :=
  {| storageKey := storageKey this; password := password this;
     encryptedItems := <[i := e]> (encryptedItems this) |}.

(** [this.encryptedItems.get(id)] and [this.encryptedItems.set(id, e)]. *)
Definition encryptedItems_get (i : jsstring)
  : M state (option IEncryptedStorageItem) :=
  fun s => (Ok (encryptedItems (fst s) !! i), s).

Definition encryptedItems_set (i : jsstring) (e : IEncryptedStorageItem)
  : M state unit :=
  fun s => (Ok tt, (set_encrypted i e (fst s), snd s)).

(** [super.getAll()] and [super.saveAll(items)]: the methods of
    [LocalStorageRepository], on the storage of the world. *)
Definition super_getAll : M state (list ISecureStorageItem) :=
  fun s =>
    (Ok (StorageRepository.getAll (storageKey (fst s)) (localStorage (snd s))), s).

Definition super_saveAll (items : list ISecureStorageItem) : M state unit :=
  fun s =>
    let '(r, localStorage') :=
      StorageRepository.saveAll within_quota (storageKey (fst s)) items
        (localStorage (snd s)) in
    (r, (fst s, {| localStorage := localStorage'; rng := rng (snd s) |})).

(** [encryptItem(item)]. *)
Definition encryptItem (item : ISecureStorageItem)
  : M state IEncryptedStorageItem :=
  fun s =>
    let sensitiveDataString := JSON_stringify (sensitiveData item) in
    let '(r, g') :=
      encrypt sha256 aes_ctr gcm_tag sensitiveDataString (password (fst s))
        no_options (rng (snd s)) in
    let s' := (fst s, {| localStorage := localStorage (snd s); rng := g' |}) in
    match r with
    | Ok encryptionResult =>
        (Ok {| encrypted_id := id item;
               encryptedData := EncryptionService.encryptedData encryptionResult;
               salt := EncryptionService.salt encryptionResult;
               iv := EncryptionService.iv encryptionResult;
               encrypted_publicData := publicData item |}, s')
    | Throw e => (Throw e, s')
    end.

(** [decryptItem(encryptedItem)]. *)
Definition decryptItem (encryptedItem : IEncryptedStorageItem)
  : M state ISecureStorageItem :=
  fun s =>
    match decrypt sha256 aes_ctr gcm_tag (encryptedData encryptedItem)
            (password (fst s)) (salt encryptedItem) (iv encryptedItem)
            DEFAULT_ITERATIONS with
    | Throw e => (Throw e, s)
    | Ok decryptedDataString =>
        match JSON_parse decryptedDataString with
        | None => (Throw SyntaxError, s)
        | Some sensitiveData =>
            (Ok {| id := encrypted_id encryptedItem;
                   sensitiveData := sensitiveData;
                   publicData := encrypted_publicData encryptedItem |}, s)
        end
    end.

(** The loop of [getAll] over the stored items. *)
Fixpoint getAll_loop (items decryptedItems : list ISecureStorageItem)
  : M state (list ISecureStorageItem) :=
  match items with
  | [] => ret decryptedItems
  | item :: rest =>
      let* entry := encryptedItems_get (id item) in
      match entry with
      | Some encryptedItem =>
          let* decryptedItems' :=
            try_catch
              (let* decryptedItem := decryptItem encryptedItem in
               ret (decryptedItems ++ [decryptedItem]))
              (fun _ => ret decryptedItems) in
          getAll_loop rest decryptedItems'
      | None => getAll_loop rest (decryptedItems ++ [item])
      end
  end.

(** [getAll()]; the outer [catch] returns [[]]. *)
Definition getAll : M state (list ISecureStorageItem) :=
  try_catch
    (let* items := super_getAll in getAll_loop items [])
    (fun _ => ret []).

(** The loop of [saveAll]: it stops at the first item that fails to
    encrypt, keeping the entries set so far. *)
Fixpoint encryptAll (items : list ISecureStorageItem) : M state unit :=
  match items with
  | [] => ret tt
  | item :: rest =>
      let* encryptedItem := encryptItem item in
      let* _ := encryptedItems_set (id item) encryptedItem in
      encryptAll rest
  end.

(** [saveAll(items)]; the [catch] throws the error again. *)
Definition saveAll (items : list ISecureStorageItem) : M state unit :=
  let* _ := encryptAll items in
  super_saveAll items.

(** [getById(id)].  [super.getById(id)] is the method of
    [LocalStorageRepository] run on this object: its [this.getAll()] is
    the [getAll] above.  The [try] block ends in [return null] or in
    [return this.decryptItem(encryptedItem)], a promise returned without
    [await], so that its rejection is not caught by the [catch]. *)
Definition getById (i : jsstring) : M state (option ISecureStorageItem) :=
  let* found :=
    try_catch
      (let* item := StorageRepository.getById id getAll i in
       match item with
       | None => ret None
       | Some item => encryptedItems_get (id item)
       end)
      (fun _ => ret None) in
  match found with
  | None => ret None
  | Some encryptedItem =>
      let* decryptedItem := decryptItem encryptedItem in
      ret (Some decryptedItem)
  end.

(** [save(item)]; the [catch] throws the error again.  [super.save(item)]
    is the method of [LocalStorageRepository] run on this object: its
    [this.getAll()] and [this.saveAll(items)] are the methods above. *)
Definition save (item : ISecureStorageItem) : M state ISecureStorageItem :=
  let* encryptedItem := encryptItem item in
  let* _ := encryptedItems_set (id item) encryptedItem in
  let* _ := StorageRepository.save id getAll saveAll item in
  ret item.

(** [remove(id)] is inherited. *)
Definition remove (i : jsstring) : M state bool :=
  StorageRepository.remove id getAll saveAll i.

(** The encrypted form [encryptItem] gives an item under a password and
    the draws of a generator. *)
Definition encrypted_entry (password : jsstring) (item : ISecureStorageItem)
    (g : random) : IEncryptedStorageItem :=
  let key := derived_key sha256 password (salt_of g) in
  let c := ciphertext_of sha256 aes_ctr (JSON_stringify (sensitiveData item))
             password g in
  {| encrypted_id := id item;
     encryptedData := Base64.encode (map u8 (c ++ tag16 gcm_tag key (iv_of g) c));
     salt := Base64.encode (map u8 (salt_of g));
     iv := Base64.encode (map u8 (iv_of g));
     encrypted_publicData := publicData item |}.

(** The entries the loop of [saveAll] sets: the item at position [k] is
    encrypted with the draws that start [28 k] bytes further on. *)
Fixpoint entries (this : instance) (items : list ISecureStorageItem)
    (g : random) : instance :=
  match items with
  | [] => this
  | x :: rest =>
      entries (set_encrypted (id x) (encrypted_entry (password this) x g) this)
        rest (advance (SALT_LENGTH + IV_LENGTH) g)
  end.

(** What one stored record contributes to the result of [getAll]: the
    decrypted form of its in-memory entry, nothing when that entry fails
    to decrypt, and the record itself when it has no entry. *)
Definition readable (s : state) (item : ISecureStorageItem)
  : option ISecureStorageItem :=
  match encryptedItems (fst s) !! id item with
  | Some encryptedItem =>
      match fst (decryptItem encryptedItem s) with
      | Ok decryptedItem => Some decryptedItem
      | Throw _ => None
      end
  | None => Some item
  end.

(** The specification's reading of [getAll]: exactly the stored records
    whose decryption succeeds, decrypted. *)
Definition decrypted (s : state) (item : ISecureStorageItem)
  : option ISecureStorageItem :=
  match encryptedItems (fst s) !! id item with
  | Some encryptedItem =>
      match fst (decryptItem encryptedItem s) with
      | Ok decryptedItem => Some decryptedItem
      | Throw _ => None
      end
  | None => None
  end.

Definition spec_getAll (s : state) : Prop :=
  fst (getAll s)
  = Ok (omap (decrypted s)
          (StorageRepository.getAll (storageKey (fst s)) (localStorage (snd s)))).

(** The specification's consequence for [getById], at the first thing an
    instance can do after its construction: a record that a previous
    instance persisted is never returned, so it is not returned after the
    new instance has saved an item with another id. *)
Definition spec_previous_record_never_returned : Prop :=
  forall (storageKey password : jsstring) (w : world)
         (item previous : ISecureStorageItem),
    previous ∈ StorageRepository.getAll storageKey (localStorage w) ->
    id item <> id previous ->
    fst (getById (id previous) (snd (save item (new storageKey password, w))))
    = Ok None.
End SecureStorageRepository.

Arguments id {Sensitive Public} _.
Arguments sensitiveData {Sensitive Public} _.
Arguments publicData {Sensitive Public} _.
Arguments encrypted_id {Public} _.
Arguments encryptedData {Public} _.
Arguments salt {Public} _.
Arguments iv {Public} _.
Arguments encrypted_publicData {Public} _.
Arguments storageKey {Public} _.
Arguments password {Public} _.
Arguments encryptedItems {Public} _.
Arguments localStorage {Sensitive Public} _.
Arguments rng {Sensitive Public} _.
Arguments new {Public} _ _.
Arguments setPassword {Public} _ _.
Arguments set_encrypted {Public} _ _ _.
Arguments encryptedItems_get {Sensitive Public}.
Arguments encryptedItems_set {Sensitive Public}.
Arguments super_getAll {Sensitive Public}.
Arguments super_saveAll {Sensitive Public}.
Arguments encryptItem {Sensitive Public}.
Arguments decryptItem {Sensitive Public}.
Arguments getAll_loop {Sensitive Public}.
Arguments getAll {Sensitive Public}.
Arguments getById {Sensitive Public}.
Arguments save {Sensitive Public}.
Arguments remove {Sensitive Public}.
Arguments encryptAll {Sensitive Public}.
Arguments saveAll {Sensitive Public}.
Arguments encrypted_entry {Sensitive Public}.
Arguments entries {Sensitive Public}.
Arguments readable {Sensitive Public}.
Arguments decrypted {Sensitive Public}.
Arguments spec_getAll {Sensitive Public}.
Arguments spec_previous_record_never_returned {Sensitive Public}.

End SecureStorageRepository.

(** A generator that counts, one that delivers the same 28 bytes again
    and again, and a sample credential, for the examples. *)
Definition counting : WebCrypto.random :=
  {| WebCrypto.stream := N.of_nat; WebCrypto.cursor := 0 |}.


Definition github : SecureStorageRepository.ISecureStorageItem jsstring jsstring :=
  {| SecureStorageRepository.id := lit "1";
     SecureStorageRepository.sensitiveData := lit "JBSWY3DPEHPK3PXP";
     SecureStorageRepository.publicData := lit "GitHub" |}.

(** ** OTPService.ts *)

Module OTPService.

Inductive HashAlgorithms := sha1 | sha256 | sha512.

(** [OTPOptions]: every field is optional. *)
Record OTPOptions := {
  digits : option Z;
  step : option Z;
  algorithm : option HashAlgorithms;
  prefix : option jsstring;
  postfix : option jsstring
}.

Definition no_options : OTPOptions :=
  {| digits := None; step := None; algorithm := None;
     prefix := None; postfix := None |}.

Section Library.
(** The [totp] object of the otplib package, which the repository imports
    and does not contain: [totp.generate(secret)] and
    [totp.verify({token, secret})] under
    [totp.options = {digits, step, algorithm}], at a reading of the clock
    in milliseconds. *)
Variable totp_generate :
  Z -> Z -> HashAlgorithms -> jsstring -> Z -> result exn jsstring.
Variable totp_verify :
  Z -> Z -> HashAlgorithms -> jsstring -> jsstring -> Z -> result exn bool.

(** [generateTOTP(secret, options = {})]. *)
Definition generateTOTP (secret : jsstring) (options : OTPOptions)
    (now_ms : Z) : result exn jsstring :=
  let prefix := default [] (prefix options) in
  let postfix := default [] (postfix options) in
  let digits := default 6 (digits options) in
  let step := default 30 (step options) in
  let algorithm := default sha1 (algorithm options) in
  match totp_generate digits step algorithm secret now_ms with
  | Ok token => Ok (prefix ++ token ++ postfix)
  | Throw e => Throw e
  end.

(** [validateTOTP(token, secret, options = {})]. *)
Definition validateTOTP (token secret : jsstring) (options : OTPOptions)
    (now_ms : Z) : result exn bool :=
  let digits := default 6 (digits options) in
  let step := default 30 (step options) in
  let algorithm := default sha1 (algorithm options) in
  totp_verify digits step algorithm token secret now_ms.

(** The specification's error handling for bad parameters: generation is
    rejected with an error before any code is produced. *)
Definition spec_rejects_bad_parameters : Prop :=
  forall secret options now_ms,
    default 30 (step options) <= 0 \/ default 6 (digits options) <= 0 ->
    exists e, generateTOTP secret options now_ms = Throw e.
End Library.

(** [getRemainingTime(step)]: [step - (Math.floor(Date.now() / 1000) % step)].
    [now_ms] is the reading of [Date.now()], in milliseconds; [Math.floor]
    of the quotient by 1000 is [Z.div], and JS [%] takes the sign of the
    dividend, which is [Z.rem]. *)
Definition getRemainingTime (step now_ms : Z) : Z :=
  step - Z.rem (now_ms / 1000) step.

Section Generator.
(** Modelled from the spec: the code generator of the otplib package,
    which is not part of the repository.  Section 4.2 of the
    specification gives it: the step index [floor(now_seconds / period)]
    as an 8-byte big-endian counter, HMAC of it under the secret, dynamic
    truncation (offset from the low nibble of the last digest byte, 4
    bytes masked to 31 bits), reduction modulo [10^digits], zero-padding on
    the left to [digits] characters.  The HMAC is a parameter.  The model
    is meant for [digits >= 0] and [period > 0]; outside, JavaScript
    computes with floating-point numbers. *)
Variable hmac : HashAlgorithms -> jsstring -> bytes -> bytes.

Definition counter_bytes (counter : Z) : bytes :=
  map (fun i => Z.to_N ((counter / 256 ^ Z.of_nat (7 - i)) mod 256)) (seq 0 8).

Definition byte_at (digest : bytes) (i : nat) : Z :=
  Z.of_N (nth i digest 0%N).

Definition truncate (digest : bytes) : Z :=
  let offset := Z.to_nat (Z.land (byte_at digest (length digest - 1)) 15) in
  Z.lor (Z.shiftl (Z.land (byte_at digest offset) 127) 24)
    (Z.lor (Z.shiftl (Z.land (byte_at digest (offset + 1)) 255) 16)
       (Z.lor (Z.shiftl (Z.land (byte_at digest (offset + 2)) 255) 8)
          (Z.land (byte_at digest (offset + 3)) 255))).

(** [String(n)] for a natural number. *)
Definition decimal (n : Z) : jsstring :=
  lit (DecimalString.NilZero.string_of_uint (N.to_uint (Z.to_N n))).

(** [padStart(value, length, '0')]. *)
Definition padStart (value : jsstring) (length : Z) : jsstring :=
  repeat 48%N (Z.to_nat length - List.length value) ++ value.

Definition hotp_token (digits : Z) (digest : bytes) : jsstring :=
  padStart (decimal (truncate digest mod 10 ^ digits)) digits.

Definition spec_totp_generate (digits step : Z) (algorithm : HashAlgorithms)
    (secret : jsstring) (now_ms : Z) : result exn jsstring :=
  Ok (hotp_token digits
        (hmac algorithm secret (counter_bytes (now_ms / 1000 / step)))).
End Generator.

(** Options that ask for zero digits, for the examples. *)
Definition zero_digits : OTPOptions :=
  {| digits := Some 0; step := None; algorithm := None;
     prefix := None; postfix := None |}.

End OTPService.

(** ** lib/utils.ts: parseOtpAuthUri *)

Module OtpAuthUri.
Import UTF8.

(** *** The built-ins the parser calls *)

Definition hex_value (u : N) : option N :=
  if in_range 48 57 u then Some (u - 48)%N
  else if in_range 65 70 u then Some (u - 55)%N
  else if in_range 97 102 u then Some (u - 87)%N
  else None.

Definition hex_octet (h l : N) : option N :=
  a ← hex_value h; b ← hex_value l; Some (16 * a + b)%N.

(** The code point a sequence of octets encodes, when it is well-formed
    UTF-8 (no overlong form, no surrogate, at most U+10FFFF). *)
Definition utf8_code_point (octets : bytes) : option N :=
  match octets with
  | [b0; b1] =>
      if in_range 0xC2 0xDF b0 && in_range 0x80 0xBF b1
      then Some ((b0 - 0xC0) * 64 + (b1 - 0x80))%N else None
  | [b0; b1; b2] =>
      let lo := if (b0 =? 0xE0)%N then 0xA0%N else 0x80%N in
      let hi := if (b0 =? 0xED)%N then 0x9F%N else 0xBF%N in
      if in_range 0xE0 0xEF b0 && in_range lo hi b1 && in_range 0x80 0xBF b2
      then Some ((b0 - 0xE0) * 4096 + (b1 - 0x80) * 64 + (b2 - 0x80))%N
      else None
  | [b0; b1; b2; b3] =>
      let lo := if (b0 =? 0xF0)%N then 0x90%N else 0x80%N in
      let hi := if (b0 =? 0xF4)%N then 0x8F%N else 0xBF%N in
      if in_range 0xF0 0xF4 b0 && in_range lo hi b1 && in_range 0x80 0xBF b2
         && in_range 0x80 0xBF b3
      then Some ((b0 - 0xF0) * 262144 + (b1 - 0x80) * 4096
                 + (b2 - 0x80) * 64 + (b3 - 0x80))%N
      else None
  | _ => None
  end.

(** [decodeURIComponent(s)] (the Decode operation of ECMA-262): [None] is
    a URIError.  An escape [%XX] below 0x80 is that character; a leading
    octet with 2, 3 or 4 leading one bits takes as many escapes, which must
    encode a code point in UTF-8. *)
Fixpoint decodeURIComponent (s : jsstring) : option jsstring :=
  match s with
  | [] => Some []
  | c :: r0 =>
      if negb (c =? 37)%N then cons c <$> decodeURIComponent r0
      else
        match r0 with
        | h1 :: l1 :: r1 =>
            match hex_octet h1 l1 with
            | None => None
            | Some b1 =>
                if (b1 <? 0x80)%N then cons b1 <$> decodeURIComponent r1
                else if in_range 0xC0 0xDF b1 then
                  match r1 with
                  | p2 :: h2 :: l2 :: r2 =>
                      if (p2 =? 37)%N then
                        b2 ← hex_octet h2 l2;
                        cp ← utf8_code_point [b1; b2];
                        app (utf16 cp) <$> decodeURIComponent r2
                      else None
                  | _ => None
                  end
                else if in_range 0xE0 0xEF b1 then
                  match r1 with
                  | p2 :: h2 :: l2 :: p3 :: h3 :: l3 :: r3 =>
                      if (p2 =? 37)%N && (p3 =? 37)%N then
                        b2 ← hex_octet h2 l2;
                        b3 ← hex_octet h3 l3;
                        cp ← utf8_code_point [b1; b2; b3];
                        app (utf16 cp) <$> decodeURIComponent r3
                      else None
                  | _ => None
                  end
                else if in_range 0xF0 0xF7 b1 then
                  match r1 with
                  | p2 :: h2 :: l2 :: p3 :: h3 :: l3 :: p4 :: h4 :: l4 :: r4 =>
                      if (p2 =? 37)%N && (p3 =? 37)%N && (p4 =? 37)%N then
                        b2 ← hex_octet h2 l2;
                        b3 ← hex_octet h3 l3;
                        b4 ← hex_octet h4 l4;
                        cp ← utf8_code_point [b1; b2; b3; b4];
                        app (utf16 cp) <$> decodeURIComponent r4
                      else None
                  | _ => None
                  end
                else None
            end
        | _ => None
        end
  end.

(** Reading one escape [%XX] off the front of a string. *)
Definition escape (s : jsstring) : option (N * jsstring) :=
  match s with
  | p :: h :: l :: r =>
      if (p =? 37)%N then b ← hex_octet h l; Some (b, r) else None
  | _ => None
  end.

Definition is_ascii (s : jsstring) : bool := forallb (fun u => (u <? 128)%N) s.
Definition ascii_lower (u : N) : N := if in_range 65 90 u then (u + 32)%N else u.
Definition ascii_upper (u : N) : N := if in_range 97 122 u then (u - 32)%N else u.

Definition digit_value (u : N) : option Z :=
  if in_range 48 57 u then Some (Z.of_N (u - 48)) else None.

(** The value of the longest prefix of decimal digits, if there is one. *)
Fixpoint digits_prefix (s : jsstring) (acc : option Z) : option Z :=
  match s with
  | [] => acc
  | c :: r =>
      match digit_value c with
      | Some d => digits_prefix r (Some (10 * default 0 acc + d))
      | None => acc
      end
  end.

(** [parseInt(s, 10)]; [None] is NaN.  The number is exact (a JS number
    rounds beyond 2^53). *)
Definition parseInt (s : jsstring) : option Z :=
  match trimStart s with
  | c :: r =>
      if (c =? 45)%N then Z.opp <$> digits_prefix r None
      else if (c =? 43)%N then digits_prefix r None
      else digits_prefix (c :: r) None
  | [] => None
  end.

(** *** The data *)

(** What [new URL(uri)] exposes to the parser. *)
Record URL := {
  hostname : jsstring;
  pathname : jsstring;
  searchParams : list (jsstring * jsstring)
}.

Inductive otp_type := totp | hotp.

(** The values of the parameter object: [string | number]. *)
Inductive value :=
  | VString (s : jsstring)
  | VNumber (n : Z).

Record OtpAuthLabel := {
  issuer : option jsstring;
  account : jsstring
}.

(** [OtpAuthData]; the parameter object, with its index signature, is a map
    from property names. *)
Record OtpAuthData := {
  type : otp_type;
  label : OtpAuthLabel;
  parameters : gmap jsstring value
}.

(** [params[key] = v] on an object literal: the name [__proto__] is the
    prototype accessor, which ignores a string. *)
Definition set_property (key : jsstring) (v : value) (params : gmap jsstring value)
  : gmap jsstring value :=
  if bool_decide (key = lit "__proto__") then params else <[key := v]> params.

Definition recognized : list jsstring :=
  [lit "secret"; lit "issuer"; lit "algorithm"; lit "digits"; lit "period";
   lit "counter"].

Section Parser.
(** [new URL(uri)]; [None] is the TypeError of an invalid URL. *)
Variable URL_new : jsstring -> option URL.
(** [toLowerCase] and [toUpperCase] on strings that are not all ASCII. *)
Variable unicode_toLowerCase : jsstring -> jsstring.
Variable unicode_toUpperCase : jsstring -> jsstring.

Definition toLowerCase (s : jsstring) : jsstring :=
  if is_ascii s then map ascii_lower s else unicode_toLowerCase s.
Definition toUpperCase (s : jsstring) : jsstring :=
  if is_ascii s then map ascii_upper s else unicode_toUpperCase s.

(** Step 3: the label.  [None] is the URIError of a second decoding. *)
Definition parseLabel (decodedLabelStr : jsstring)
  : option (option jsstring * jsstring) :=
  let firstColonIndex := indexOf decodedLabelStr 58 in
  if (0 <? firstColonIndex)
     && (firstColonIndex <? Z.of_nat (length decodedLabelStr) - 1) then
    let labelIssuer :=
      trim (substring decodedLabelStr 0 (Z.to_nat firstColonIndex)) in
    let labelAccount :=
      trim (substring_from decodedLabelStr (Z.to_nat (firstColonIndex + 1))) in
    labelAccount ←
      (if startsWith labelAccount (lit "%3A")
       then decodeURIComponent labelAccount else Some labelAccount);
    if endsWith labelIssuer (lit "%3") && startsWith labelAccount (lit "A")
    then
      labelIssuer' ← decodeURIComponent labelIssuer;
      labelAccount' ← decodeURIComponent labelAccount;
      Some (Some labelIssuer', labelAccount')
    else Some (Some labelIssuer, labelAccount)
  else Some (None, decodedLabelStr).

(** Step 4, one turn of the loop over [url.searchParams.entries()];
    [None] is the URIError of [decodeURIComponent(value)]. *)
Definition extract (params : gmap jsstring value) (entry : jsstring * jsstring)
  : option (gmap jsstring value) :=
  let lowerKey := toLowerCase (fst entry) in
  decodedValue ← decodeURIComponent (snd entry);
  Some
    (if bool_decide (lowerKey = lit "secret") then
       <[lit "secret" := VString decodedValue]> params
     else if bool_decide (lowerKey = lit "issuer") then
       <[lit "issuer" := VString decodedValue]> params
     else if bool_decide (lowerKey = lit "algorithm") then
       let upperAlg := toUpperCase decodedValue in
       if bool_decide (upperAlg = lit "SHA1")
          || bool_decide (upperAlg = lit "SHA256")
          || bool_decide (upperAlg = lit "SHA512")
       then <[lit "algorithm" := VString upperAlg]> params
       else <[lit "algorithm" := VString decodedValue]> params
     else if bool_decide (lowerKey = lit "digits") then
       match parseInt decodedValue with
       | Some digits =>
           if (digits =? 6) || (digits =? 8)
           then <[lit "digits" := VNumber digits]> params
           else if 0 <? digits then <[lit "digits" := VNumber digits]> params
           else params
       | None => params
       end
     else if bool_decide (lowerKey = lit "period") then
       match parseInt decodedValue with
       | Some period =>
           if 0 <? period then <[lit "period" := VNumber period]> params
           else params
       | None => params
       end
     else if bool_decide (lowerKey = lit "counter") then
       match parseInt decodedValue with
       | Some counter =>
           if 0 <=? counter then <[lit "counter" := VNumber counter]> params
           else params
       | None => params
       end
     else set_property lowerKey (VString decodedValue) params).

Fixpoint extract_all (params : gmap jsstring value)
    (entries : list (jsstring * jsstring)) : option (gmap jsstring value) :=
  match entries with
  | [] => Some params
  | entry :: rest => params' ← extract params entry; extract_all params' rest
  end.

(** Steps 5 and 6 on the collected parameters. *)
Definition finish (ty : otp_type) (labelIssuer : option jsstring)
    (labelAccount : jsstring) (params : gmap jsstring value)
  : option OtpAuthData :=
  match params !! lit "secret" with
  | Some (VString (_ :: _)) =>
      let counter_ok :=
        match ty, params !! lit "counter" with
        | hotp, Some (VNumber _) => true
        | hotp, _ => false
        | totp, _ => true
        end in
      if counter_ok then
        let finalIssuer :=
          match params !! lit "issuer" with
          | Some (VString (c :: s)) => Some (c :: s)
          | _ => labelIssuer
          end in
        let params' :=
          match finalIssuer, params !! lit "issuer" with
          | Some (c :: s), None => <[lit "issuer" := VString (c :: s)]> params
          | _, _ => params
          end in
        Some {| type := ty;
                label := {| issuer := labelIssuer; account := labelAccount |};
                parameters := params' |}
      else None
  | _ => None
  end.

(** The body of the [try], on the URL object. *)
Definition parseOtpAuthUrl (url : URL) : option OtpAuthData :=
  let type := toLowerCase (hostname url) in
  ty ← (if bool_decide (type = lit "totp") then Some totp
        else if bool_decide (type = lit "hotp") then Some hotp
        else None);
  let encodedPath :=
    if startsWith (pathname url) (lit "/")
    then substring_from (pathname url) 1 else pathname url in
  match encodedPath with
  | [] => None
  | _ :: _ =>
      decodedLabelStr ← decodeURIComponent encodedPath;
      '(labelIssuer, labelAccount) ← parseLabel decodedLabelStr;
      match labelAccount with
      | [] => None
      | _ :: _ =>
          params ← extract_all ∅ (searchParams url);
          finish ty labelIssuer labelAccount params
      end
  end.

(** [parseOtpAuthUri(uriString)]; [None] is [null]. *)
Definition parseOtpAuthUri (uriString : jsstring) : option OtpAuthData :=
  if negb (startsWith uriString (lit "otpauth://")) then None
  else url ← URL_new uriString; parseOtpAuthUrl url.

(** The decoded label of a URL. *)
Definition decoded_label (url : URL) : option jsstring :=
  decodeURIComponent
    (if startsWith (pathname url) (lit "/")
     then substring_from (pathname url) 1 else pathname url).

(** The specification's label rule, as it words it: the first colon
    splits the decoded label into a trimmed issuer and a trimmed account;
    without a colon, or with the colon first or last, the whole label is
    the account and the issuer is unset. *)
Definition spec_label_split : Prop :=
  forall uri url decodedLabelStr r,
    URL_new uri = Some url ->
    decoded_label url = Some decodedLabelStr ->
    parseOtpAuthUri uri = Some r ->
    let i := indexOf decodedLabelStr 58 in
    if (0 <? i) && (i <? Z.of_nat (length decodedLabelStr) - 1) then
      label r
      = {| issuer := Some (trim (substring decodedLabelStr 0 (Z.to_nat i)));
           account := trim (substring_from decodedLabelStr (Z.to_nat (i + 1))) |}
    else label r = {| issuer := None; account := decodedLabelStr |}.

(** The specification's rule for a query parameter that is not
    recognized: key and value are preserved unchanged. *)
Definition spec_unrecognized_verbatim : Prop :=
  forall uri url r key v,
    URL_new uri = Some url ->
    parseOtpAuthUri uri = Some r ->
    (key, v) ∈ searchParams url ->
    toLowerCase key ∉ recognized ->
    parameters r !! key = Some (VString v).
End Parser.

(** What [new URL] makes of the URIs of the examples. *)
Definition uri_plain : jsstring :=
  lit "otpauth://totp/Example:alice?secret=JBSWY3DPEHPK3PXP&Foo=bar".
Definition url_plain : URL :=
  {| hostname := lit "totp"; pathname := lit "/Example:alice";
     searchParams := [(lit "secret", lit "JBSWY3DPEHPK3PXP"); (lit "Foo", lit "bar")] |}.
Definition uri_encoded_colon : jsstring :=
  lit "otpauth://totp/Iss:%253Auser?secret=A".
Definition url_encoded_colon : URL :=
  {| hostname := lit "totp"; pathname := lit "/Iss:%253Auser";
     searchParams := [(lit "secret", lit "A")] |}.

Definition sample_URL (uri : jsstring) : option URL :=
  if bool_decide (uri = uri_plain) then Some url_plain
  else if bool_decide (uri = uri_encoded_colon) then Some url_encoded_colon
  else None.

End OtpAuthUri.

(** ** An object of [LocalStorageRepository] itself *)

Module LocalStorageRepository.

Section Class.
Variable T : Type.
Variable id : T -> jsstring.
Variable within_quota : list T -> bool.
(** [this.storageKey]. *)
Variable storageKey : jsstring.

(** On an object of the class itself [this.getAll()] and
    [this.saveAll(items)] are the methods of the class, and the state they
    run in is the browser's localStorage. *)
Definition getAll : M (gmap jsstring (StorageRepository.stored T)) (list T) :=
  fun localStorage =>
    (Ok (StorageRepository.getAll storageKey localStorage), localStorage).

Definition saveAll (items : list T)
  : M (gmap jsstring (StorageRepository.stored T)) unit :=
  StorageRepository.saveAll within_quota storageKey items.

Definition getById (i : jsstring)
  : M (gmap jsstring (StorageRepository.stored T)) (option T) :=
  StorageRepository.getById id getAll i.

Definition save (item : T) : M (gmap jsstring (StorageRepository.stored T)) T :=
  StorageRepository.save id getAll saveAll item.

Definition remove (i : jsstring)
  : M (gmap jsstring (StorageRepository.stored T)) bool :=
  StorageRepository.remove id getAll saveAll i.

Definition clear : M (gmap jsstring (StorageRepository.stored T)) unit :=
  StorageRepository.clear storageKey.

(** The storage holds nothing readable under the key: no text, or a text
    that does not parse. *)
Definition blank (localStorage : gmap jsstring (StorageRepository.stored T))
  : Prop :=
  localStorage !! storageKey = None
  \/ localStorage !! storageKey = Some StorageRepository.Unparsable.
End Class.

Arguments getAll {T} _ _.
Arguments saveAll {T} _ _ _ _.
Arguments getById {T} _ _ _ _.
Arguments save {T} _ _ _ _ _.
Arguments remove {T} _ _ _ _ _.
Arguments clear {T} _ _.
Arguments blank {T} _ _.

End LocalStorageRepository.

(** ** States of a [SecureStorageRepository] *)

Module SecureStorageState.
Import SecureStorageRepository.

Section States.
Variables Sensitive Public : Type.
Variable JSON_parse : jsstring -> option Sensitive.
Variable sha256 : bytes -> bytes.
Variable aes_ctr : bytes -> bytes -> nat -> N.
Variable gcm_tag : bytes -> bytes -> bytes -> bytes.

(** Every entry of the in-memory map is filed under its own id, as
    [this.encryptedItems.set(item.id, encryptedItem)] files it. *)
Definition keyed (this : instance Public) : Prop :=
  forall k e, encryptedItems this !! k = Some e -> encrypted_id e = k.

(** Memory and storage agree: the stored items have distinct ids, and
    [getAll] reads each of them as it is stored. *)
Definition in_sync (s : state Sensitive Public) : Prop :=
  let stored :=
    StorageRepository.getAll (storageKey (fst s)) (localStorage (snd s)) in
  NoDup (map id stored)
  /\ forall y, y ∈ stored -> readable JSON_parse sha256 aes_ctr gcm_tag s y = Some y.
End States.

Arguments keyed {Public} _.
Arguments in_sync {Sensitive Public} _ _ _ _ _.

End SecureStorageState.

(** [JSON.stringify] and [JSON.parse] on a boolean, and two items whose
    sensitive data is one, for the examples. *)
Definition JSON_of_bool (b : bool) : jsstring :=
  lit (if b then "true" else "false").

Definition bool_of_JSON (s : jsstring) : option bool :=
  if bool_decide (s = lit "true") then Some true
  else if bool_decide (s = lit "false") then Some false
  else None.

Definition flagged : SecureStorageRepository.ISecureStorageItem bool jsstring :=
  {| SecureStorageRepository.id := lit "1";
     SecureStorageRepository.sensitiveData := true;
     SecureStorageRepository.publicData := lit "GitHub" |}.

Definition unflagged : SecureStorageRepository.ISecureStorageItem bool jsstring :=
  {| SecureStorageRepository.id := lit "2";
     SecureStorageRepository.sensitiveData := false;
     SecureStorageRepository.publicData := lit "GitLab" |}.

(** ** lib/utils.ts: the interface [OtpAuthParameters] *)

Module OtpAuthParameters.
Import OtpAuthUri.

(** The declared types of the properties, with the ranges the parser
    checks: a number is [digits] (> 0), [period] (> 0) or [counter] (>= 0),
    and those three are never strings; every other property, [secret],
    [issuer] and [algorithm] among them, is a string. *)
Definition conforms (params : gmap jsstring value) : Prop :=
  forall key v,
    params !! key = Some v ->
    match v with
    | VString _ =>
        key <> lit "digits" /\ key <> lit "period" /\ key <> lit "counter"
    | VNumber n =>
        (key = lit "digits" /\ 0 < n) \/ (key = lit "period" /\ 0 < n)
        \/ (key = lit "counter" /\ 0 <= n)
    end.

(** The name of a type, as the [type] property holds it. *)
Definition type_name (ty : otp_type) : jsstring :=
  match ty with totp => lit "totp" | hotp => lit "hotp" end.

End OtpAuthParameters.

(** A URI without a secret, and what [new URL] makes of it, for the
    examples. *)
Definition uri_no_secret : jsstring :=
  lit "otpauth://totp/Example:alice?issuer=Example".
Definition url_no_secret : OtpAuthUri.URL :=
  {| OtpAuthUri.hostname := lit "totp";
     OtpAuthUri.pathname := lit "/Example:alice";
     OtpAuthUri.searchParams := [(lit "issuer", lit "Example")] |}.

Definition sample_URL_no_secret (uri : jsstring) : option OtpAuthUri.URL :=
  if bool_decide (uri = uri_no_secret) then Some url_no_secret else None.

(** ** app/page.tsx: the form of the [Home] component *)

Module Page.
Import OtpAuthUri.

(** [OTPConfig]. *)
Record OTPConfig := {
  id : jsstring;
  accountName : jsstring;
  secretKey : jsstring;
  prefix : jsstring;
  postfix : jsstring
}.

(** The state of the component that the handlers below read and set. *)
Record Home := {
  otpConfigs : list OTPConfig;
  isDialogOpen : bool;
  form_accountName : jsstring;
  form_secretKey : jsstring;
  form_prefix : jsstring;
  form_postfix : jsstring;
  selectedConfigId : option jsstring
}.

(** [value || ''] for a property that is a string or missing. *)
Definition or_empty (v : option jsstring) : jsstring := default [] v.

(** The [secret] of the parsed parameters; the parser only ever stores a
    string there. *)
Definition secret_of (r : OtpAuthData) : option jsstring :=
  match parameters r !! lit "secret" with
  | Some (VString s) => Some s
  | _ => None
  end.

Section Handlers.
Variable URL_new : jsstring -> option URL.
Variable unicode_toLowerCase : jsstring -> jsstring.
Variable unicode_toUpperCase : jsstring -> jsstring.

(** [handleImageUpload], from the point where jsQR has found a code:
    [data] is [code.data]. *)
Definition handleImageUpload (data : jsstring) (st : Home) : Home :=
  let otpAuthData :=
    parseOtpAuthUri URL_new unicode_toLowerCase unicode_toUpperCase data in
  {| otpConfigs := otpConfigs st;
     isDialogOpen := true;
     form_accountName := or_empty (account <$> (label <$> otpAuthData));
     form_secretKey := or_empty (otpAuthData ≫= secret_of);
     form_prefix := form_prefix st;
     form_postfix := form_postfix st;
     selectedConfigId := selectedConfigId st |}.
End Handlers.

(** [handleAddConfig]. *)
Definition handleAddConfig (st : Home) : Home :=
  {| otpConfigs := otpConfigs st;
     isDialogOpen := true;
     form_accountName := [];
     form_secretKey := [];
     form_prefix := [];
     form_postfix := [];
     selectedConfigId := None |}.

(** [handleEditConfig(config)]. *)
Definition handleEditConfig (config : OTPConfig) (st : Home) : Home :=
  {| otpConfigs := otpConfigs st;
     isDialogOpen := true;
     form_accountName := accountName config;
     form_secretKey := secretKey config;
     form_prefix := prefix config;
     form_postfix := postfix config;
     selectedConfigId := Some (id config) |}.

(** [handleSaveConfig]: [random_id] is
    [Math.random().toString(36).substring(7)]; the result says whether the
    configuration was saved (the success toast) or refused (the error
    toast). *)
Definition handleSaveConfig (random_id : jsstring) (st : Home) : bool * Home :=
  match form_accountName st, form_secretKey st with
  | [], _ | _, [] => (false, st)
  | _, _ =>
      let selected :=
        match selectedConfigId st with
        | Some (c :: i) => Some (c :: i)
        | _ => None
        end in
      let newConfig :=
        {| id := default random_id selected;
           accountName := form_accountName st;
           secretKey := form_secretKey st;
           prefix := form_prefix st;
           postfix := form_postfix st |} in
      let updatedConfigs :=
        match selected with
        | Some i =>
            map (fun config => if bool_decide (id config = i) then newConfig else config)
              (otpConfigs st)
        | None => otpConfigs st ++ [newConfig]
        end in
      (true,
       {| otpConfigs := updatedConfigs;
          isDialogOpen := false;
          form_accountName := form_accountName st;
          form_secretKey := form_secretKey st;
          form_prefix := form_prefix st;
          form_postfix := form_postfix st;
          selectedConfigId := selectedConfigId st |})
  end.

(** [handleDeleteConfig(id)]. *)
Definition handleDeleteConfig (i : jsstring) (st : Home) : Home :=
  {| otpConfigs := filter (fun config => id config <> i) (otpConfigs st);
     isDialogOpen := isDialogOpen st;
     form_accountName := form_accountName st;
     form_secretKey := form_secretKey st;
     form_prefix := form_prefix st;
     form_postfix := form_postfix st;
     selectedConfigId := selectedConfigId st |}.

(** A configuration, the component showing it, and the component with
    the form filled in for another account, for the examples. *)
Definition sample_config : OTPConfig :=
  {| id := lit "k3x9";
     accountName := lit "alice";
     secretKey := lit "JBSWY3DPEHPK3PXP";
     prefix := [];
     postfix := [] |}.

Definition sample_home : Home :=
  {| otpConfigs := [sample_config];
     isDialogOpen := false;
     form_accountName := [];
     form_secretKey := [];
     form_prefix := [];
     form_postfix := [];
     selectedConfigId := None |}.

Definition sample_form : Home :=
  {| otpConfigs := [sample_config];
     isDialogOpen := true;
     form_accountName := lit "bob";
     form_secretKey := lit "GEZDGNBVGY3TQOJQ";
     form_prefix := [];
     form_postfix := [];
     selectedConfigId := None |}.

End Page.
(** * Properties *)

(** ** UTF-8 *)

Module UTF8Props.
Import UTF8.
Local Open Scope N_scope.

Ltac arith := unfold is_high, is_low in *; unfold in_range in *;
  repeat match goal with
  | H : _ && _ = true |- _ => apply andb_true_iff in H; destruct H
  | H : _ && _ = false |- _ => apply andb_false_iff in H; destruct H
  | H : negb _ = true |- _ => apply negb_true_iff in H
  | H : (_ <=? _) = true |- _ => apply N.leb_le in H
  | H : (_ <=? _) = false |- _ => apply N.leb_gt in H
  | H : (_ <? _) = true |- _ => apply N.ltb_lt in H
  | H : (_ <? _) = false |- _ => apply N.ltb_ge in H
  | H : (_ =? _) = true |- _ => apply N.eqb_eq in H
  | H : (_ =? _) = false |- _ => apply N.eqb_neq in H
  end;
  zify; Z.to_euclidean_division_equations; lia.

Lemma in_range_true lo hi b : lo <= b <= hi -> in_range lo hi b = true.
Proof. intros. unfold in_range. apply andb_true_iff. split; apply N.leb_le; lia. Qed.

Lemma in_range_false lo hi b : b < lo \/ hi < b -> in_range lo hi b = false.
Proof. intros. unfold in_range. apply andb_false_iff.
  destruct H; [left|right]; apply N.leb_gt; lia. Qed.

Lemma decode_encode_cp cp rest :
  scalar cp -> decode (encode_cp cp ++ rest) = cp :: decode rest.
Proof.
  intros [Hlt Hns]. unfold encode_cp.
  destruct (cp <? 0x80) eqn:H1.
  { cbn [app decode]. replace (cp <=? 0x7F) with true; [done|]. symmetry. apply N.leb_le. arith. }
  destruct (cp <? 0x800) eqn:H2.
  { cbn [app decode].
    replace (0xC0 + cp / 64 <=? 0x7F) with false by (symmetry; apply N.leb_gt; arith).
    rewrite (in_range_true 0xC2 0xDF) by arith.
    rewrite (in_range_true 0x80 0xBF) by arith.
    f_equal. arith. }
  destruct (cp <? 0x10000) eqn:H3.
  { cbn [app decode].
    replace (0xE0 + cp / 4096 <=? 0x7F) with false by (symmetry; apply N.leb_gt; arith).
    rewrite (in_range_false 0xC2 0xDF) by arith.
    rewrite (in_range_true 0xE0 0xEF) by arith.
    cbv zeta.
    rewrite (in_range_true _ _ (0x80 + (cp / 64) mod 64)).
    2:{ destruct (_ =? 0xE0) eqn:E1; destruct (_ =? 0xED) eqn:E2; arith. }
    rewrite (in_range_true 0x80 0xBF) by arith.
    f_equal. arith. }
  cbn [app decode].
  replace (0xF0 + cp / 262144 <=? 0x7F) with false by (symmetry; apply N.leb_gt; arith).
  rewrite (in_range_false 0xC2 0xDF) by arith.
  rewrite (in_range_false 0xE0 0xEF) by arith.
  rewrite (in_range_true 0xF0 0xF4) by arith.
  cbv zeta.
  rewrite (in_range_true _ _ (0x80 + (cp / 4096) mod 64)).
  2:{ destruct (_ =? 0xF0) eqn:E1; destruct (_ =? 0xF4) eqn:E2; arith. }
  rewrite (in_range_true 0x80 0xBF) by arith.
  rewrite (in_range_true 0x80 0xBF) by arith.
  f_equal. arith.
Qed.


Lemma encode_cp_bytes cp : scalar cp -> Forall (fun b => b < 256) (encode_cp cp).
Proof.
  intros [Hlt Hns]. unfold encode_cp.
  destruct (cp <? 0x80) eqn:H1; [repeat constructor; arith|].
  destruct (cp <? 0x800) eqn:H2; [repeat constructor; arith|].
  destruct (cp <? 0x10000) eqn:H3; repeat constructor; arith.
Qed.

Lemma decode_encode_all cps :
  Forall scalar cps -> decode (flat_map encode_cp cps) = cps.
Proof.
  induction 1 as [|cp cps Hcp _ IH]; [done|].
  cbn [flat_map]. rewrite decode_encode_cp by done. by rewrite IH.
Qed.

(** Induction over a well-formed string, one scalar value at a time. *)
Lemma isWellFormed_ind (P : jsstring -> Prop) :
  P [] ->
  (forall u s, is_high u = false -> is_low u = false -> u < 0x10000 ->
     isWellFormed s = true -> P s -> P (u :: s)) ->
  (forall h l s, is_high h = true -> is_low l = true ->
     isWellFormed s = true -> P s -> P (h :: l :: s)) ->
  forall s, isWellFormed s = true -> P s.
Proof.
  intros Hnil Hbmp Hpair s.
  remember (length s) as n eqn:Hn. revert s Hn.
  induction n as [n IH] using lt_wf_ind. intros s Hn Hwf.
  destruct s as [|u s]; [done|]. cbn [isWellFormed] in Hwf.
  destruct (is_high u) eqn:Hh.
  - destruct s as [|l s]; [done|].
    apply andb_true_iff in Hwf as [Hl Hwf].
    apply Hpair; try done. apply (IH (length s)); [cbn in Hn; lia|done|done].
  - apply andb_true_iff in Hwf as [Hwf1 Hwf]. apply andb_true_iff in Hwf1 as [Hl Hu].
    apply negb_true_iff in Hl. apply N.ltb_lt in Hu.
    apply Hbmp; try done. apply (IH (length s)); [cbn in Hn; lia|done|done].
Qed.

Lemma code_points_scalar s :
  isWellFormed s = true -> Forall scalar (code_points s).
Proof.
  revert s. apply isWellFormed_ind.
  - constructor.
  - intros u s Hh Hl Hu _ IH. cbn [code_points]. rewrite Hh, Hl.
    constructor; [|done]. unfold scalar. arith.
  - intros h l s Hh Hl _ IH. cbn [code_points]. rewrite Hh, Hl.
    constructor; [|done]. unfold scalar. arith.
Qed.

Lemma TextEncoder_encode_bytes s :
  isWellFormed s = true -> Forall (fun b => b < 256) (TextEncoder_encode s).
Proof.
  intros Hwf. unfold TextEncoder_encode.
  pose proof (code_points_scalar s Hwf) as Hsc.
  induction Hsc as [|cp cps Hcp _ IH]; [constructor|].
  cbn [flat_map]. apply Forall_app. split; [by apply encode_cp_bytes|done].
Qed.

Lemma utf16_code_points s :
  isWellFormed s = true -> flat_map utf16 (code_points s) = s.
Proof.
  revert s. apply isWellFormed_ind.
  - done.
  - intros u s Hh Hl Hu _ IH. cbn [code_points]. rewrite Hh, Hl.
    cbn [flat_map]. rewrite IH. unfold utf16.
    replace (u <? 0x10000) with true by (symmetry; apply N.ltb_lt; lia). done.
  - intros h l s Hh Hl _ IH. cbn [code_points]. rewrite Hh, Hl.
    cbn [flat_map]. rewrite IH. unfold utf16.
    replace (_ <? 0x10000) with false by (symmetry; apply N.ltb_ge; arith).
    cbn [app]. f_equal; [arith|]. f_equal. arith.
Qed.

(** The encoding of a scalar value other than U+FEFF does not start with
    the byte order mark EF BB BF. *)
Lemma strip_bom_first b0 tl : b0 <> 0xEF -> strip_bom (b0 :: tl) = b0 :: tl.
Proof.
  intros Hne. unfold strip_bom. destruct tl as [|b1 [|b2 tl]]; try done.
  apply N.eqb_neq in Hne. by rewrite Hne.
Qed.

Lemma strip_bom_encode_cp cp rest :
  scalar cp -> cp <> 0xFEFF ->
  strip_bom (encode_cp cp ++ rest) = encode_cp cp ++ rest.
Proof.
  intros [Hlt Hns] Hne. unfold encode_cp.
  destruct (cp <? 0x80) eqn:H1; [apply strip_bom_first; arith|].
  destruct (cp <? 0x800) eqn:H2; [apply strip_bom_first; arith|].
  destruct (cp <? 0x10000) eqn:H3; [|apply strip_bom_first; arith].
  cbn [app strip_bom].
  destruct (_ && _) eqn:Hb; [|done]. exfalso. arith.
Qed.

Lemma strip_bom_encode s :
  isWellFormed s = true -> head s <> Some 0xFEFF ->
  strip_bom (TextEncoder_encode s) = TextEncoder_encode s.
Proof.
  intros Hwf Hhd. pose proof (code_points_scalar s Hwf) as Hsc.
  unfold TextEncoder_encode. destruct s as [|u s]; [done|].
  cbn [isWellFormed code_points] in *.
  destruct (is_high u) eqn:Hh.
  - destruct s as [|l s]; [done|].
    apply andb_true_iff in Hwf as [Hl Hwf]. rewrite Hl in *.
    cbn [flat_map]. apply strip_bom_encode_cp; [by inversion Hsc|]. arith.
  - apply andb_true_iff in Hwf as [Hwf1 Hwf]. apply andb_true_iff in Hwf1 as [Hl Hu].
    apply negb_true_iff in Hl. rewrite Hl in *.
    cbn [flat_map]. apply strip_bom_encode_cp; [by inversion Hsc|].
    intros ->. by apply Hhd.
Qed.

(** A well-formed string that does not begin with U+FEFF survives
    [TextEncoder] followed by [TextDecoder]. *)
Theorem TextDecoder_TextEncoder s :
  isWellFormed s = true -> head s <> Some 0xFEFF ->
  TextDecoder_decode (TextEncoder_encode s) = s.
Proof.
  intros Hwf Hhd. unfold TextDecoder_decode.
  rewrite strip_bom_encode by done. unfold TextEncoder_encode.
  rewrite decode_encode_all by (by apply code_points_scalar).
  by apply utf16_code_points.
Qed.

Example lone_surrogate_is_replaced :
  TextDecoder_decode (TextEncoder_encode [0xD800]) = [0xFFFD].
Proof. reflexivity. Qed.

Example leading_bom_is_dropped :
  TextDecoder_decode (TextEncoder_encode (0xFEFF :: lit "a")) = lit "a".
Proof. reflexivity. Qed.

End UTF8Props.

(** ** Base64 *)

Module Base64Props.
Import Base64.
Local Open Scope N_scope.

Ltac narith := zify; Z.to_euclidean_division_equations; lia.

Lemma list_ind3 {A} (P : list A -> Prop) :
  P [] -> (forall a, P [a]) -> (forall a b, P [a; b]) ->
  (forall a b c r, P r -> P (a :: b :: c :: r)) ->
  forall l, P l.
Proof.
  intros H0 H1 H2 H3. fix IH 1.
  intros [|a [|b [|c r]]]; [exact H0 | apply H1 | apply H2 | apply H3, IH].
Qed.

Lemma sextets_bound bs : Forall (fun b => b < 256) bs -> Forall (fun v => v < 64) (sextets bs).
Proof.
  induction bs as [|a|a b|a b c r IH] using list_ind3; intros Hb; cbn [sextets].
  - constructor.
  - inversion_clear Hb. repeat constructor; narith.
  - inversion_clear Hb as [|?? Ha Hb']. inversion_clear Hb'. repeat constructor; narith.
  - inversion_clear Hb as [|?? Ha Hb']. inversion_clear Hb' as [|?? Hb Hc']. inversion_clear Hc' as [|?? Hc Hr].
    repeat constructor; try narith. by apply IH.
Qed.

Lemma decode_sextets_sextets bs :
  Forall (fun b => b < 256) bs -> decode_sextets (sextets bs) = bs.
Proof.
  induction bs as [|a|a b|a b c r IH] using list_ind3; intros Hb; cbn [sextets decode_sextets].
  - done.
  - inversion_clear Hb. f_equal. narith.
  - inversion_clear Hb as [|?? Ha Hb']. inversion_clear Hb'. f_equal; [narith|]. f_equal. narith.
  - inversion_clear Hb as [|?? Ha Hb']. inversion_clear Hb' as [|?? Hb Hc']. inversion_clear Hc' as [|?? Hc Hr].
    rewrite IH by done. f_equal; [narith|]. f_equal; [narith|]. f_equal. narith.
Qed.

Lemma sextets_length bs : (length (sextets bs) mod 4 <> 1)%nat.
Proof.
  induction bs as [|a|a b|a b c r IH] using list_ind3; cbn [sextets length]; try done.
  replace (S (S (S (S (length (sextets r)))))) with (length (sextets r) + 1 * 4)%nat by lia.
  by rewrite Nat.Div0.mod_add.
Qed.

Lemma b64_value_char v : v < 64 -> b64_value (b64_char v) = Some v.
Proof.
  intros Hv. unfold b64_char.
  destruct (v <? 26) eqn:H1; [apply N.ltb_lt in H1|apply N.ltb_ge in H1].
  { unfold b64_value. replace ((65 <=? 65 + v) && (65 + v <=? 90)) with true.
    - f_equal. lia.
    - symmetry. apply andb_true_iff. split; apply N.leb_le; lia. }
  destruct (v <? 52) eqn:H2; [apply N.ltb_lt in H2|apply N.ltb_ge in H2].
  { unfold b64_value.
    replace ((65 <=? 97 + (v - 26)) && (97 + (v - 26) <=? 90)) with false
      by (symmetry; apply andb_false_iff; right; apply N.leb_gt; lia).
    replace ((97 <=? 97 + (v - 26)) && (97 + (v - 26) <=? 122)) with true
      by (symmetry; apply andb_true_iff; split; apply N.leb_le; lia).
    f_equal. lia. }
  destruct (v <? 62) eqn:H3; [apply N.ltb_lt in H3|apply N.ltb_ge in H3].
  { unfold b64_value.
    replace ((65 <=? 48 + (v - 52)) && (48 + (v - 52) <=? 90)) with false
      by (symmetry; apply andb_false_iff; left; apply N.leb_gt; lia).
    replace ((97 <=? 48 + (v - 52)) && (48 + (v - 52) <=? 122)) with false
      by (symmetry; apply andb_false_iff; left; apply N.leb_gt; lia).
    replace ((48 <=? 48 + (v - 52)) && (48 + (v - 52) <=? 57)) with true
      by (symmetry; apply andb_true_iff; split; apply N.leb_le; lia).
    f_equal. lia. }
  destruct (v =? 62) eqn:H4; [apply N.eqb_eq in H4; by subst|apply N.eqb_neq in H4].
  assert (v = 63) as -> by lia. done.
Qed.

(** A character of the alphabet is neither whitespace nor the padding sign. *)
Lemma b64_char_plain v :
  v < 64 -> is_ascii_whitespace (b64_char v) = false /\ b64_char v <> 61.
Proof.
  intros Hv. unfold b64_char, is_ascii_whitespace.
  destruct (v <? 26) eqn:H1; [apply N.ltb_lt in H1|apply N.ltb_ge in H1].
  { split; [|lia]. repeat (apply orb_false_iff; split); apply N.eqb_neq; lia. }
  destruct (v <? 52) eqn:H2; [apply N.ltb_lt in H2|apply N.ltb_ge in H2].
  { split; [|lia]. repeat (apply orb_false_iff; split); apply N.eqb_neq; lia. }
  destruct (v <? 62) eqn:H3; [apply N.ltb_lt in H3|apply N.ltb_ge in H3].
  { split; [|lia]. repeat (apply orb_false_iff; split); apply N.eqb_neq; lia. }
  destruct (v =? 62); done.
Qed.


Lemma mapM_b64_value vs :
  Forall (fun v => v < 64) vs -> mapM b64_value (map b64_char vs) = Some vs.
Proof.
  induction 1 as [|v vs Hv _ IH]; [done|].
  cbn [map mapM]. rewrite b64_value_char by done. rewrite IH. done.
Qed.

Lemma filter_whitespace_encode bs :
  Forall (fun b => b < 256) bs ->
  filter (fun u => negb (is_ascii_whitespace u)) (encode bs) = encode bs.
Proof.
  intros Hb. unfold encode. rewrite filter_app. f_equal.
  - pose proof (sextets_bound bs Hb) as Hs.
    induction Hs as [|v vs Hv _ IH]; [done|].
    cbn [map]. rewrite filter_cons.
    destruct (b64_char_plain v Hv) as [-> _]. cbn. by rewrite IH.
  - induction ((4 - _ mod 4) mod 4)%nat as [|k IH]; [done|].
    cbn [repeat]. rewrite filter_cons. cbn. by rewrite IH.
Qed.

Lemma strip_padding_encode bs :
  Forall (fun b => b < 256) bs ->
  strip_padding (encode bs) = map b64_char (sextets bs).
Proof.
  intros Hb. unfold encode. set (cs := map b64_char (sextets bs)).
  assert (Hlast : forall x r, rev cs = x :: r -> (x =? 61) = false).
  { intros x r Hr. apply N.eqb_neq.
    assert (Hin : x ∈ cs).
    { apply list_elem_of_In, in_rev. rewrite Hr. by left. }
    apply list_elem_of_fmap in Hin as (v & -> & Hv).
    pose proof (sextets_bound bs Hb) as Hs. rewrite Forall_forall in Hs.
    by apply b64_char_plain, Hs. }
  assert (Hlen : (length cs mod 4 <> 1)%nat).
  { unfold cs. rewrite length_map. apply sextets_length. }
  pose proof (Nat.mod_upper_bound (length cs) 4 ltac:(lia)) as Hub.
  unfold strip_padding. rewrite length_app, repeat_length.
  replace ((length cs + (4 - length cs mod 4) mod 4) mod 4 =? 0)%nat with true.
  2:{ symmetry. apply Nat.eqb_eq. narith. }
  rewrite rev_app_distr, rev_repeat.
  destruct (length cs mod 4)%nat as [|[|[|[|?]]]] eqn:E; try lia.
  - replace ((4 - 0) mod 4)%nat with 0%nat by reflexivity. cbn [repeat app].
    rewrite app_nil_r.
    destruct (rev cs) as [|x [|y r]] eqn:Hr; [done| |].
    + by rewrite (Hlast x []).
    + rewrite (Hlast x (y :: r)) by done. done.
  - replace ((4 - 2) mod 4)%nat with 2%nat by reflexivity. cbn [repeat app].
    rewrite N.eqb_refl. cbn [andb]. by rewrite rev_involutive.
  - replace ((4 - 3) mod 4)%nat with 1%nat by reflexivity. cbn [repeat app].
    destruct (rev cs) as [|y r] eqn:Hr.
    + apply (f_equal (@rev N)) in Hr. rewrite rev_involutive in Hr.
      by rewrite Hr in E.
    + rewrite N.eqb_refl. rewrite (Hlast y r) by done. cbn [andb].
      by rewrite <- Hr, rev_involutive.
Qed.

(** [atob] inverts [btoa] on byte strings. *)
Theorem atob_encode bs :
  Forall (fun b => b < 256) bs -> atob (encode bs) = Some bs.
Proof.
  intros Hb. unfold atob.
  rewrite filter_whitespace_encode, strip_padding_encode by done.
  rewrite length_map.
  replace (length (sextets bs) mod 4 =? 1)%nat with false
    by (symmetry; apply Nat.eqb_neq, sextets_length).
  rewrite mapM_b64_value by (by apply sextets_bound). cbn.
  by rewrite decode_sextets_sextets.
Qed.

Lemma base64_encode_inj bs1 bs2 :
  Forall (fun b => b < 256) bs1 -> Forall (fun b => b < 256) bs2 ->
  encode bs1 = encode bs2 -> bs1 = bs2.
Proof.
  intros H1 H2 He. apply (f_equal atob) in He.
  rewrite !atob_encode in He by done. by injection He.
Qed.

Example btoa_sample : btoa (lit "Man") = Some (lit "TWFu").
Proof. reflexivity. Qed.
Example btoa_padded : btoa (lit "Ma") = Some (lit "TWE=").
Proof. reflexivity. Qed.
Example atob_sample : atob (lit " TWE= ") = Some (lit "Ma").
Proof. reflexivity. Qed.
Example atob_bad : atob (lit "TWE") = Some (lit "Ma") /\ atob (lit "T") = None /\ atob (lit "T*==") = None.
Proof. repeat split; reflexivity. Qed.

End Base64Props.

(** ** EncryptionService *)

Module EncryptionServiceProps.
Import UTF8 Base64 WebCrypto EncryptionService UTF8Props Base64Props.
Local Open Scope N_scope.

Lemma u8_lt b : u8 b < 256.
Proof.
  unfold u8. change 255 with (N.ones 8). rewrite N.land_ones.
  apply N.mod_lt. done.
Qed.

Lemma u8_id b : b < 256 -> u8 b = b.
Proof.
  intros Hb. unfold u8. change 255 with (N.ones 8). rewrite N.land_ones.
  by apply N.mod_small.
Qed.

Lemma u8_lxor a b : N.lxor (u8 a) (u8 b) = u8 (N.lxor a b).
Proof.
  unfold u8. apply N.bits_inj. intros n.
  rewrite N.lxor_spec, !N.land_spec, N.lxor_spec.
  by destruct (N.testbit 255 n), (N.testbit a n), (N.testbit b n).
Qed.

Lemma Forall_map_u8 l : Forall (fun b => b < 256) (map u8 l).
Proof. apply Forall_map, Forall_forall. intros b _. apply u8_lt. Qed.

Lemma map_u8_id l : Forall (fun b => b < 256) l -> map u8 l = l.
Proof.
  induction 1 as [|b l Hb _ IH]; [done|]. cbn [map]. by rewrite u8_id, IH.
Qed.

Lemma forallb_byte l : Forall (fun b => b < 256) l -> forallb (fun u => u <? 256) l = true.
Proof.
  induction 1 as [|b l Hb _ IH]; [done|]. cbn [forallb]. rewrite IH.
  apply N.ltb_lt in Hb. by rewrite Hb.
Qed.

(** ** The buffer conversions *)

Lemma arrayBufferToBase64_total buffer :
  arrayBufferToBase64 buffer = Some (encode (map u8 buffer)).
Proof.
  unfold arrayBufferToBase64, btoa. by rewrite forallb_byte by apply Forall_map_u8.
Qed.

Lemma base64ToArrayBuffer_arrayBufferToBase64 buffer :
  Forall (fun b => b < 256) buffer ->
  base64ToArrayBuffer (encode (map u8 buffer)) = Some buffer.
Proof.
  intros Hb. unfold base64ToArrayBuffer. rewrite map_u8_id by done.
  by apply atob_encode.
Qed.

(** ** The random generator *)

Lemma draw_length n g : length (draw n g) = n.
Proof. unfold draw. by rewrite length_map, length_seq. Qed.

Lemma draw_bytes n g : Forall (fun b => b < 256) (draw n g).
Proof. unfold draw. apply Forall_map, Forall_forall. intros i _. apply u8_lt. Qed.

(** ** AES-GCM *)

Section Gcm.
Variable aes_ctr : bytes -> bytes -> nat -> N.
Variable gcm_tag : bytes -> bytes -> bytes -> bytes.

Lemma ctr_xor_length key iv data :
  length (ctr_xor aes_ctr key iv data) = length data.
Proof. unfold ctr_xor. apply length_imap. Qed.

Lemma ctr_xor_bytes key iv data :
  Forall (fun b => b < 256) (ctr_xor aes_ctr key iv data).
Proof.
  apply Forall_lookup. intros i c Hc. unfold ctr_xor in Hc.
  rewrite list_lookup_imap in Hc.
  destruct (data !! i) as [b|]; [|done]. cbn in Hc. injection Hc as <-.
  rewrite u8_lxor. apply u8_lt.
Qed.

Lemma ctr_xor_involutive key iv data :
  Forall (fun b => b < 256) data ->
  ctr_xor aes_ctr key iv (ctr_xor aes_ctr key iv data) = data.
Proof.
  intros Hb. apply list_eq. intros i. unfold ctr_xor.
  rewrite !list_lookup_imap.
  destruct (data !! i) as [b|] eqn:Hi; [|done]. cbn. f_equal.
  rewrite Forall_lookup in Hb. specialize (Hb i b Hi).
  rewrite (u8_lxor b), (u8_id (u8 _)) by apply u8_lt.
  rewrite u8_lxor, N.lxor_assoc, N.lxor_nilpotent, N.lxor_0_r.
  by apply u8_id.
Qed.

Lemma tag16_length key iv c : length (tag16 gcm_tag key iv c) = 16%nat.
Proof.
  unfold tag16. rewrite length_take, length_app, repeat_length. lia.
Qed.

Lemma tag16_bytes key iv c : Forall (fun b => b < 256) (tag16 gcm_tag key iv c).
Proof.
  unfold tag16. apply Forall_take, Forall_app. split.
  - apply Forall_map_u8.
  - apply Forall_forall. intros b Hb%list_elem_of_In%repeat_spec. by subst.
Qed.

(** What [subtle.decrypt] makes of an encrypted buffer under any key:
    the tag decides. *)
Lemma subtle_decrypt_sealed key key' iv c :
  iv <> [] ->
  subtle_decrypt aes_ctr gcm_tag key' iv (c ++ tag16 gcm_tag key iv c)
  = if bool_decide (tag16 gcm_tag key iv c = tag16 gcm_tag key' iv c)
    then Some (ctr_xor aes_ctr key' iv c) else None.
Proof.
  intros Hiv. unfold subtle_decrypt. destruct iv as [|b iv']; [done|].
  rewrite length_app, tag16_length.
  replace (length c + 16 <? 16)%nat with false by (symmetry; apply Nat.ltb_ge; lia).
  replace (length c + 16 - 16)%nat with (length c) by lia.
  by rewrite take_app_length, drop_app_length.
Qed.

Lemma subtle_decrypt_encrypt key iv data :
  iv <> [] -> Forall (fun b => b < 256) data ->
  exists buffer,
    subtle_encrypt aes_ctr gcm_tag key iv data = Some buffer
    /\ Forall (fun b => b < 256) buffer
    /\ subtle_decrypt aes_ctr gcm_tag key iv buffer = Some data.
Proof.
  intros Hiv Hb. eexists. split; [|split].
  - unfold subtle_encrypt. destruct iv; [done|]. reflexivity.
  - apply Forall_app. split; [apply ctr_xor_bytes|apply tag16_bytes].
  - rewrite subtle_decrypt_sealed by done.
    rewrite bool_decide_true by done. by rewrite ctr_xor_involutive.
Qed.
End Gcm.

(** ** Key derivation *)

Section Kdf.
Variable sha256 : bytes -> bytes.

Lemma N_iter_ext {A} (f h : A -> A) (n : N) (x : A) :
  (forall y, f y = h y) -> N.iter n f x = N.iter n h x.
Proof.
  intros Hfh. induction n as [|n IH] using N.peano_ind; [done|].
  by rewrite !N.iter_succ, IH, Hfh.
Qed.

(** The password enters PBKDF2 only through the HMAC key block. *)
Lemma pbkdf2_key_block p1 p2 salt iterations :
  hmac_block sha256 p1 = hmac_block sha256 p2 ->
  pbkdf2 sha256 p1 salt iterations = pbkdf2 sha256 p2 salt iterations.
Proof.
  intros Hk.
  assert (Hh : forall m, hmac sha256 p1 m = hmac sha256 p2 m).
  { intros m. unfold hmac. by rewrite Hk. }
  unfold pbkdf2. rewrite Hh. f_equal. apply N_iter_ext.
  intros st. unfold pbkdf2_step. by rewrite Hh.
Qed.

(** A zero byte appended to a password shorter than a block leaves the
    key block, and so the derived key, unchanged. *)
Lemma hmac_block_trailing_zero p :
  (length p < 64)%nat -> hmac_block sha256 (p ++ [0]) = hmac_block sha256 p.
Proof.
  intros Hp. unfold hmac_block. rewrite length_app. cbn [length].
  replace (64 <? length p + 1)%nat with false by (symmetry; apply Nat.ltb_ge; lia).
  replace (64 <? length p)%nat with false by (symmetry; apply Nat.ltb_ge; lia).
  rewrite length_app. cbn [length]. rewrite <- app_assoc. f_equal.
  replace (64 - length p)%nat with (S (64 - (length p + 1))) by lia.
  done.
Qed.

Lemma pbkdf2_trailing_zero p salt iterations :
  (length p < 64)%nat ->
  pbkdf2 sha256 (p ++ [0]) salt iterations = pbkdf2 sha256 p salt iterations.
Proof. intros Hp. by apply pbkdf2_key_block, hmac_block_trailing_zero. Qed.
End Kdf.

(** ** encrypt and decrypt *)

Section Service.
Variable sha256 : bytes -> bytes.
Variable aes_ctr : bytes -> bytes -> nat -> N.
Variable gcm_tag : bytes -> bytes -> bytes -> bytes.

Local Abbreviation encrypt := (encrypt sha256 aes_ctr gcm_tag).
Local Abbreviation decrypt := (decrypt sha256 aes_ctr gcm_tag).
Local Abbreviation derived_key := (derived_key sha256).
Local Opaque pbkdf2.

Local Abbreviation ciphertext_of := (ciphertext_of sha256 aes_ctr).

Lemma iv_of_nonempty g : iv_of g <> [].
Proof.
  intros H. apply (f_equal length) in H. unfold iv_of in H.
  by rewrite draw_length in H.
Qed.

Lemma bind_Some {A B} (x : A) (f : A -> option B) : Some x ≫= f = f x.
Proof. reflexivity. Qed.

Lemma Ok_inj {E A} (a b : A) : @Ok E A a = Ok b -> a = b.
Proof. by intros [= ->]. Qed.

Lemma deriveKey_default password salt :
  deriveKey sha256 password salt DEFAULT_ITERATIONS
  = Some (derived_key password salt).
Proof. reflexivity. Qed.

Lemma subtle_encrypt_iv key g data :
  subtle_encrypt aes_ctr gcm_tag key (iv_of g) data
  = Some (ctr_xor aes_ctr key (iv_of g) data
          ++ tag16 gcm_tag key (iv_of g) (ctr_xor aes_ctr key (iv_of g) data)).
Proof.
  unfold subtle_encrypt.
  destruct (iv_of g) as [|b l] eqn:Hiv; [by apply iv_of_nonempty in Hiv|done].
Qed.

(** With the default options [encrypt] always succeeds: it draws 16 bytes
    of salt and then 12 bytes of IV from the generator. *)
Lemma encrypt_default data password g :
  encrypt data password no_options g
  = (Ok {| encryptedData :=
             encode (map u8 (ciphertext_of data password g
                             ++ tag16 gcm_tag (derived_key password (salt_of g))
                                  (iv_of g) (ciphertext_of data password g)));
           salt := encode (map u8 (salt_of g));
           iv := encode (map u8 (iv_of g)) |},
     advance IV_LENGTH (advance SALT_LENGTH g)).
Proof.
  unfold encrypt. cbn [opt_salt opt_iv opt_iterations no_options].
  unfold generateRandomBytes, getRandomValues.
  fold (salt_of g). fold (iv_of g).
  rewrite deriveKey_default, bind_Some, subtle_encrypt_iv, bind_Some.
  fold (ciphertext_of data password g).
  by rewrite !arrayBufferToBase64_total, !bind_Some.
Qed.

(** [decrypt] on the result of [encrypt], with any password: the tag
    under the key derived from that password decides. *)
Lemma decrypt_encrypted data password password' g r :
  fst (encrypt data password no_options g) = Ok r ->
  decrypt (encryptedData r) password' (salt r) (iv r) DEFAULT_ITERATIONS
  = if bool_decide (tag16 gcm_tag (derived_key password (salt_of g)) (iv_of g)
                      (ciphertext_of data password g)
                    = tag16 gcm_tag (derived_key password' (salt_of g)) (iv_of g)
                        (ciphertext_of data password g))
    then Ok (TextDecoder_decode
               (ctr_xor aes_ctr (derived_key password' (salt_of g)) (iv_of g)
                  (ciphertext_of data password g)))
    else Throw Failed_to_decrypt_data.
Proof.
  rewrite encrypt_default. cbv beta iota delta [fst].
  intros Hr. apply Ok_inj in Hr. subst r.
  cbv beta iota delta [encryptedData salt iv]. unfold decrypt.
  rewrite !base64ToArrayBuffer_arrayBufferToBase64
    by first [ apply draw_bytes
             | apply Forall_app; split; [apply ctr_xor_bytes|apply tag16_bytes] ].
  rewrite !bind_Some, deriveKey_default, bind_Some.
  rewrite subtle_decrypt_sealed by apply iv_of_nonempty.
  by destruct (bool_decide _).
Qed.

(** With the same password the tag verifies and the key stream cancels:
    what comes back is the plaintext as [TextEncoder] and [TextDecoder]
    pass it on. *)
Lemma decrypt_same_password data password g r :
  Forall (fun b => b < 256) (TextEncoder_encode data) ->
  fst (encrypt data password no_options g) = Ok r ->
  decrypt (encryptedData r) password (salt r) (iv r) DEFAULT_ITERATIONS
  = Ok (TextDecoder_decode (TextEncoder_encode data)).
Proof.
  intros Hb Hr. rewrite (decrypt_encrypted data password password g r Hr).
  rewrite bool_decide_true by done.
  unfold EncryptionService.ciphertext_of. by rewrite ctr_xor_involutive.
Qed.

(** A password and the same password followed by U+0000 derive the same
    key, so each decrypts what the other encrypted. *)
Lemma derived_key_trailing_nul password salt :
  TextEncoder_encode (password ++ [0]) = TextEncoder_encode password ++ [0] ->
  (length (TextEncoder_encode password) < 64)%nat ->
  derived_key (password ++ [0]) salt = derived_key password salt.
Proof.
  intros He Hlen. unfold EncryptionService.derived_key.
  by rewrite He, pbkdf2_trailing_zero.
Qed.

Lemma decrypt_password_with_trailing_nul data password g r :
  TextEncoder_encode (password ++ [0]) = TextEncoder_encode password ++ [0] ->
  (length (TextEncoder_encode password) < 64)%nat ->
  Forall (fun b => b < 256) (TextEncoder_encode data) ->
  fst (encrypt data password no_options g) = Ok r ->
  decrypt (encryptedData r) (password ++ [0]) (salt r) (iv r) DEFAULT_ITERATIONS
  = Ok (TextDecoder_decode (TextEncoder_encode data)).
Proof.
  intros He Hlen Hb Hr.
  rewrite (decrypt_encrypted data password (password ++ [0]) g r Hr).
  rewrite derived_key_trailing_nul by done.
  rewrite bool_decide_true by done.
  unfold EncryptionService.ciphertext_of. by rewrite ctr_xor_involutive.
Qed.

(** The IV strings of two calls with the default options are equal only
    if the generator delivered the same 12 bytes to both. *)
Lemma encrypt_iv_distinct data1 data2 password1 password2 g1 g2 r1 r2 :
  fst (encrypt data1 password1 no_options g1) = Ok r1 ->
  fst (encrypt data2 password2 no_options g2) = Ok r2 ->
  iv_of g1 <> iv_of g2 -> iv r1 <> iv r2.
Proof.
  rewrite !encrypt_default. cbv beta iota delta [fst].
  intros H1%Ok_inj H2%Ok_inj Hne Heq. subst r1 r2.
  cbv beta iota delta [iv] in Heq.
  apply base64_encode_inj in Heq; try apply Forall_map_u8.
  rewrite !map_u8_id in Heq by apply draw_bytes. done.
Qed.
End Service.

Lemma encode_a_nul :
  TextEncoder_encode (lit "a" ++ [0]) = TextEncoder_encode (lit "a") ++ [0].
Proof. reflexivity. Qed.

(** C2, as amended: for every well-formed plaintext that does not begin
    with U+FEFF and every password, [encrypt] with the default options
    succeeds and [decrypt] of its result with the same password returns the
    plaintext; with any other password [decrypt] throws the decryption error
    unless the GCM tag verifies under the key derived from that password,
    and only then returns a string. *)
Theorem decrypt_encrypt_roundtrip
    (sha256 : bytes -> bytes) (aes_ctr : bytes -> bytes -> nat -> N)
    (gcm_tag : bytes -> bytes -> bytes -> bytes)
    (data password : jsstring) (g : random) :
  isWellFormed data = true -> head data <> Some 0xFEFF ->
  exists r,
    fst (encrypt sha256 aes_ctr gcm_tag data password no_options g) = Ok r
    /\ decrypt sha256 aes_ctr gcm_tag (encryptedData r) password (salt r) (iv r)
         DEFAULT_ITERATIONS = Ok data
    /\ forall password',
         decrypt sha256 aes_ctr gcm_tag (encryptedData r) password' (salt r) (iv r)
           DEFAULT_ITERATIONS
         = if bool_decide
                (tag16 gcm_tag (derived_key sha256 password (salt_of g)) (iv_of g)
                   (ciphertext_of sha256 aes_ctr data password g)
                 = tag16 gcm_tag (derived_key sha256 password' (salt_of g)) (iv_of g)
                     (ciphertext_of sha256 aes_ctr data password g))
           then Ok (TextDecoder_decode
                      (ctr_xor aes_ctr (derived_key sha256 password' (salt_of g))
                         (iv_of g) (ciphertext_of sha256 aes_ctr data password g)))
           else Throw Failed_to_decrypt_data.
Proof.
  intros Hwf Hbom.
  destruct (encrypt sha256 aes_ctr gcm_tag data password no_options g) as [o g'] eqn:He.
  rewrite encrypt_default in He. apply (f_equal fst) in He.
  cbv beta iota delta [fst] in He. subst o.
  eexists. split; [reflexivity|].
  assert (Hr : fst (encrypt sha256 aes_ctr gcm_tag data password no_options g) = Ok
     {| encryptedData :=
               encode (map u8 (ciphertext_of sha256 aes_ctr data password g
                               ++ tag16 gcm_tag (derived_key sha256 password (salt_of g))
                                    (iv_of g) (ciphertext_of sha256 aes_ctr data password g)));
             salt := encode (map u8 (salt_of g));
             iv := encode (map u8 (iv_of g)) |}).
  { by rewrite encrypt_default. }
  split.
  - rewrite (decrypt_same_password _ _ _ _ _ _ _ (TextEncoder_encode_bytes _ Hwf) Hr).
    by rewrite TextDecoder_TextEncoder.
  - intros password'. apply (decrypt_encrypted _ _ _ _ _ _ _ _ Hr).
Qed.

Lemma decrypt_encrypt_roundtrip_witness :
  isWellFormed (lit "JBSWY3DPEHPK3PXP") = true
  /\ head (lit "JBSWY3DPEHPK3PXP") <> Some 0xFEFF
  /\ forall sha256 aes_ctr gcm_tag g,
       exists r,
         fst (encrypt sha256 aes_ctr gcm_tag (lit "JBSWY3DPEHPK3PXP")
                (lit "correcthorse1") no_options g) = Ok r
         /\ decrypt sha256 aes_ctr gcm_tag (encryptedData r) (lit "correcthorse1")
              (salt r) (iv r) DEFAULT_ITERATIONS = Ok (lit "JBSWY3DPEHPK3PXP").
Proof.
  split; [reflexivity|]. split; [discriminate|].
  intros sha256 aes_ctr gcm_tag g.
  destruct (decrypt_encrypt_roundtrip sha256 aes_ctr gcm_tag
              (lit "JBSWY3DPEHPK3PXP") (lit "correcthorse1") g)
    as (r & H1 & H2 & _); [reflexivity|discriminate|].
  exists r. by split.
Defined.

(** C2 as the specification states it fails, whatever hash and cipher the
    platform uses: the password ["a"] followed by U+0000 decrypts what
    ["a"] encrypted, and the string made of the unpaired surrogate U+D800
    comes back as U+FFFD. *)
Lemma decrypt_encrypt_counterexample :
  (~ exists sha256 aes_ctr gcm_tag, spec_wrong_password_fails sha256 aes_ctr gcm_tag)
  /\ (~ exists sha256 aes_ctr gcm_tag, spec_decrypt_inverts_encrypt sha256 aes_ctr gcm_tag).
Proof.
  set (g0 := {| stream := fun _ => 0; cursor := 0 |}).
  split.
  - intros (sha256 & aes_ctr & gcm_tag & Hspec).
    destruct (encrypt sha256 aes_ctr gcm_tag (lit "x") (lit "a") no_options g0)
      as [o g'] eqn:He.
    assert (Hfst : fst (encrypt sha256 aes_ctr gcm_tag (lit "x") (lit "a") no_options g0) = o)
      by (by rewrite He).
    rewrite encrypt_default in He. apply (f_equal fst) in He.
    cbv beta iota delta [fst] in He. subst o.
    pose proof (Hspec (lit "x") (lit "a") (lit "a" ++ [0]) g0 _ ltac:(discriminate) Hfst) as Hthrow.
    rewrite (decrypt_password_with_trailing_nul sha256 aes_ctr gcm_tag
               (lit "x") (lit "a") g0 _ encode_a_nul) in Hthrow; try done.
    + cbv [lit list_ascii_of_string map N_of_ascii N_of_digits
           TextEncoder_encode code_points flat_map encode_cp app length] .
      repeat constructor.
    + repeat constructor.
  - intros (sha256 & aes_ctr & gcm_tag & Hspec).
    destruct (encrypt sha256 aes_ctr gcm_tag [0xD800] (lit "a") no_options g0)
      as [o g'] eqn:He.
    assert (Hfst : fst (encrypt sha256 aes_ctr gcm_tag [0xD800] (lit "a") no_options g0) = o)
      by (by rewrite He).
    rewrite encrypt_default in He. apply (f_equal fst) in He.
    cbv beta iota delta [fst] in He. subst o.
    pose proof (Hspec [0xD800] (lit "a") g0 _ Hfst) as Hsame.
    rewrite (decrypt_same_password sha256 aes_ctr gcm_tag [0xD800] (lit "a") g0 _) in Hsame;
      [discriminate| repeat constructor |done].
Qed.

End EncryptionServiceProps.

(** ** The repositories *)

Module RepositoryProps.
Import UTF8 Base64 WebCrypto EncryptionService SecureStorageRepository.
Import Base64Props EncryptionServiceProps.

Lemma advance_advance n m g : advance n (advance m g) = advance (m + n) g.
Proof. unfold advance. cbn [stream cursor]. f_equal. lia. Qed.

Lemma advance_0 g : advance 0 g = g.
Proof. destruct g. unfold advance. cbn [stream cursor]. f_equal. lia. Qed.


Section Repository.
Variables Sensitive Public : Type.
Variable JSON_stringify : Sensitive -> jsstring.
Variable JSON_parse : jsstring -> option Sensitive.
Variable sha256 : bytes -> bytes.
Variable aes_ctr : bytes -> bytes -> nat -> N.
Variable gcm_tag : bytes -> bytes -> bytes -> bytes.
Variable within_quota : list (ISecureStorageItem Sensitive Public) -> bool.

Local Abbreviation item := (ISecureStorageItem Sensitive Public).
Local Abbreviation instance := (instance Public).
Local Abbreviation world := (world Sensitive Public).
Local Abbreviation state := (state Sensitive Public).
Local Abbreviation encryptItem :=
  (encryptItem JSON_stringify sha256 aes_ctr gcm_tag).
Local Abbreviation decryptItem := (decryptItem JSON_parse sha256 aes_ctr gcm_tag).
Local Abbreviation getAll := (getAll JSON_parse sha256 aes_ctr gcm_tag).
Local Abbreviation getById := (getById JSON_parse sha256 aes_ctr gcm_tag).
Local Abbreviation encryptAll := (encryptAll JSON_stringify sha256 aes_ctr gcm_tag).
Local Abbreviation saveAll :=
  (saveAll JSON_stringify sha256 aes_ctr gcm_tag within_quota).
Local Abbreviation save :=
  (save JSON_stringify JSON_parse sha256 aes_ctr gcm_tag within_quota).
Local Abbreviation readable :=
  (@SecureStorageRepository.readable Sensitive Public JSON_parse sha256 aes_ctr gcm_tag).
Local Abbreviation encrypted_entry :=
  (@SecureStorageRepository.encrypted_entry Sensitive Public JSON_stringify
     sha256 aes_ctr gcm_tag).
Local Abbreviation entries :=
  (@SecureStorageRepository.entries Sensitive Public JSON_stringify
     sha256 aes_ctr gcm_tag).
Local Abbreviation stored_items s :=
  (StorageRepository.getAll (storageKey (fst s)) (localStorage (snd s))).
Local Abbreviation with_rng w g := {| localStorage := localStorage w; rng := g |}.

(** *** getAll *)

(** Decrypting reads the password and leaves the state as it is. *)
Lemma decryptItem_state e (s : state) :
  decryptItem e s = (fst (decryptItem e s), s).
Proof.
  unfold SecureStorageRepository.decryptItem.
  destruct (decrypt _ _ _ _ _ _ _ _) as [d|err]; [|done].
  by destruct (JSON_parse d).
Qed.

Lemma getAll_loop_readable (s : state) items acc :
  getAll_loop JSON_parse sha256 aes_ctr gcm_tag items acc s
  = (Ok (acc ++ omap (readable s) items), s).
Proof.
  revert acc. induction items as [|x items IH]; intros acc.
  - cbn [getAll_loop omap list_omap]. by rewrite app_nil_r.
  - change (omap (readable s) (x :: items))
      with (match readable s x with
            | Some y => y :: omap (readable s) items
            | None => omap (readable s) items
            end).
    cbn [getAll_loop]. unfold readable, bind at 1, encryptedItems_get.
    destruct (encryptedItems (fst s) !! id x) as [e|].
    + unfold bind, try_catch, ret. rewrite (decryptItem_state e s).
      destruct (fst (decryptItem e s)) as [d|err]; rewrite IH;
        [by rewrite <- app_assoc|done].
    + rewrite IH. by rewrite <- app_assoc.
Qed.

Lemma getAll_readable (s : state) :
  getAll s = (Ok (omap (readable s) (stored_items s)), s).
Proof.
  unfold SecureStorageRepository.getAll, try_catch, bind, super_getAll.
  by rewrite getAll_loop_readable.
Qed.

(** *** getById *)

Lemma find_id (i : jsstring) (items : list item) x :
  find (fun y => bool_decide (id y = i)) items = Some x -> id x = i.
Proof.
  intros H. apply find_some in H as [_ H]. by apply bool_decide_eq_true in H.
Qed.

(** [super.getById(id)] searches what the overriding [getAll] returns. *)
Lemma super_getById (s : state) i :
  StorageRepository.getById id getAll i s
  = (Ok (find (fun y => bool_decide (id y = i))
           (omap (readable s) (stored_items s))), s).
Proof.
  unfold StorageRepository.getById, try_catch, bind, ret.
  by rewrite getAll_readable.
Qed.

Lemma getById_not_in_memory (s : state) i :
  encryptedItems (fst s) !! i = None -> getById i s = (Ok None, s).
Proof.
  intros Hnone. unfold SecureStorageRepository.getById.
  unfold bind at 1, try_catch, bind at 1. rewrite super_getById.
  destruct (find _ _) as [x|] eqn:Hf; [|done].
  apply find_id in Hf. unfold encryptedItems_get. by rewrite Hf, Hnone.
Qed.

(** *** encryptItem *)

Lemma encryptItem_total x (s : state) :
  encryptItem x s
  = (Ok (encrypted_entry (password (fst s)) x (rng (snd s))),
     (fst s, with_rng (snd s) (advance (SALT_LENGTH + IV_LENGTH) (rng (snd s))))).
Proof.
  unfold SecureStorageRepository.encryptItem. rewrite encrypt_default.
  by rewrite advance_advance.
Qed.

(** *** save and saveAll *)

Lemma entries_password this items g :
  password (entries this items g) = password this.
Proof.
  revert this g. induction items as [|x items IH]; intros this g; [done|].
  cbn [SecureStorageRepository.entries]. by rewrite IH.
Qed.

Lemma entries_storageKey this items g :
  storageKey (entries this items g) = storageKey this.
Proof.
  revert this g. induction items as [|x items IH]; intros this g; [done|].
  cbn [SecureStorageRepository.entries]. by rewrite IH.
Qed.

Lemma encryptAll_total items this (w : world) :
  encryptAll items (this, w)
  = (Ok tt, (entries this items (rng w),
             with_rng w (advance (length items * (SALT_LENGTH + IV_LENGTH)) (rng w)))).
Proof.
  revert this w. induction items as [|x items IH]; intros this w.
  - cbn [SecureStorageRepository.encryptAll SecureStorageRepository.entries
         length Nat.mul].
    rewrite advance_0. by destruct w.
  - cbn [SecureStorageRepository.encryptAll SecureStorageRepository.entries].
    unfold bind at 1. rewrite encryptItem_total.
    unfold bind at 1, encryptedItems_set. cbn [fst snd].
    rewrite IH. cbn [rng localStorage]. rewrite advance_advance.
    reflexivity.
Qed.

Lemma saveAll_outcome items this (w : world) :
  saveAll items (this, w)
  = let this' := entries this items (rng w) in
    let g' := advance (length items * (SALT_LENGTH + IV_LENGTH)) (rng w) in
    if within_quota items
    then (Ok tt, (this', {| localStorage :=
                              <[storageKey this := StorageRepository.Parsed items]>
                                (localStorage w);
                            rng := g' |}))
    else (Throw StorageRepository.QuotaExceededError, (this', with_rng w g')).
Proof.
  unfold SecureStorageRepository.saveAll, bind. rewrite encryptAll_total.
  unfold super_saveAll, StorageRepository.saveAll. cbn [fst snd localStorage rng].
  rewrite entries_storageKey. by destruct (within_quota items).
Qed.

(** [save] encrypts the item, reads the stored items back through the
    overriding [getAll], puts the item among them and hands them all to
    the overriding [saveAll], which encrypts every one of them. *)
Lemma save_outcome x this (w : world) :
  save x (this, w)
  = let this1 :=
      set_encrypted (id x) (encrypted_entry (password this) x (rng w)) this in
    let w1 := with_rng w (advance (SALT_LENGTH + IV_LENGTH) (rng w)) in
    let items :=
      StorageRepository.upsert id x
        (omap (readable (this1, w1)) (stored_items (this, w))) in
    match saveAll items (this1, w1) with
    | (Ok _, s') => (Ok x, s')
    | (Throw e, s') => (Throw e, s')
    end.
Proof.
  unfold SecureStorageRepository.save. unfold bind at 1.
  rewrite encryptItem_total. unfold bind at 1, encryptedItems_set.
  unfold bind at 1, StorageRepository.save, bind at 1.
  rewrite getAll_readable. cbn [fst snd storageKey set_encrypted localStorage].
  cbv zeta. unfold bind at 1.
  by destruct (saveAll _ _) as [[[]|e] s'].
Qed.

Lemma upsert_elem (x : item) (items : list item) :
  x ∈ StorageRepository.upsert id x items.
Proof.
  unfold StorageRepository.upsert.
  destruct (list_find _ _) as [[index y]|] eqn:Hf.
  - apply list_find_Some in Hf as (Hi & _ & _).
    apply list_elem_of_lookup. exists index.
    apply list_lookup_insert_eq. by eapply lookup_lt_Some.
  - apply elem_of_app. right. by apply list_elem_of_singleton.
Qed.

(** What [saveAll] and [save] leave in localStorage are the items
    themselves. *)
Lemma saveAll_persists_items items this (w : world) s' :
  saveAll items (this, w) = (Ok tt, s') ->
  localStorage (snd s') !! storageKey this = Some (StorageRepository.Parsed items).
Proof.
  rewrite saveAll_outcome. cbv zeta.
  destruct (within_quota items); [|done].
  intros [= <-]. cbn [snd localStorage]. apply lookup_insert_eq.
Qed.

Lemma save_persists_item x this (w : world) r s' :
  save x (this, w) = (Ok r, s') ->
  x ∈ StorageRepository.getAll (storageKey this) (localStorage (snd s')).
Proof.
  rewrite save_outcome. cbv zeta.
  destruct (saveAll _ _) as [[[]|e] s1] eqn:Hs; [|done].
  intros [= _ <-]. apply saveAll_persists_items in Hs.
  cbn [storageKey set_encrypted] in Hs.
  unfold StorageRepository.getAll. rewrite Hs. apply upsert_elem.
Qed.

Lemma entries_lookup_other this items g i :
  (forall y, y ∈ items -> id y <> i) ->
  encryptedItems (entries this items g) !! i = encryptedItems this !! i.
Proof.
  revert this g. induction items as [|x items IH]; intros this g Hne; [done|].
  cbn [SecureStorageRepository.entries]. rewrite IH.
  - cbn [set_encrypted encryptedItems]. rewrite lookup_insert_ne; [done|].
    apply Hne. by left.
  - intros y Hy. apply Hne. by right.
Qed.

(** The entry of an id is made from the last item with that id. *)
Lemma entries_lookup this items g k x :
  items !! k = Some x ->
  (forall j y, (k < j)%nat -> items !! j = Some y -> id y <> id x) ->
  encryptedItems (entries this items g) !! id x
  = Some (encrypted_entry (password this) x
            (advance (k * (SALT_LENGTH + IV_LENGTH)) g)).
Proof.
  revert this g k. induction items as [|y items IH]; intros this g k Hk Hlast; [done|].
  destruct k as [|k].
  - injection Hk as ->. cbn [SecureStorageRepository.entries].
    rewrite entries_lookup_other.
    + cbn [set_encrypted encryptedItems]. rewrite lookup_insert_eq.
      cbn [Nat.mul]. by rewrite advance_0.
    + intros z Hz. apply list_elem_of_lookup in Hz as [j Hj].
      apply (Hlast (S j) z); [lia|done].
  - cbn [SecureStorageRepository.entries]. rewrite (IH _ _ k); [|done|].
    + by rewrite advance_advance.
    + intros j z Hj Hz. apply (Hlast (S j) z); [lia|done].
Qed.


End Repository.

(** *** The claims about the repository *)

(** C1 fails on the code.  Saving the sample credential through a new
    secure repository with the password ["correcthorse1"] leaves in
    localStorage the item itself, secret included, while its encrypted
    form is held only in the in-memory map of the instance.  In general,
    what a successful [save] or [saveAll] writes to localStorage are the
    items as they were given, not their encrypted forms. *)
Theorem save_persists_the_secret_in_clear
    (JSON_stringify : jsstring -> jsstring)
    (JSON_parse : jsstring -> option jsstring)
    (sha256 : bytes -> bytes) (aes_ctr : bytes -> bytes -> nat -> N)
    (gcm_tag : bytes -> bytes -> bytes -> bytes) :
  (let this := new (lit "otp-configs") (lit "correcthorse1") in
   let w : world jsstring jsstring := {| localStorage := ∅; rng := counting |} in
   let '(r, (this', w')) :=
     save JSON_stringify JSON_parse sha256 aes_ctr gcm_tag (fun _ => true)
       github (this, w) in
   r = Ok github
   /\ localStorage w'
      = {[ lit "otp-configs" := StorageRepository.Parsed [github] ]}
   /\ sensitiveData github = lit "JBSWY3DPEHPK3PXP"
   /\ encryptedItems this' !! lit "1"
      = Some (encrypted_entry JSON_stringify sha256 aes_ctr gcm_tag
                (lit "correcthorse1") github
                (advance (SALT_LENGTH + IV_LENGTH) counting)))
  /\ (forall within_quota this x w r (s' : state jsstring jsstring),
        save JSON_stringify JSON_parse sha256 aes_ctr gcm_tag within_quota
          x (this, w) = (Ok r, s') ->
        x ∈ StorageRepository.getAll (storageKey this) (localStorage (snd s')))
  /\ (forall within_quota this items w (s' : state jsstring jsstring),
        saveAll JSON_stringify sha256 aes_ctr gcm_tag within_quota
          items (this, w) = (Ok tt, s') ->
        StorageRepository.getAll (storageKey this) (localStorage (snd s'))
        = items).
Proof.
  split; [|split].
  - cbv zeta. rewrite save_outcome. cbv zeta.
    unfold StorageRepository.getAll.
    cbn [fst snd localStorage rng storageKey new]. rewrite lookup_empty.
    cbn [omap list_omap]. unfold StorageRepository.upsert.
    cbn [list_find app]. rewrite saveAll_outcome. cbv zeta.
    cbn [SecureStorageRepository.entries set_encrypted encryptedItems
         storageKey password localStorage rng new].
    repeat split.
  - intros within_quota this x w r s'. apply save_persists_item.
  - intros within_quota this items w s' Hs.
    apply saveAll_persists_items in Hs.
    unfold StorageRepository.getAll. by rewrite Hs.
Qed.




(** C4, as amended: [getAll] never fails, changes nothing, and returns,
    in storage order, what each stored record contributes: the decrypted
    form of its in-memory entry, nothing when that entry fails to decrypt,
    and the stored record itself when the instance holds no entry for its
    id. *)
Theorem getAll_skips_failed_decryptions {Sensitive Public : Type}
    (JSON_parse : jsstring -> option Sensitive)
    (sha256 : bytes -> bytes) (aes_ctr : bytes -> bytes -> nat -> N)
    (gcm_tag : bytes -> bytes -> bytes -> bytes)
    (s : state Sensitive Public) :
  getAll JSON_parse sha256 aes_ctr gcm_tag s
  = (Ok (omap (readable JSON_parse sha256 aes_ctr gcm_tag s)
           (StorageRepository.getAll (storageKey (fst s)) (localStorage (snd s)))),
     s).
Proof. apply getAll_readable. Qed.

(** C4 as the specification states it fails: a new instance returns a
    stored record although no decryption took place, let alone succeeded. *)
Lemma getAll_returns_undecrypted_records :
  ~ exists (JSON_parse : jsstring -> option jsstring) sha256 aes_ctr gcm_tag,
      forall s : state jsstring jsstring,
        spec_getAll JSON_parse sha256 aes_ctr gcm_tag s.
Proof.
  intros (JSON_parse & sha256 & aes_ctr & gcm_tag & Hspec).
  specialize (Hspec (new (lit "otp-configs") (lit "correcthorse1"),
                     {| localStorage :=
                          {[ lit "otp-configs" := StorageRepository.Parsed [github] ]};
                        rng := counting |})).
  unfold spec_getAll in Hspec. rewrite getAll_readable in Hspec.
  cbn [fst snd storageKey new localStorage] in Hspec.
  unfold StorageRepository.getAll in Hspec. rewrite lookup_singleton_eq in Hspec.
  unfold readable, decrypted in Hspec.
  cbn [omap list_omap fst encryptedItems new] in Hspec.
  rewrite lookup_empty in Hspec. discriminate.
Qed.

End RepositoryProps.
(** ** OTPService *)

Module OTPServiceProps.
Import OTPService.

(** At or after the epoch the JS remainder is the mathematical one. *)
Lemma getRemainingTime_mod (step now_ms : Z) :
  0 < step -> 0 <= now_ms ->
  getRemainingTime step now_ms = step - (now_ms / 1000) mod step.
Proof.
  intros Hstep Hnow. unfold getRemainingTime.
  assert (Hsec : 0 <= now_ms / 1000) by (apply Z.div_pos; lia).
  by rewrite Z.rem_mod_nonneg by lia.
Qed.

(** C6: for every period > 0 and every reading of the clock, which
    [Date.now()] gives in milliseconds since the epoch, the remaining time
    is [period - (floor(now) mod period)] and lies in [1, period]; it is at
    least 1, and so never 0, whatever the reading is. *)
Theorem getRemainingTime_range (step now_ms : Z) :
  0 < step ->
  1 <= getRemainingTime step now_ms
  /\ getRemainingTime step now_ms <> 0
  /\ (0 <= now_ms ->
      getRemainingTime step now_ms = step - (now_ms / 1000) mod step
      /\ 1 <= getRemainingTime step now_ms <= step).
Proof.
  intros Hstep.
  assert (H1 : 1 <= getRemainingTime step now_ms).
  { unfold getRemainingTime.
    pose proof (Z.rem_bound_abs (now_ms / 1000) step ltac:(lia)) as Hb.
    lia. }
  split; [done|]. split; [lia|].
  intros Hnow. split; [by apply getRemainingTime_mod|].
  split; [done|]. rewrite getRemainingTime_mod by done.
  pose proof (Z.mod_pos_bound (now_ms / 1000) step Hstep). lia.
Qed.

Lemma getRemainingTime_range_witness :
  0 < 30 /\ 0 <= 59000
  /\ getRemainingTime 30 59000 = 30 - (59000 / 1000) mod 30
  /\ 1 <= getRemainingTime 30 59000 <= 30
  /\ getRemainingTime 30 59000 = 1.
Proof.
  split; [lia|]. split; [lia|].
  destruct (getRemainingTime_range 30 59000) as (_ & _ & H); [lia|].
  destruct (H ltac:(lia)) as [H1 H2].
  split; [exact H1|]. split; [exact H2|reflexivity].
Defined.

(** The count-down: one second later the remaining time is one less, except
    at the end of a period, where it starts again at the period. *)
Lemma getRemainingTime_next_second (step now_ms : Z) :
  0 < step -> 0 <= now_ms ->
  getRemainingTime step (now_ms + 1000)
  = if getRemainingTime step now_ms =? 1 then step
    else getRemainingTime step now_ms - 1.
Proof.
  intros Hstep Hnow.
  rewrite !getRemainingTime_mod by lia.
  replace ((now_ms + 1000) / 1000) with (now_ms / 1000 + 1)
    by (rewrite <- (Z.div_add now_ms 1 1000) by lia; f_equal; lia).
  pose proof (Z.mod_pos_bound (now_ms / 1000) step Hstep) as Hb.
  destruct (Z.eqb_spec (step - (now_ms / 1000) mod step) 1) as [He|Hne].
  - assert (Hm : (now_ms / 1000) mod step = step - 1) by lia.
    rewrite <- Zplus_mod_idemp_l, Hm.
    replace (step - 1 + 1) with step by lia. rewrite Z.mod_same by lia. lia.
  - rewrite <- Zplus_mod_idemp_l. rewrite Z.mod_small by lia. lia.
Qed.

(** *** generateTOTP *)

Lemma hotp_token_zero_digits digest : hotp_token 0 digest = lit "0".
Proof.
  unfold hotp_token. change (10 ^ 0) with 1. by rewrite Z.mod_1_r.
Qed.

(** C5, as amended: [generateTOTP] does not check the period or the number
    of digits.  It hands them to the generator of the library as they are
    and, whenever that returns a token, returns the prefix, the token and
    the postfix; it throws only what the library throws. *)
Theorem generateTOTP_forwards_parameters
    (totp_generate : Z -> Z -> HashAlgorithms -> jsstring -> Z -> result exn jsstring)
    (secret : jsstring) (options : OTPOptions) (now_ms : Z) :
  let library :=
    totp_generate (default 6 (digits options)) (default 30 (step options))
      (default sha1 (algorithm options)) secret now_ms in
  (forall token,
     library = Ok token ->
     generateTOTP totp_generate secret options now_ms
     = Ok (default [] (prefix options) ++ token ++ default [] (postfix options)))
  /\ (forall e,
        generateTOTP totp_generate secret options now_ms = Throw e
        <-> library = Throw e).
Proof.
  cbv zeta. unfold generateTOTP.
  destruct (totp_generate _ _ _ _ _) as [t|e'].
  - split; [by intros token [= ->]|]. intros e. by split.
  - split; [done|]. intros e. by split; intros [= ->].
Qed.

(** With zero digits and a period of 30 the generator the specification
    describes yields the code ["0"], under any HMAC, and [generateTOTP]
    returns it. *)
Lemma spec_totp_generate_zero_digits hmac secret now_ms :
  spec_totp_generate hmac 0 30 sha1 secret now_ms = Ok (lit "0").
Proof. unfold spec_totp_generate. by rewrite hotp_token_zero_digits. Qed.

Lemma generateTOTP_forwards_parameters_witness :
  (forall hmac, spec_totp_generate hmac 0 30 sha1 (lit "12345678901234567890") 59000
                = Ok (lit "0"))
  /\ (forall hmac,
        generateTOTP (spec_totp_generate hmac) (lit "12345678901234567890")
          zero_digits 59000 = Ok (lit "0")).
Proof.
  split; [intros hmac; apply spec_totp_generate_zero_digits|].
  intros hmac.
  apply (proj1 (generateTOTP_forwards_parameters (spec_totp_generate hmac)
                  (lit "12345678901234567890") zero_digits 59000) (lit "0")
           (spec_totp_generate_zero_digits hmac _ _)).
Defined.

(** The worked example of RFC 4226, section 5.4: the digest
    1f8698690e02ca16618550ef7f19da8e945b555a gives the code 872921. *)
Example hotp_token_rfc4226 :
  hotp_token 6
    [0x1f; 0x86; 0x98; 0x69; 0x0e; 0x02; 0xca; 0x16; 0x61; 0x85;
     0x50; 0xef; 0x7f; 0x19; 0xda; 0x8e; 0x94; 0x5b; 0x55; 0x5a]%N
  = lit "872921".
Proof. reflexivity. Qed.

Example counter_bytes_sample : counter_bytes 1 = [0; 0; 0; 0; 0; 0; 0; 1]%N.
Proof. reflexivity. Qed.

(** C5 as the specification states it fails: with zero digits a code is
    returned, whatever the HMAC. *)
Lemma generateTOTP_accepts_zero_digits :
  ~ exists hmac, spec_rejects_bad_parameters (spec_totp_generate hmac).
Proof.
  intros (hmac & Hspec).
  destruct (Hspec (lit "12345678901234567890") zero_digits 59000) as [e He].
  - right. cbn. lia.
  - unfold generateTOTP, spec_totp_generate in He.
    cbn [digits step algorithm prefix postfix zero_digits default] in He.
    by rewrite hotp_token_zero_digits in He.
Qed.

End OTPServiceProps.

(** ** parseOtpAuthUri *)

Module OtpAuthUriProps.
Import UTF8 OtpAuthUri.

(** *** decodeURIComponent, one escape at a time *)

Ltac crush :=
  repeat first
    [ done
    | progress simpl
    | match goal with
      | H : hex_octet ?a ?b = _ |- context [hex_octet ?a ?b] => rewrite H
      | H : (?p =? 37)%N = _ |- context [(?p =? 37)%N] => rewrite H
      | |- context [hex_octet ?a ?b] => destruct (hex_octet a b) eqn:?
      | |- context [(?p =? 37)%N] => destruct (p =? 37)%N eqn:?
      end ].

Lemma decodeURIComponent_unfold c r0 :
  decodeURIComponent (c :: r0)
  = if negb (c =? 37)%N then cons c <$> decodeURIComponent r0
    else
      '(b1, r1) ← escape (c :: r0);
      if (b1 <? 0x80)%N then cons b1 <$> decodeURIComponent r1
      else if in_range 0xC0 0xDF b1 then
        '(b2, r2) ← escape r1;
        cp ← utf8_code_point [b1; b2];
        app (utf16 cp) <$> decodeURIComponent r2
      else if in_range 0xE0 0xEF b1 then
        '(b2, r2) ← escape r1;
        '(b3, r3) ← escape r2;
        cp ← utf8_code_point [b1; b2; b3];
        app (utf16 cp) <$> decodeURIComponent r3
      else if in_range 0xF0 0xF7 b1 then
        '(b2, r2) ← escape r1;
        '(b3, r3) ← escape r2;
        '(b4, r4) ← escape r3;
        cp ← utf8_code_point [b1; b2; b3; b4];
        app (utf16 cp) <$> decodeURIComponent r4
      else None.
Proof.
  cbn [decodeURIComponent].
  destruct (c =? 37)%N eqn:Hc; cbn [negb]; [|done].
  destruct r0 as [|h1 [|l1 r1]]; try done.
  assert (He : escape (c :: h1 :: l1 :: r1) = (b ← hex_octet h1 l1; Some (b, r1)))
    by (unfold escape; by rewrite Hc).
  rewrite He. clear He.
  destruct (hex_octet h1 l1) as [b1|]; [|done]. cbn [mbind option_bind].
  destruct (b1 <? 0x80)%N; [done|].
  destruct (in_range 0xC0 0xDF b1).
  { destruct r1 as [|p2 [|h2 [|l2 r2]]]; unfold escape; try done; crush. }
  destruct (in_range 0xE0 0xEF b1).
  { destruct r1 as [|p2 [|h2 [|l2 [|p3 [|h3 [|l3 r3]]]]]]; unfold escape; try done;
      crush. }
  destruct (in_range 0xF0 0xF7 b1); [|done].
  destruct r1 as [|p2 [|h2 [|l2 [|p3 [|h3 [|l3 [|p4 [|h4 [|l4 r4]]]]]]]]];
    unfold escape; try done; crush.
Qed.

(** An escape read off a string that ends with ["%3"] leaves a string
    that ends with ["%3"]. *)
Lemma escape_suffix t b r :
  escape (t ++ [37; 51]%N) = Some (b, r) ->
  exists t', r = t' ++ [37; 51]%N /\ (length t' < length t)%nat.
Proof.
  destruct t as [|p [|h [|l t']]]; cbn [app escape].
  - done.
  - destruct (p =? 37)%N; done.
  - destruct (p =? 37)%N; [|done]. unfold hex_octet.
    destruct (hex_value h); done.
  - destruct (p =? 37)%N; [|done]. destruct (hex_octet h l); [|done].
    cbn. intros [= <- <-]. exists t'. split; [done|]. cbn [length]. lia.
Qed.

(** A string that ends with ["%3"] is a URIError. *)
Lemma decodeURIComponent_truncated_escape t :
  decodeURIComponent (t ++ [37; 51]%N) = None.
Proof.
  remember (length t) as n eqn:Hn. revert t Hn.
  induction n as [n IH] using lt_wf_ind. intros t Hn.
  assert (IH' : forall t', (length t' < length t)%nat ->
                  decodeURIComponent (t' ++ [37; 51]%N) = None).
  { intros t' Hlt. apply (IH (length t')); [lia|done]. }
  clear IH. destruct t as [|c t0]; [done|].
  change ((c :: t0) ++ [37; 51]%N) with (c :: (t0 ++ [37; 51]%N)).
  rewrite decodeURIComponent_unfold.
  destruct (negb (c =? 37)%N).
  { rewrite IH' by (cbn [length]; lia). done. }
  change (c :: (t0 ++ [37; 51]%N)) with ((c :: t0) ++ [37; 51]%N).
  destruct (escape ((c :: t0) ++ [37; 51]%N)) as [[b1 r1]|] eqn:E1; [|done].
  apply escape_suffix in E1 as (t1 & -> & H1). cbn [mbind option_bind].
  destruct (b1 <? 0x80)%N; [by rewrite IH'|].
  destruct (in_range 0xC0 0xDF b1).
  { destruct (escape (t1 ++ _)) as [[b2 r2]|] eqn:E2; [|done].
    apply escape_suffix in E2 as (t2 & -> & H2). cbn [mbind option_bind].
    destruct (utf8_code_point _); [|done]. cbn [mbind option_bind].
    by rewrite IH' by lia. }
  destruct (in_range 0xE0 0xEF b1).
  { destruct (escape (t1 ++ _)) as [[b2 r2]|] eqn:E2; [|done].
    apply escape_suffix in E2 as (t2 & -> & H2). cbn [mbind option_bind].
    destruct (escape (t2 ++ _)) as [[b3 r3]|] eqn:E3; [|done].
    apply escape_suffix in E3 as (t3 & -> & H3). cbn [mbind option_bind].
    destruct (utf8_code_point _); [|done]. cbn [mbind option_bind].
    by rewrite IH' by lia. }
  destruct (in_range 0xF0 0xF7 b1); [|done].
  destruct (escape (t1 ++ _)) as [[b2 r2]|] eqn:E2; [|done].
  apply escape_suffix in E2 as (t2 & -> & H2). cbn [mbind option_bind].
  destruct (escape (t2 ++ _)) as [[b3 r3]|] eqn:E3; [|done].
  apply escape_suffix in E3 as (t3 & -> & H3). cbn [mbind option_bind].
  destruct (escape (t3 ++ _)) as [[b4 r4]|] eqn:E4; [|done].
  apply escape_suffix in E4 as (t4 & -> & H4). cbn [mbind option_bind].
  destruct (utf8_code_point _); [|done]. cbn [mbind option_bind].
  by rewrite IH' by lia.
Qed.

Lemma startsWith_app s p : startsWith s p = true -> exists u, s = p ++ u.
Proof.
  revert s. induction p as [|c p IH]; intros s H; [by exists s|].
  destruct s as [|d s]; [done|]. cbn [startsWith] in H.
  apply andb_true_iff in H as [Hc Hs]. apply N.eqb_eq in Hc as ->.
  destruct (IH s Hs) as [u ->]. by exists u.
Qed.

Lemma endsWith_truncated_escape s :
  endsWith s (lit "%3") = true -> decodeURIComponent s = None.
Proof.
  unfold endsWith. intros H. apply startsWith_app in H as [u Hu].
  apply (f_equal (@rev N)) in Hu. rewrite rev_involutive, rev_app_distr in Hu.
  rewrite Hu. apply decodeURIComponent_truncated_escape.
Qed.

(** *** The parser *)

Lemma not_recognized lk :
  lk ∉ recognized ->
  lk <> lit "secret" /\ lk <> lit "issuer" /\ lk <> lit "algorithm"
  /\ lk <> lit "digits" /\ lk <> lit "period" /\ lk <> lit "counter".
Proof.
  unfold recognized. rewrite !not_elem_of_cons. tauto.
Qed.

Section Parser.
Variable URL_new : jsstring -> option URL.
Variable unicode_toLowerCase : jsstring -> jsstring.
Variable unicode_toUpperCase : jsstring -> jsstring.

Local Abbreviation toLowerCase := (toLowerCase unicode_toLowerCase).
Local Abbreviation extract := (extract unicode_toLowerCase unicode_toUpperCase).
Local Abbreviation extract_all :=
  (extract_all unicode_toLowerCase unicode_toUpperCase).
Local Abbreviation parseOtpAuthUrl :=
  (parseOtpAuthUrl unicode_toLowerCase unicode_toUpperCase).
Local Abbreviation parseOtpAuthUri :=
  (parseOtpAuthUri URL_new unicode_toLowerCase unicode_toUpperCase).

(** What a successful [parseLabel] returns.  The second re-decoding
    never succeeds: its issuer ends in a truncated escape. *)
Lemma parseLabel_Some decodedLabelStr labelIssuer labelAccount :
  parseLabel decodedLabelStr = Some (labelIssuer, labelAccount) ->
  let i := indexOf decodedLabelStr 58 in
  if (0 <? i) && (i <? Z.of_nat (length decodedLabelStr) - 1) then
    labelIssuer = Some (trim (substring decodedLabelStr 0 (Z.to_nat i)))
    /\ let a := trim (substring_from decodedLabelStr (Z.to_nat (i + 1))) in
       if startsWith a (lit "%3A")
       then decodeURIComponent a = Some labelAccount
       else labelAccount = a
  else labelIssuer = None /\ labelAccount = decodedLabelStr.
Proof.
  unfold parseLabel. cbv zeta.
  destruct ((0 <? _) && _); [|by intros [= <- <-]].
  set (a := trim (substring_from _ _)). set (li := trim (substring _ _ _)).
  assert (Hno : forall la' r,
            (if endsWith li (lit "%3") && startsWith la' (lit "A")
             then labelIssuer' ← decodeURIComponent li;
                  labelAccount' ← decodeURIComponent la';
                  Some (Some labelIssuer', labelAccount')
             else Some (Some li, la')) = Some r -> r = (Some li, la')).
  { intros la' r. destruct (endsWith li (lit "%3")) eqn:He; cbn [andb].
    - destruct (startsWith la' (lit "A")); [|by intros [= <-]].
      by rewrite (endsWith_truncated_escape li He).
    - by intros [= <-]. }
  destruct (startsWith a (lit "%3A")).
  - destruct (decodeURIComponent a) as [la'|]; [|done]. cbn [mbind option_bind].
    intros H%Hno. by injection H as <- <-.
  - cbn [mbind option_bind]. intros H%Hno. by injection H as <- <-.
Qed.

Lemma finish_Some ty labelIssuer labelAccount params r :
  finish ty labelIssuer labelAccount params = Some r ->
  type r = ty
  /\ label r = {| issuer := labelIssuer; account := labelAccount |}
  /\ forall k, k <> lit "issuer" -> parameters r !! k = params !! k.
Proof.
  unfold finish. destruct (params !! lit "secret") as [[[|c s]|]|]; try done.
  destruct (match ty with totp => _ | hotp => _ end); [|done].
  intros [= <-]. cbn [type label parameters]. repeat split.
  intros k Hk.
  destruct (match params !! lit "issuer" with
            | Some (VString (c0 :: s0)) => _ | _ => _ end) as [[|c0 s0]|];
    try done.
  destruct (params !! lit "issuer"); [done|]. by rewrite lookup_insert_ne.
Qed.

(** A successful parse, step by step. *)
Lemma parseOtpAuthUrl_Some url r :
  parseOtpAuthUrl url = Some r ->
  exists decodedLabelStr labelIssuer labelAccount params,
    decoded_label url = Some decodedLabelStr
    /\ parseLabel decodedLabelStr = Some (labelIssuer, labelAccount)
    /\ extract_all ∅ (searchParams url) = Some params
    /\ finish (type r) labelIssuer labelAccount params = Some r.
Proof.
  unfold OtpAuthUri.parseOtpAuthUrl, decoded_label. cbv zeta.
  destruct (if bool_decide (toLowerCase (hostname url) = lit "totp") then _ else _)
    as [ty|]; [|done].
  cbn [mbind option_bind].
  destruct (if startsWith (pathname url) (lit "/") then _ else _) as [|c path];
    [done|].
  destruct (decodeURIComponent (c :: path)) as [d|] eqn:Hd; [|done].
  cbn [mbind option_bind].
  destruct (parseLabel d) as [[li la]|] eqn:Hl; [|done]. cbn [mbind option_bind].
  destruct la as [|c' la]; [done|].
  destruct (extract_all ∅ (searchParams url)) as [params|] eqn:Hp; [|done].
  cbn [mbind option_bind]. intros Hf.
  destruct (finish_Some _ _ _ _ _ Hf) as (<- & _ & _).
  by exists d, li, (c' :: la), params.
Qed.

Lemma parseOtpAuthUri_Some uri url r :
  URL_new uri = Some url -> parseOtpAuthUri uri = Some r ->
  parseOtpAuthUrl url = Some r.
Proof.
  intros Hu. unfold OtpAuthUri.parseOtpAuthUri. rewrite Hu.
  by destruct (negb _).
Qed.

(** *** The query parameters *)

(** The key enters [extract] only through its lower-case form. *)
Lemma extract_lower_case params key key' v :
  toLowerCase key = toLowerCase key' ->
  extract params (key, v) = extract params (key', v).
Proof. intros H. unfold OtpAuthUri.extract. cbn [fst snd]. by rewrite H. Qed.

Lemma extract_unrecognized params key v :
  toLowerCase key ∉ recognized ->
  extract params (key, v)
  = d ← decodeURIComponent v;
    Some (set_property (toLowerCase key) (VString d) params).
Proof.
  intros (H1 & H2 & H3 & H4 & H5 & H6)%not_recognized.
  unfold OtpAuthUri.extract. cbn [fst snd].
  by rewrite !bool_decide_false by done.
Qed.

(** A turn of the loop leaves the properties with other names alone. *)
Lemma extract_other params entry params' lk :
  extract params entry = Some params' ->
  toLowerCase (fst entry) <> lk ->
  params' !! lk = params !! lk.
Proof.
  unfold OtpAuthUri.extract. intros H Hne.
  destruct (decodeURIComponent (snd entry)) as [d|]; [|done].
  cbn [mbind option_bind] in H. injection H as <-.
  repeat match goal with
  | |- context [bool_decide (toLowerCase (fst entry) = ?l)] =>
      destruct (bool_decide_reflect (toLowerCase (fst entry) = l)) as [He|_];
        [ rewrite He in Hne |]
  end;
  repeat match goal with
  | |- context [match ?x with _ => _ end] => destruct x
  end;
  rewrite ?lookup_insert_ne by done; try done.
  unfold set_property. destruct (bool_decide _); [done|].
  by rewrite lookup_insert_ne.
Qed.

Lemma extract_all_app params l1 l2 :
  extract_all params (l1 ++ l2)
  = params' ← extract_all params l1; extract_all params' l2.
Proof.
  revert params. induction l1 as [|e l1 IH]; intros params; [done|].
  cbn [app OtpAuthUri.extract_all].
  destruct (extract params e); [apply IH|done].
Qed.

Lemma extract_all_other params entries params' lk :
  extract_all params entries = Some params' ->
  (forall e, e ∈ entries -> toLowerCase (fst e) <> lk) ->
  params' !! lk = params !! lk.
Proof.
  revert params. induction entries as [|e entries IH]; intros params H Hne.
  - by injection H as <-.
  - cbn [OtpAuthUri.extract_all] in H.
    destruct (extract params e) as [p1|] eqn:He; [|done].
    cbn [mbind option_bind] in H.
    rewrite (IH p1 H) by (intros e' He'; apply Hne; by right).
    apply (extract_other _ _ _ _ He). apply Hne. by left.
Qed.
End Parser.

(** *** The claims about the parser *)

(** C7, as amended: in a successful parse, when the first colon of the
    decoded label is neither its first nor its last character, the label
    issuer is the trimmed text before it and the account is the trimmed
    text after it, percent-decoded once more when it begins with ["%3A"];
    otherwise the issuer is unset and the account is the whole label. *)
Theorem label_is_split_at_first_colon
    (URL_new : jsstring -> option URL)
    (unicode_toLowerCase unicode_toUpperCase : jsstring -> jsstring)
    (uri : jsstring) (url : URL) (decodedLabelStr : jsstring) (r : OtpAuthData) :
  URL_new uri = Some url ->
  decoded_label url = Some decodedLabelStr ->
  parseOtpAuthUri URL_new unicode_toLowerCase unicode_toUpperCase uri = Some r ->
  let i := indexOf decodedLabelStr 58 in
  if (0 <? i) && (i <? Z.of_nat (length decodedLabelStr) - 1) then
    issuer (label r) = Some (trim (substring decodedLabelStr 0 (Z.to_nat i)))
    /\ let a := trim (substring_from decodedLabelStr (Z.to_nat (i + 1))) in
       if startsWith a (lit "%3A")
       then decodeURIComponent a = Some (account (label r))
       else account (label r) = a
  else label r = {| issuer := None; account := decodedLabelStr |}.
Proof.
  intros Hu Hd Hp. apply (parseOtpAuthUri_Some _ _ _ _ _ _ Hu) in Hp.
  apply parseOtpAuthUrl_Some in Hp as (d & li & la & params & Hd' & Hl & _ & Hf).
  rewrite Hd in Hd'. injection Hd' as <-.
  apply finish_Some in Hf as (_ & -> & _). cbn [issuer account].
  pose proof (parseLabel_Some _ _ _ Hl) as H. cbv zeta in H. cbv zeta.
  destruct ((0 <? _) && _); [done|]. by destruct H as [-> ->].
Qed.

Lemma label_is_split_at_first_colon_witness :
  sample_URL uri_plain = Some url_plain
  /\ decoded_label url_plain = Some (lit "Example:alice")
  /\ exists r,
       parseOtpAuthUri sample_URL (fun s => s) (fun s => s) uri_plain = Some r
       /\ issuer (label r) = Some (lit "Example")
       /\ account (label r) = lit "alice".
Proof.
  split; [reflexivity|]. split; [reflexivity|].
  eexists. split; [reflexivity|].
  exact (label_is_split_at_first_colon sample_URL (fun s => s) (fun s => s)
           uri_plain url_plain (lit "Example:alice") _
           eq_refl eq_refl eq_refl).
Defined.

(** C7 as the specification states it fails: the label ["Iss:%3Auser"]
    yields the account [":user"], not ["%3Auser"]. *)
Lemma label_account_is_decoded_again :
  ~ exists unicode_toLowerCase unicode_toUpperCase,
      spec_label_split sample_URL unicode_toLowerCase unicode_toUpperCase.
Proof.
  intros (lower & upper & Hspec).
  assert (Hp : exists r,
             parseOtpAuthUri sample_URL lower upper uri_encoded_colon = Some r
             /\ account (label r) = lit ":user").
  { eexists. split; reflexivity. }
  destruct Hp as (r & Hp & Ha).
  specialize (Hspec uri_encoded_colon url_encoded_colon (lit "Iss:%3Auser") r
                eq_refl eq_refl Hp).
  cbv zeta in Hspec.
  change ((0 <? indexOf (lit "Iss:%3Auser") 58)
          && (indexOf (lit "Iss:%3Auser") 58
              <? Z.of_nat (length (lit "Iss:%3Auser")) - 1)) with true in Hspec.
  cbv iota in Hspec. rewrite Hspec in Ha. discriminate.
Qed.

(** C8, as amended: a key enters the parser only through its lower-case
    form, so the recognized keys are matched in any letter case; a
    parameter whose lower-cased key is not recognized is stored in the
    parameter object under that lower-cased key, with its value
    percent-decoded once more (the last parameter with that lower-cased key
    wins, and the key [__proto__] is not stored). *)
Theorem unrecognized_parameters_are_lower_cased
    (URL_new : jsstring -> option URL)
    (unicode_toLowerCase unicode_toUpperCase : jsstring -> jsstring) :
  (forall params key key' v,
     toLowerCase unicode_toLowerCase key = toLowerCase unicode_toLowerCase key' ->
     extract unicode_toLowerCase unicode_toUpperCase params (key, v)
     = extract unicode_toLowerCase unicode_toUpperCase params (key', v))
  /\ (forall uri url r before key v after,
        URL_new uri = Some url ->
        parseOtpAuthUri URL_new unicode_toLowerCase unicode_toUpperCase uri = Some r ->
        searchParams url = before ++ (key, v) :: after ->
        toLowerCase unicode_toLowerCase key ∉ recognized ->
        toLowerCase unicode_toLowerCase key <> lit "__proto__" ->
        (forall e, e ∈ after ->
           toLowerCase unicode_toLowerCase (fst e)
           <> toLowerCase unicode_toLowerCase key) ->
        exists d,
          decodeURIComponent v = Some d
          /\ parameters r !! toLowerCase unicode_toLowerCase key = Some (VString d)).
Proof.
  split; [apply extract_lower_case|].
  intros uri url r before key v after Hu Hp Hs Hnr Hproto Hlast.
  apply (parseOtpAuthUri_Some _ _ _ _ _ _ Hu) in Hp.
  apply parseOtpAuthUrl_Some in Hp as (d & li & la & params & _ & _ & He & Hf).
  apply finish_Some in Hf as (_ & _ & Hparams).
  pose proof Hnr as (_ & Hi & _)%not_recognized. rewrite Hparams by exact Hi.
  rewrite Hs, extract_all_app in He.
  destruct (extract_all _ _ ∅ before) as [p1|]; [|done].
  cbn [mbind option_bind OtpAuthUri.extract_all] in He.
  rewrite extract_unrecognized in He by done.
  destruct (decodeURIComponent v) as [dv|]; [|done].
  cbn [mbind option_bind] in He. exists dv. split; [done|].
  rewrite (extract_all_other _ _ _ _ _ _ He Hlast).
  unfold set_property. rewrite bool_decide_false by done.
  apply lookup_insert_eq.
Qed.

Lemma foo_not_recognized : lit "foo" ∉ recognized.
Proof.
  unfold recognized. rewrite !not_elem_of_cons. repeat split; try discriminate.
  apply not_elem_of_nil.
Qed.

Lemma unrecognized_parameters_are_lower_cased_witness :
  sample_URL uri_plain = Some url_plain
  /\ toLowerCase (fun s => s) (lit "Foo") = lit "foo"
  /\ exists r,
       parseOtpAuthUri sample_URL (fun s => s) (fun s => s) uri_plain = Some r
       /\ parameters r !! lit "foo" = Some (VString (lit "bar")).
Proof.
  split; [reflexivity|]. split; [reflexivity|].
  eexists. split; [reflexivity|].
  destruct (proj2 (unrecognized_parameters_are_lower_cased sample_URL
                     (fun s => s) (fun s => s))
              uri_plain url_plain _ [(lit "secret", lit "JBSWY3DPEHPK3PXP")]
              (lit "Foo") (lit "bar") [] eq_refl eq_refl eq_refl
              foo_not_recognized ltac:(discriminate)
              ltac:(intros e He; by apply elem_of_nil in He))
    as (d & Hd & Hl).
  injection Hd as <-. exact Hl.
Defined.

(** C8 as the specification states it fails: the parameter [Foo=bar] is
    not found under the key ["Foo"]. *)
Lemma unrecognized_key_is_not_verbatim :
  ~ exists unicode_toLowerCase unicode_toUpperCase,
      spec_unrecognized_verbatim sample_URL unicode_toLowerCase unicode_toUpperCase.
Proof.
  intros (lower & upper & Hspec).
  assert (Hp : exists r,
             parseOtpAuthUri sample_URL lower upper uri_plain = Some r
             /\ parameters r !! lit "Foo" = None).
  { eexists. split; reflexivity. }
  destruct Hp as (r & Hp & Hnone).
  rewrite (Hspec uri_plain url_plain r (lit "Foo") (lit "bar") eq_refl Hp) in Hnone.
  - discriminate.
  - apply elem_of_cons. right. apply elem_of_cons. by left.
  - apply foo_not_recognized.
Qed.

End OtpAuthUriProps.

(** ** LocalStorageRepository on its own *)

Module LocalStorageProps.
Import StorageRepository.

(** *** The array operations of [save], [getById] and [remove] *)

Section Arrays.
Context {T : Type} (id : T -> jsstring).

Lemma upsert_nil (x : T) : upsert id x [] = [x].
Proof. reflexivity. Qed.

Lemma upsert_cons (x a : T) (l : list T) :
  upsert id x (a :: l)
  = if decide (id a = id x) then x :: l else a :: upsert id x l.
Proof.
  unfold upsert. cbn [list_find].
  destruct (decide (id a = id x)) as [Ha|Ha]; [done|].
  by destruct (list_find _ l) as [[k y]|].
Qed.

Lemma upsert_new (x : T) (l : list T) :
  Forall (fun y => id y <> id x) l -> upsert id x l = l ++ [x].
Proof.
  induction 1 as [|a l Ha _ IH]; [done|].
  rewrite upsert_cons, decide_False by done. by rewrite IH.
Qed.

Lemma upsert_length_known (x : T) (l : list T) :
  Exists (fun y => id y = id x) l -> length (upsert id x l) = length l.
Proof.
  induction l as [|a l IH]; intros Hex; [by apply Exists_nil in Hex|].
  rewrite upsert_cons. destruct (decide (id a = id x)) as [Ha|Ha]; [done|].
  cbn [length]. f_equal. apply IH.
  apply Exists_cons in Hex as [Hex|Hex]; [done|exact Hex].
Qed.

Lemma upsert_ids (x : T) (l : list T) :
  Exists (fun y => id y = id x) l -> map id (upsert id x l) = map id l.
Proof.
  induction l as [|a l IH]; intros Hex; [by apply Exists_nil in Hex|].
  rewrite upsert_cons. destruct (decide (id a = id x)) as [Ha|Ha].
  - cbn [map]. by rewrite Ha.
  - cbn [map]. f_equal. apply IH.
    apply Exists_cons in Hex as [Hex|Hex]; [done|exact Hex].
Qed.

Lemma upsert_NoDup (x : T) (l : list T) :
  NoDup (map id l) -> NoDup (map id (upsert id x l)).
Proof.
  intros Hnd.
  destruct (decide (Exists (fun y => id y = id x) l)) as [Hex|Hnex].
  - by rewrite upsert_ids.
  - apply not_Exists_Forall in Hnex; [|intros y; apply _].
    rewrite upsert_new.
    + rewrite map_app. cbn [map]. apply NoDup_app. split; [done|]. split.
      * intros i Hi Hx. apply list_elem_of_singleton in Hx as ->.
        apply list_elem_of_fmap in Hi as (y & Hy & Hin).
        rewrite Forall_forall in Hnex. by apply (Hnex y Hin).
      * apply NoDup_singleton.
    + eapply Forall_impl; [exact Hnex|]. intros y Hy. exact Hy.
Qed.

Lemma upsert_keeps (x y : T) (l : list T) :
  y ∈ l -> id y <> id x -> y ∈ upsert id x l.
Proof.
  induction l as [|a l IH]; intros Hy Hne; [by apply elem_of_nil in Hy|].
  rewrite upsert_cons. apply elem_of_cons in Hy as [->|Hy].
  - rewrite decide_False by done. by left.
  - destruct (decide (id a = id x)); right; [done|by apply IH].
Qed.

Lemma upsert_subset (x y : T) (l : list T) :
  y ∈ upsert id x l -> y = x \/ y ∈ l.
Proof.
  induction l as [|a l IH].
  - rewrite upsert_nil. intros Hy%list_elem_of_singleton. by left.
  - rewrite upsert_cons. destruct (decide (id a = id x)).
    + intros [->|Hy]%elem_of_cons; [by left|right; by right].
    + intros [->|Hy]%elem_of_cons; [right; by left|].
      destruct (IH Hy) as [->|Hin]; [by left|right; by right].
Qed.

Lemma find_upsert_same (x : T) (l : list T) :
  find (fun y => bool_decide (id y = id x)) (upsert id x l) = Some x.
Proof.
  induction l as [|a l IH].
  - cbn [upsert_nil find]. rewrite upsert_nil. cbn [find].
    by rewrite bool_decide_true.
  - rewrite upsert_cons. destruct (decide (id a = id x)) as [Ha|Ha].
    + cbn [find]. by rewrite bool_decide_true.
    + cbn [find]. by rewrite bool_decide_false.
Qed.

Lemma find_upsert_other (x : T) (l : list T) (j : jsstring) :
  j <> id x ->
  find (fun y => bool_decide (id y = j)) (upsert id x l)
  = find (fun y => bool_decide (id y = j)) l.
Proof.
  intros Hj. induction l as [|a l IH].
  - rewrite upsert_nil. cbn [find]. by rewrite bool_decide_false.
  - rewrite upsert_cons. destruct (decide (id a = id x)) as [Ha|Ha].
    + cbn [find]. rewrite !bool_decide_false; [done| |]; congruence.
    + cbn [find]. by rewrite IH.
Qed.

Lemma find_none_of_id (l : list T) (j : jsstring) :
  Forall (fun y => id y <> j) l ->
  find (fun y => bool_decide (id y = j)) l = None.
Proof.
  induction 1 as [|a l Ha _ IH]; [done|].
  cbn [find]. by rewrite bool_decide_false.
Qed.

Lemma filter_other_ids (l : list T) (j : jsstring) :
  Forall (fun y => id y <> j) (filter (fun y => id y <> j) l).
Proof.
  apply Forall_forall. intros y Hy. by apply list_elem_of_filter in Hy as [Hy _].
Qed.

Lemma filter_all (l : list T) (j : jsstring) :
  Forall (fun y => id y <> j) l -> filter (fun y => id y <> j) l = l.
Proof.
  induction 1 as [|a l Ha _ IH]; [done|].
  rewrite filter_cons, decide_True by done. by rewrite IH.
Qed.

Lemma filter_shorter (l : list T) (j : jsstring) :
  Exists (fun y => id y = j) l ->
  length (filter (fun y => id y <> j) l) <> length l.
Proof.
  intros Hex Hlen.
  assert (Hle : forall l' : list T,
             (length (filter (fun y => id y <> j) l') <= length l')%nat)
    by (intros l'; apply length_filter).
  induction l as [|a l IH]; [by apply Exists_nil in Hex|].
  rewrite filter_cons in Hlen.
  destruct (decide (id a <> j)) as [Ha|Ha].
  - cbn [length] in Hlen. apply IH; [|lia].
    apply Exists_cons in Hex as [Hex|Hex]; [done|exact Hex].
  - cbn [length] in Hlen. specialize (Hle l). lia.
Qed.
End Arrays.

(** *** The methods *)

Section Methods.
Context {T : Type} (id : T -> jsstring) (within_quota : list T -> bool).
Context (storageKey : jsstring).

Local Abbreviation storage := (gmap jsstring (stored T)).
Local Abbreviation stored_in ls := (StorageRepository.getAll storageKey ls).
Local Abbreviation getById := (LocalStorageRepository.getById id storageKey).
Local Abbreviation save := (LocalStorageRepository.save id within_quota storageKey).
Local Abbreviation remove :=
  (LocalStorageRepository.remove id within_quota storageKey).
Local Abbreviation saveAll :=
  (LocalStorageRepository.saveAll within_quota storageKey).

Lemma local_getById (i : jsstring) (ls : storage) :
  getById i ls
  = (Ok (find (fun y => bool_decide (id y = i)) (stored_in ls)), ls).
Proof. reflexivity. Qed.

Lemma stored_in_insert (items : list T) (ls : storage) :
  stored_in (<[storageKey := Parsed items]> ls) = items.
Proof. unfold StorageRepository.getAll. by rewrite lookup_insert_eq. Qed.

Lemma local_save (x : T) (ls : storage) :
  save x ls
  = if within_quota (upsert id x (stored_in ls))
    then (Ok x, <[storageKey := Parsed (upsert id x (stored_in ls))]> ls)
    else (Throw QuotaExceededError, ls).
Proof.
  unfold LocalStorageRepository.save, StorageRepository.save, bind,
    LocalStorageRepository.getAll, LocalStorageRepository.saveAll,
    StorageRepository.saveAll, ret.
  by destruct (within_quota _).
Qed.

Lemma local_remove (i : jsstring) (ls : storage) :
  remove i ls
  = let kept := filter (fun y => id y <> i) (stored_in ls) in
    if bool_decide (length kept <> length (stored_in ls)) then
      if within_quota kept
      then (Ok true, <[storageKey := Parsed kept]> ls)
      else (Ok false, ls)
    else (Ok false, ls).
Proof.
  unfold LocalStorageRepository.remove, StorageRepository.remove, try_catch,
    bind, LocalStorageRepository.getAll, LocalStorageRepository.saveAll,
    StorageRepository.saveAll, ret.
  cbv zeta. destruct (bool_decide _); [|done].
  by destruct (within_quota _).
Qed.
End Methods.

(** *** The properties *)

(** X1: [saveAll] followed by [getAll] returns the items that were saved
    and leaves the other keys of localStorage alone; when
    [localStorage.setItem] refuses the text, [saveAll] throws and nothing
    is written. *)
Theorem local_saveAll_then_getAll {T : Type}
    (within_quota : list T -> bool) (storageKey : jsstring)
    (items : list T) (ls : gmap jsstring (stored T)) :
  (within_quota items = true ->
   exists ls',
     LocalStorageRepository.saveAll within_quota storageKey items ls = (Ok tt, ls')
     /\ LocalStorageRepository.getAll storageKey ls' = (Ok items, ls')
     /\ forall key, key <> storageKey -> ls' !! key = ls !! key)
  /\ (within_quota items = false ->
      LocalStorageRepository.saveAll within_quota storageKey items ls
      = (Throw QuotaExceededError, ls)).
Proof.
  unfold LocalStorageRepository.saveAll, StorageRepository.saveAll,
    LocalStorageRepository.getAll.
  split; intros ->; [|done].
  eexists. split; [reflexivity|]. split.
  - by rewrite stored_in_insert.
  - intros key Hkey. by rewrite lookup_insert_ne.
Qed.

(** X2: after a successful [save], [getById] with the id of the item
    returns the item, and [getById] with any other id returns what it
    returned before. *)
Theorem local_save_then_getById {T : Type} (id : T -> jsstring)
    (within_quota : list T -> bool) (storageKey : jsstring)
    (x : T) (ls : gmap jsstring (stored T)) :
  within_quota (upsert id x (StorageRepository.getAll storageKey ls)) = true ->
  exists ls',
    LocalStorageRepository.save id within_quota storageKey x ls = (Ok x, ls')
    /\ LocalStorageRepository.getById id storageKey (id x) ls' = (Ok (Some x), ls')
    /\ forall j, j <> id x ->
         fst (LocalStorageRepository.getById id storageKey j ls')
         = fst (LocalStorageRepository.getById id storageKey j ls).
Proof.
  intros Hq. rewrite local_save, Hq. eexists. split; [reflexivity|].
  rewrite !local_getById, stored_in_insert. split.
  - by rewrite find_upsert_same.
  - intros j Hj. rewrite !local_getById, stored_in_insert. cbn [fst].
    by rewrite find_upsert_other.
Qed.

Lemma local_save_then_getById_witness :
  exists ls',
    LocalStorageRepository.save SecureStorageRepository.id (fun _ => true)
      (lit "otp-configs") github ∅ = (Ok github, ls')
    /\ LocalStorageRepository.getById SecureStorageRepository.id
         (lit "otp-configs") (lit "1") ls' = (Ok (Some github), ls').
Proof.
  destruct (local_save_then_getById SecureStorageRepository.id (fun _ => true)
              (lit "otp-configs") github ∅ eq_refl) as (ls' & Hs & Hg & _).
  exists ls'. by split.
Defined.

(** X3: [save] puts the item in place of the first stored item with its
    id, or at the end when no stored item has it: the other items stay,
    the number of items grows by one exactly for a new id, and ids that
    were distinct stay distinct. *)
Theorem local_save_is_an_upsert {T : Type} (id : T -> jsstring)
    (within_quota : list T -> bool) (storageKey : jsstring)
    (x : T) (ls : gmap jsstring (stored T)) :
  let before := StorageRepository.getAll storageKey ls in
  let after :=
    StorageRepository.getAll storageKey
      (snd (LocalStorageRepository.save id within_quota storageKey x ls)) in
  (within_quota (upsert id x before) = false -> after = before)
  /\ (within_quota (upsert id x before) = true ->
      x ∈ after
      /\ (forall y, y ∈ before -> id y <> id x -> y ∈ after)
      /\ (Exists (fun y => id y = id x) before ->
          length after = length before /\ map id after = map id before)
      /\ (Forall (fun y => id y <> id x) before -> after = before ++ [x])
      /\ (NoDup (map id before) -> NoDup (map id after))).
Proof.
  cbv zeta. rewrite local_save.
  destruct (within_quota _) eqn:Hq; (split; [|]; intros [=]); [|done].
  cbn [snd]. rewrite stored_in_insert.
  split; [apply list_elem_of_In, find_some with
            (f := fun y => bool_decide (id y = id x)), find_upsert_same|].
  split; [intros y; apply upsert_keeps|].
  split; [intros Hex; split; [by apply upsert_length_known|by apply upsert_ids]|].
  split; [apply upsert_new|apply upsert_NoDup].
Qed.

(** X4: [remove] returns true exactly when a stored item had the id and
    the write succeeded; then no stored item has the id any more, whatever
    their number was, and the other items are left in their order.  When no
    item has the id, or the write fails, it returns false and localStorage
    is as it was; it never throws. *)
Theorem local_remove_removes_every_item_with_the_id {T : Type}
    (id : T -> jsstring) (within_quota : list T -> bool)
    (storageKey : jsstring) (i : jsstring) (ls : gmap jsstring (stored T)) :
  let before := StorageRepository.getAll storageKey ls in
  let kept := filter (fun y => id y <> i) before in
  let '(r, ls') := LocalStorageRepository.remove id within_quota storageKey i ls in
  (Forall (fun y => id y <> i) before -> r = Ok false /\ ls' = ls)
  /\ (Exists (fun y => id y = i) before -> within_quota kept = false ->
      r = Ok false /\ ls' = ls)
  /\ (Exists (fun y => id y = i) before -> within_quota kept = true ->
      r = Ok true
      /\ StorageRepository.getAll storageKey ls' = kept
      /\ fst (LocalStorageRepository.getById id storageKey i ls') = Ok None).
Proof.
  cbv zeta. rewrite local_remove. cbv zeta.
  destruct (bool_decide _) eqn:Hlen.
  - apply bool_decide_eq_true in Hlen.
    assert (Hex : ~ Forall (fun y => id y <> i) (StorageRepository.getAll storageKey ls)).
    { intros Hall. apply Hlen. by rewrite filter_all. }
    destruct (within_quota _) eqn:Hq.
    + split; [done|]. split; [done|]. intros _ _. split; [done|].
      rewrite local_getById, stored_in_insert. split; [done|].
      cbn [fst]. f_equal. apply find_none_of_id, filter_other_ids.
    + split; [done|]. split; [done|]. intros _ [=].
  - apply bool_decide_eq_false in Hlen.
    assert (Hnex : ~ Exists (fun y => id y = i) (StorageRepository.getAll storageKey ls)).
    { intros Hex. apply Hlen. by apply filter_shorter. }
    split; [done|]. split; intros Hex; by destruct (Hnex Hex).
Qed.

(** X5: when localStorage holds no text under the key, or a text that
    does not parse, the repository behaves as an empty one: [getAll]
    returns no item, [getById] returns null and [remove] returns false;
    a [save] then starts a new array with the item alone, and [clear]
    leaves the storage in such a state. *)
Theorem local_blank_storage_is_empty {T : Type} (id : T -> jsstring)
    (within_quota : list T -> bool) (storageKey : jsstring)
    (ls : gmap jsstring (stored T)) :
  (LocalStorageRepository.blank storageKey ls ->
   LocalStorageRepository.getAll storageKey ls = (Ok [], ls)
   /\ (forall i, LocalStorageRepository.getById id storageKey i ls = (Ok None, ls))
   /\ (forall i,
        LocalStorageRepository.remove id within_quota storageKey i ls
        = (Ok false, ls))
   /\ (forall x, within_quota [x] = true ->
        StorageRepository.getAll storageKey
          (snd (LocalStorageRepository.save id within_quota storageKey x ls))
        = [x]))
  /\ LocalStorageRepository.blank storageKey
       (snd (LocalStorageRepository.clear storageKey ls)).
Proof.
  split.
  - intros Hblank.
    assert (Hnone : StorageRepository.getAll storageKey ls = []).
    { unfold StorageRepository.getAll. by destruct Hblank as [-> | ->]. }
    split; [unfold LocalStorageRepository.getAll; by rewrite Hnone|].
    split; [intros i; rewrite local_getById; by rewrite Hnone|].
    split.
    + intros i. rewrite local_remove. cbv zeta. by rewrite Hnone.
    + intros x Hq. rewrite local_save, Hnone, upsert_nil, Hq. cbn [snd].
      apply stored_in_insert.
  - left. unfold LocalStorageRepository.clear, StorageRepository.clear.
    cbn [snd]. apply lookup_delete_eq.
Qed.

End LocalStorageProps.
(** ** SecureStorageRepository: how its methods compose *)

Module SecureStorageProps.
Import UTF8 Base64 WebCrypto EncryptionService StorageRepository.
Import SecureStorageRepository SecureStorageState.
Import UTF8Props Base64Props EncryptionServiceProps RepositoryProps.
Import LocalStorageProps.

(** *** Lists *)

Lemma omap_pointwise {A B} (f : A -> option B) (h : A -> B) (l : list A) :
  (forall y, y ∈ l -> f y = Some (h y)) -> omap f l = map h l.
Proof.
  induction l as [|a l IH]; intros Hf; [done|].
  cbn [omap list_omap map]. rewrite (Hf a) by by left.
  f_equal. apply IH. intros y Hy. apply Hf. by right.
Qed.

Lemma omap_elem {A B} (f : A -> option B) (l : list A) (z : B) :
  z ∈ omap f l -> exists y, y ∈ l /\ f y = Some z.
Proof.
  intros Hz. apply list_elem_of_omap in Hz as (y & Hy & Hf). eauto.
Qed.

Lemma NoDup_ids_last {T} (id : T -> jsstring) (l : list T) k y :
  NoDup (map id l) -> l !! k = Some y ->
  forall j z, (k < j)%nat -> l !! j = Some z -> id z <> id y.
Proof.
  intros Hnd Hk j z Hj Hz Heq.
  assert (j = k); [|lia].
  eapply NoDup_lookup; [exact Hnd| |].
  - by rewrite list_lookup_fmap, Hz.
  - rewrite list_lookup_fmap, Hk. cbn. by rewrite Heq.
Qed.

Lemma NoDup_ids_inj {T} (id : T -> jsstring) (l : list T) y z :
  NoDup (map id l) -> y ∈ l -> z ∈ l -> id y = id z -> y = z.
Proof.
  intros Hnd Hy Hz Heq.
  apply list_elem_of_lookup in Hy as [i Hi]. apply list_elem_of_lookup in Hz as [j Hj].
  assert (i = j).
  { eapply NoDup_lookup; [exact Hnd| |].
    - by rewrite list_lookup_fmap, Hi.
    - rewrite list_lookup_fmap, Hj. cbn. by rewrite Heq. }
  subst j. congruence.
Qed.

(** Putting an item among items that were read back with its id already
    taking its place. *)
Lemma upsert_replaced {T} (id : T -> jsstring) (x : T) (l : list T) :
  NoDup (map id l) ->
  upsert id x (map (fun y => if decide (id y = id x) then x else y) l)
  = upsert id x l.
Proof.
  induction l as [|a l IH]; intros Hnd; [done|].
  cbn [map] in *. apply NoDup_cons in Hnd as [Ha Hnd].
  rewrite !upsert_cons. destruct (decide (id a = id x)) as [Hax|Hax].
  - rewrite decide_True by done. f_equal.
    rewrite <- (map_id l) at 2. apply map_ext_in. intros y Hy.
    rewrite decide_False; [done|]. intros Hyx. apply Ha.
    rewrite Hax, <- Hyx. apply list_elem_of_fmap. exists y.
    split; [done|by apply list_elem_of_In].
  - rewrite decide_False by done. f_equal. by apply IH.
Qed.

Section Secure.
Variables Sensitive Public : Type.
Variable JSON_stringify : Sensitive -> jsstring.
Variable JSON_parse : jsstring -> option Sensitive.
Variable sha256 : bytes -> bytes.
Variable aes_ctr : bytes -> bytes -> nat -> N.
Variable gcm_tag : bytes -> bytes -> bytes -> bytes.
Variable within_quota : list (ISecureStorageItem Sensitive Public) -> bool.

Local Abbreviation item := (ISecureStorageItem Sensitive Public).
Local Abbreviation instance := (instance Public).
Local Abbreviation world := (world Sensitive Public).
Local Abbreviation state := (state Sensitive Public).
Local Abbreviation decryptItem := (decryptItem JSON_parse sha256 aes_ctr gcm_tag).
Local Abbreviation getAll := (getAll JSON_parse sha256 aes_ctr gcm_tag).
Local Abbreviation getById := (getById JSON_parse sha256 aes_ctr gcm_tag).
Local Abbreviation saveAll :=
  (saveAll JSON_stringify sha256 aes_ctr gcm_tag within_quota).
Local Abbreviation save :=
  (save JSON_stringify JSON_parse sha256 aes_ctr gcm_tag within_quota).
Local Abbreviation remove :=
  (SecureStorageRepository.remove JSON_stringify JSON_parse sha256 aes_ctr
     gcm_tag within_quota).
Local Abbreviation readable :=
  (@SecureStorageRepository.readable Sensitive Public JSON_parse sha256 aes_ctr gcm_tag).
Local Abbreviation encrypted_entry :=
  (@SecureStorageRepository.encrypted_entry Sensitive Public JSON_stringify
     sha256 aes_ctr gcm_tag).
Local Abbreviation entries :=
  (@SecureStorageRepository.entries Sensitive Public JSON_stringify
     sha256 aes_ctr gcm_tag).
Local Abbreviation in_sync := (in_sync JSON_parse sha256 aes_ctr gcm_tag).
Local Abbreviation stored_items s :=
  (StorageRepository.getAll (storageKey (fst s)) (localStorage (snd s))).

(** *** What reading depends on *)

(** Decrypting depends on the state through the password only. *)
Lemma decryptItem_password e (s s' : state) :
  password (fst s) = password (fst s') ->
  fst (decryptItem e s) = fst (decryptItem e s').
Proof.
  intros Hp. unfold SecureStorageRepository.decryptItem. rewrite Hp.
  destruct (decrypt _ _ _ _ _ _ _ _) as [d|err]; [|done].
  by destruct (JSON_parse d).
Qed.

Lemma decryptItem_id e (s : state) d :
  fst (decryptItem e s) = Ok d -> id d = encrypted_id e.
Proof.
  unfold SecureStorageRepository.decryptItem.
  destruct (decrypt _ _ _ _ _ _ _ _) as [t|err]; [|done].
  destruct (JSON_parse t); [|done]. cbn [fst]. by intros [= <-].
Qed.

Lemma readable_ext (s s' : state) y :
  password (fst s) = password (fst s') ->
  encryptedItems (fst s) !! id y = encryptedItems (fst s') !! id y ->
  readable s y = readable s' y.
Proof.
  intros Hp He. unfold SecureStorageRepository.readable. rewrite He.
  destruct (encryptedItems (fst s') !! id y) as [e|]; [|done].
  by rewrite (decryptItem_password e s s').
Qed.

(** *** Entries filed under their own id *)

Lemma keyed_new storageKey password : keyed (new (Public := Public) storageKey password).
Proof. intros k e. cbn [new encryptedItems]. by rewrite lookup_empty. Qed.

Lemma keyed_set this password (x : item) g :
  keyed this -> keyed (set_encrypted (id x) (encrypted_entry password x g) this).
Proof.
  intros Hk k e. cbn [set_encrypted encryptedItems].
  destruct (decide (k = id x)) as [->|Hne].
  - rewrite lookup_insert_eq. by intros [= <-].
  - rewrite lookup_insert_ne by done. apply Hk.
Qed.

Lemma keyed_entries this (items : list item) g :
  keyed this -> keyed (entries this items g).
Proof.
  revert this g. induction items as [|x items IH]; intros this g Hk; [done|].
  cbn [SecureStorageRepository.entries]. by apply IH, keyed_set.
Qed.

(** In a state whose entries are filed under their own id, [getById]
    decrypts the entry that [getAll] has decrypted already. *)
Lemma getById_keyed this (w : world) i :
  keyed this ->
  exists r,
    getById i (this, w) = (Ok r, (this, w))
    /\ forall d, r = Some d ->
         id d = i
         /\ exists e, encryptedItems this !! i = Some e
              /\ fst (decryptItem e (this, w)) = Ok d.
Proof.
  intros Hk. unfold SecureStorageRepository.getById.
  unfold bind at 1, try_catch, bind at 1. rewrite super_getById.
  destruct (find _ _) as [it|] eqn:Hf.
  - pose proof (find_id _ _ _ _ _ Hf) as Hid.
    apply find_some in Hf as [Hin _]. apply list_elem_of_In in Hin.
    apply omap_elem in Hin as (y & Hy & Hr).
    unfold SecureStorageRepository.readable in Hr. cbn [fst] in Hr.
    unfold encryptedItems_get. cbn [fst].
    destruct (encryptedItems this !! id y) as [e|] eqn:He.
    + destruct (fst (decryptItem e (this, w))) as [d|err] eqn:Hd; [|done].
      injection Hr as ->.
      pose proof (decryptItem_id _ _ _ Hd) as Hde.
      rewrite (Hk _ _ He) in Hde. rewrite Hde, He.
      unfold bind, ret. rewrite decryptItem_state, Hd.
      eexists. split; [reflexivity|]. intros d [= <-].
      split; [done|]. exists e. by rewrite <- Hid, Hde.
    + injection Hr as ->. rewrite He. unfold ret.
      eexists. split; [reflexivity|]. by intros d [=].
  - unfold ret. eexists. split; [reflexivity|]. by intros d [=].
Qed.

(** *** remove *)

Lemma secure_remove i this (w : world) :
  remove i (this, w)
  = let kept :=
      filter (fun y => id y <> i)
        (omap (readable (this, w)) (stored_items (this, w))) in
    if bool_decide (length kept
                    <> length (omap (readable (this, w)) (stored_items (this, w))))
    then
      match saveAll kept (this, w) with
      | (Ok _, s') => (Ok true, s')
      | (Throw _, s') => (Ok false, s')
      end
    else (Ok false, (this, w)).
Proof.
  unfold SecureStorageRepository.remove, StorageRepository.remove, try_catch,
    bind at 1.
  rewrite getAll_readable. cbv zeta. destruct (bool_decide _); [|done].
  unfold bind, ret. by destruct (saveAll _ _) as [[[]|e] s'].
Qed.

(** *** Reading back what was encrypted *)

Section JSON.
Hypothesis JSON_round_trip : forall d, JSON_parse (JSON_stringify d) = Some d.
Hypothesis JSON_well_formed : forall d, isWellFormed (JSON_stringify d) = true.
Hypothesis JSON_no_bom : forall d, head (JSON_stringify d) <> Some 0xFEFF%N.

Lemma decryptItem_encrypted_entry (s : state) (y : item) g :
  decryptItem (encrypted_entry (password (fst s)) y g) s = (Ok y, s).
Proof.
  rewrite decryptItem_state. f_equal.
  pose (r := {| EncryptionService.encryptedData :=
                  encryptedData (encrypted_entry (password (fst s)) y g);
                EncryptionService.salt :=
                  salt (encrypted_entry (password (fst s)) y g);
                EncryptionService.iv :=
                  iv (encrypted_entry (password (fst s)) y g) |}).
  assert (Hr : fst (encrypt sha256 aes_ctr gcm_tag
                      (JSON_stringify (sensitiveData y)) (password (fst s))
                      no_options g) = Ok r).
  { by rewrite encrypt_default. }
  pose proof (decrypt_same_password sha256 aes_ctr gcm_tag _ _ _ _
                (TextEncoder_encode_bytes _ (JSON_well_formed (sensitiveData y)))
                Hr) as Hd.
  rewrite TextDecoder_TextEncoder in Hd by done.
  unfold SecureStorageRepository.decryptItem.
  change (EncryptionService.encryptedData r)
    with (encryptedData (encrypted_entry (password (fst s)) y g)) in Hd.
  change (EncryptionService.salt r)
    with (salt (encrypted_entry (password (fst s)) y g)) in Hd.
  change (EncryptionService.iv r)
    with (iv (encrypted_entry (password (fst s)) y g)) in Hd.
  rewrite Hd, JSON_round_trip. cbn [fst]. f_equal. by destruct y.
Qed.

(** After the loop of [saveAll] over items with distinct ids, every one
    of them is read back as it is. *)
Lemma readable_entries this (w : world) (items : list item) g y :
  NoDup (map id items) -> y ∈ items ->
  readable (entries this items g, w) y = Some y.
Proof.
  intros Hnd Hy. apply list_elem_of_lookup in Hy as [k Hk].
  unfold SecureStorageRepository.readable. cbn [fst].
  rewrite (entries_lookup _ _ JSON_stringify sha256 aes_ctr gcm_tag
             (fun _ => true) this items g k y Hk)
    by (by apply NoDup_ids_last).
  rewrite <- (entries_password _ _ JSON_stringify sha256 aes_ctr gcm_tag
                this items g).
  change (password (entries this items g))
    with (password (fst (entries this items g, w))).
  by rewrite decryptItem_encrypted_entry.
Qed.

Lemma in_sync_entries this (w : world) (items : list item) g ls g' :
  NoDup (map id items) ->
  in_sync (entries this items g,
           {| localStorage := <[storageKey this := Parsed items]> ls;
              rng := g' |}).
Proof.
  intros Hnd. unfold SecureStorageState.in_sync. cbv zeta. cbn [fst snd localStorage].
  rewrite entries_storageKey. unfold StorageRepository.getAll.
  rewrite lookup_insert_eq. split; [done|].
  intros y Hy.
  rewrite <- (readable_entries this w items g y Hnd Hy).
  by apply readable_ext.
Qed.

Lemma in_sync_getAll (s : state) :
  in_sync s -> getAll s = (Ok (stored_items s), s).
Proof.
  intros [_ Hread]. rewrite getAll_readable. do 2 f_equal.
  rewrite <- (map_id (stored_items s)) at 2. by apply omap_pointwise.
Qed.

Lemma in_sync_getById (s : state) (x : item) :
  in_sync s -> x ∈ stored_items s ->
  is_Some (encryptedItems (fst s) !! id x) ->
  getById (id x) s = (Ok (Some x), s).
Proof.
  intros Hsync Hx [e He]. pose proof Hsync as [Hnd Hread].
  unfold SecureStorageRepository.getById.
  unfold bind at 1, try_catch, bind at 1. rewrite super_getById.
  replace (omap (readable s) (stored_items s)) with (stored_items s)
    by (rewrite <- (map_id (stored_items s)) at 1; symmetry;
        by apply omap_pointwise).
  destruct (find _ _) as [z|] eqn:Hf.
  - pose proof (find_id _ _ _ _ _ Hf) as Hid.
    apply find_some in Hf as [Hin _]. apply list_elem_of_In in Hin.
    assert (z = x) as -> by (by eapply NoDup_ids_inj).
    unfold encryptedItems_get. rewrite He. unfold bind, ret.
    specialize (Hread x Hx). unfold SecureStorageRepository.readable in Hread.
    rewrite He in Hread. rewrite decryptItem_state.
    destruct (fst (decryptItem e s)) as [d|err]; [|done]. by injection Hread as ->.
  - apply list_elem_of_In in Hx.
    pose proof (find_none _ _ Hf x Hx) as Hfalse. cbv beta in Hfalse.
    by rewrite bool_decide_true in Hfalse.
Qed.

(** What [getAll] returns in the middle of [save]: the stored items, the
    one with the id of the new item replaced by it. *)
Lemma readable_during_save this (w w1 : world) (x : item) g :
  in_sync (this, w) ->
  omap (readable (set_encrypted (id x) (encrypted_entry (password this) x g) this, w1))
    (stored_items (this, w))
  = map (fun y => if decide (id y = id x) then x else y) (stored_items (this, w)).
Proof.
  intros [_ Hread]. apply omap_pointwise. intros y Hy.
  destruct (decide (id y = id x)) as [Hyx|Hyx].
  - unfold SecureStorageRepository.readable.
    cbn [fst set_encrypted encryptedItems]. rewrite Hyx, lookup_insert_eq.
    change (password this)
      with (password (fst (set_encrypted (id x)
                             (encrypted_entry (password this) x g) this, w1))) at 1.
    by rewrite decryptItem_encrypted_entry.
  - rewrite <- (Hread y Hy). apply readable_ext; [done|].
    cbn [fst set_encrypted encryptedItems]. by rewrite lookup_insert_ne.
Qed.

Lemma saveAll_in_sync (items : list item) this (w : world) :
  NoDup (map id items) -> within_quota items = true ->
  exists s',
    saveAll items (this, w) = (Ok tt, s')
    /\ stored_items s' = items
    /\ getAll s' = (Ok items, s')
    /\ (forall x, x ∈ items -> getById (id x) s' = (Ok (Some x), s'))
    /\ in_sync s'.
Proof.
  intros Hnd Hq. rewrite saveAll_outcome. cbv zeta. rewrite Hq.
  eexists. split; [reflexivity|].
  pose proof (in_sync_entries this w items (rng w) (localStorage w)
                (advance (length items * (SALT_LENGTH + IV_LENGTH)) (rng w)) Hnd)
    as Hsync.
  assert (Hst : stored_items
                  (entries this items (rng w),
                   {| localStorage :=
                        <[storageKey this := Parsed items]> (localStorage w);
                      rng := advance (length items * (SALT_LENGTH + IV_LENGTH))
                               (rng w) |}) = items).
  { cbn [fst snd localStorage]. rewrite entries_storageKey.
    unfold StorageRepository.getAll. by rewrite lookup_insert_eq. }
  split; [exact Hst|]. split; [by rewrite in_sync_getAll, Hst|].
  split; [|exact Hsync].
  intros x Hx. apply in_sync_getById; [exact Hsync|by rewrite Hst|].
  cbn [fst]. apply list_elem_of_lookup in Hx as [k Hk].
  rewrite (entries_lookup _ _ JSON_stringify sha256 aes_ctr gcm_tag
             (fun _ => true) this items (rng w) k x Hk)
    by (by apply NoDup_ids_last).
  done.
Qed.

Lemma save_in_sync (x : item) this (w : world) :
  in_sync (this, w) ->
  within_quota (upsert id x (stored_items (this, w))) = true ->
  exists s',
    save x (this, w) = (Ok x, s')
    /\ stored_items s' = upsert id x (stored_items (this, w))
    /\ getAll s' = (Ok (upsert id x (stored_items (this, w))), s')
    /\ getById (id x) s' = (Ok (Some x), s')
    /\ in_sync s'.
Proof.
  intros Hsync Hq. pose proof Hsync as [Hnd _].
  rewrite save_outcome. cbv zeta.
  rewrite (readable_during_save this w _ x (rng w) Hsync).
  rewrite upsert_replaced by exact Hnd.
  assert (Hnd' : NoDup (map id (upsert id x (stored_items (this, w)))))
    by (by apply upsert_NoDup).
  edestruct (saveAll_in_sync (upsert id x (stored_items (this, w))))
    as (s' & Hs & Hst & Hall & Hby & Hsync'); [exact Hnd'|exact Hq|].
  rewrite Hs. exists s'. split; [done|]. split; [done|]. split; [done|].
  split; [|done]. apply Hby.
  apply list_elem_of_In,
    (find_some (fun y => bool_decide (id y = id x))), find_upsert_same.
Qed.
(** After a [save] every stored item has an entry: [getById] returns
    each of them, also those the instance had no entry for before. *)
Lemma save_reveals_stored (x : item) this (w : world) :
  in_sync (this, w) ->
  within_quota (upsert id x (stored_items (this, w))) = true ->
  exists s',
    save x (this, w) = (Ok x, s')
    /\ forall y, y ∈ upsert id x (stored_items (this, w)) ->
         getById (id y) s' = (Ok (Some y), s').
Proof.
  intros Hsync Hq. pose proof Hsync as [Hnd _].
  rewrite save_outcome. cbv zeta.
  rewrite (readable_during_save this w _ x (rng w) Hsync).
  rewrite upsert_replaced by exact Hnd.
  assert (Hnd' : NoDup (map id (upsert id x (stored_items (this, w)))))
    by (by apply upsert_NoDup).
  edestruct (saveAll_in_sync (upsert id x (stored_items (this, w))))
    as (s' & Hs & _ & _ & Hby & _); [exact Hnd'|exact Hq|].
  rewrite Hs. exists s'. by split.
Qed.

Lemma in_sync_new storageKey password (w : world) :
  NoDup (map id (StorageRepository.getAll storageKey (localStorage w))) ->
  in_sync (new storageKey password, w).
Proof.
  intros Hnd. split; [exact Hnd|].
  intros y Hy. unfold SecureStorageRepository.readable.
  cbn [fst new encryptedItems]. by rewrite lookup_empty.
Qed.

Lemma save_reveals_previous (x y : item) storageKey password (w : world) :
  let stored := StorageRepository.getAll storageKey (localStorage w) in
  NoDup (map id stored) ->
  within_quota (upsert id x stored) = true ->
  y ∈ stored -> id y <> id x ->
  exists s',
    save x (new storageKey password, w) = (Ok x, s')
    /\ getById (id y) s' = (Ok (Some y), s').
Proof.
  intros stored Hnd Hq Hy Hne.
  destruct (save_reveals_stored x (new storageKey password) w)
    as (s' & Hs & Hby); [by apply in_sync_new|exact Hq|].
  exists s'. split; [exact Hs|]. apply Hby. by apply upsert_keeps.
Qed.
End JSON.

(** *** save and the storage *)

Lemma save_rewrites (x : item) this (w : world) :
  let this1 :=
    set_encrypted (id x) (encrypted_entry (password this) x (rng w)) this in
  let w1 :=
    {| localStorage := localStorage w;
       rng := advance (SALT_LENGTH + IV_LENGTH) (rng w) |} in
  let read := omap (readable (this1, w1)) (stored_items (this, w)) in
  getAll (this1, w1) = (Ok read, (this1, w1))
  /\ (within_quota (upsert id x read) = true ->
      exists s',
        save x (this, w) = (Ok x, s')
        /\ stored_items s' = upsert id x read)
  /\ (within_quota (upsert id x read) = false ->
      exists s',
        save x (this, w) = (Throw QuotaExceededError, s')
        /\ localStorage (snd s') = localStorage w).
Proof.
  cbv zeta. split; [by rewrite getAll_readable|].
  rewrite save_outcome. cbv zeta. rewrite saveAll_outcome. cbv zeta.
  split; intros ->; (eexists; split; [reflexivity|]); [|done].
  cbn [fst snd localStorage set_encrypted storageKey].
  rewrite entries_storageKey. cbn [set_encrypted storageKey].
  unfold StorageRepository.getAll at 1. by rewrite lookup_insert_eq.
Qed.

Lemma remove_keeps_entry i this (w : world) :
  encryptedItems (fst (snd (remove i (this, w)))) !! i = encryptedItems this !! i.
Proof.
  rewrite secure_remove. cbv zeta. destruct (bool_decide _); [|done].
  rewrite saveAll_outcome. cbv zeta.
  destruct (within_quota _); cbn [fst snd];
    (apply entries_lookup_other; intros y Hy;
     by apply list_elem_of_filter in Hy as [Hy _]).
Qed.

Lemma remove_outcome i this (w : world) :
  exists b s',
    remove i (this, w) = (Ok b, s')
    /\ (b = true -> Forall (fun y => id y <> i) (stored_items s'))
    /\ (b = false -> localStorage (snd s') = localStorage w).
Proof.
  rewrite secure_remove. cbv zeta. destruct (bool_decide _).
  - rewrite saveAll_outcome. cbv zeta. destruct (within_quota _).
    + eexists _, _. split; [reflexivity|]. split; [|done]. intros _.
      cbn [fst snd localStorage]. rewrite entries_storageKey.
      unfold StorageRepository.getAll. rewrite lookup_insert_eq.
      apply filter_other_ids.
    + eexists _, _. split; [reflexivity|]. by split.
  - eexists _, _. split; [reflexivity|]. by split.
Qed.

Lemma keyed_save (x : item) this (w : world) :
  keyed this -> keyed (fst (snd (save x (this, w)))).
Proof.
  intros Hk. rewrite save_outcome. cbv zeta. rewrite saveAll_outcome. cbv zeta.
  destruct (within_quota _); cbn [fst snd]; by apply keyed_entries, keyed_set.
Qed.

Lemma keyed_saveAll (items : list item) this (w : world) :
  keyed this -> keyed (fst (snd (saveAll items (this, w)))).
Proof.
  intros Hk. rewrite saveAll_outcome. cbv zeta.
  destruct (within_quota _); cbn [fst snd]; by apply keyed_entries.
Qed.

Lemma keyed_remove i this (w : world) :
  keyed this -> keyed (fst (snd (remove i (this, w)))).
Proof.
  intros Hk. rewrite secure_remove. cbv zeta. destruct (bool_decide _); [|done].
  pose proof (keyed_saveAll
                (filter (fun y => id y <> i)
                   (omap (readable (this, w)) (stored_items (this, w))))
                this w Hk) as Hs.
  by destruct (saveAll _ _) as [[[]|e] s'].
Qed.
End Secure.

(** *** The properties *)

(** X6: [save] writes back what [getAll] reads.  After the item has been
    encrypted into the in-memory map, [super.save] reads the stored items
    through the overriding [getAll], puts the item among them and hands
    them to [saveAll]: a successful [save] leaves in localStorage the item
    and the records [getAll] could read, and nothing else, so a record
    whose in-memory entry does not decrypt is gone from localStorage. *)
Theorem secure_save_writes_back_what_getAll_reads {Sensitive Public : Type}
    (JSON_stringify : Sensitive -> jsstring)
    (JSON_parse : jsstring -> option Sensitive)
    (sha256 : bytes -> bytes) (aes_ctr : bytes -> bytes -> nat -> N)
    (gcm_tag : bytes -> bytes -> bytes -> bytes)
    (within_quota : list (ISecureStorageItem Sensitive Public) -> bool)
    (x : ISecureStorageItem Sensitive Public)
    (this : instance Public) (w : world Sensitive Public) :
  let stored := StorageRepository.getAll (storageKey this) (localStorage w) in
  let this1 :=
    set_encrypted (id x)
      (encrypted_entry JSON_stringify sha256 aes_ctr gcm_tag (password this) x (rng w))
      this in
  let w1 :=
    {| localStorage := localStorage w;
       rng := advance (SALT_LENGTH + IV_LENGTH) (rng w) |} in
  let read := omap (readable JSON_parse sha256 aes_ctr gcm_tag (this1, w1)) stored in
  within_quota (upsert id x read) = true ->
  exists s',
    save JSON_stringify JSON_parse sha256 aes_ctr gcm_tag within_quota x (this, w)
    = (Ok x, s')
    /\ getAll JSON_parse sha256 aes_ctr gcm_tag (this1, w1) = (Ok read, (this1, w1))
    /\ StorageRepository.getAll (storageKey (fst s')) (localStorage (snd s'))
       = upsert id x read
    /\ forall y,
         y ∈ StorageRepository.getAll (storageKey (fst s')) (localStorage (snd s')) ->
         y = x
         \/ exists z, z ∈ stored
              /\ readable JSON_parse sha256 aes_ctr gcm_tag (this1, w1) z = Some y.
Proof.
  cbv zeta. intros Hq.
  destruct (save_rewrites _ _ JSON_stringify JSON_parse sha256 aes_ctr gcm_tag
              within_quota x this w) as (Hall & Hok & _).
  cbv zeta in Hall, Hok. destruct (Hok Hq) as (s' & Hs & Hst).
  exists s'. split; [exact Hs|]. split; [exact Hall|]. split; [exact Hst|].
  intros y Hy. rewrite Hst in Hy. apply upsert_subset in Hy as [->|Hy]; [by left|].
  right. by apply omap_elem.
Qed.

Lemma secure_save_writes_back_what_getAll_reads_witness :
  StorageRepository.getAll (T := ISecureStorageItem bool jsstring)
    (lit "otp-configs") ∅ = []
  /\ forall sha256 aes_ctr gcm_tag,
     exists s',
       save JSON_of_bool bool_of_JSON sha256 aes_ctr gcm_tag (fun _ => true) flagged
         (new (lit "otp-configs") (lit "correcthorse1"),
          {| localStorage := ∅; rng := counting |})
       = (Ok flagged, s')
       /\ StorageRepository.getAll (storageKey (fst s')) (localStorage (snd s'))
          = [flagged].
Proof.
  split; [reflexivity|]. intros sha256 aes_ctr gcm_tag.
  destruct (secure_save_writes_back_what_getAll_reads JSON_of_bool bool_of_JSON
              sha256 aes_ctr gcm_tag (fun _ => true) flagged
              (new (lit "otp-configs") (lit "correcthorse1"))
              {| localStorage := ∅; rng := counting |} eq_refl)
    as (s' & Hs & _ & Hst & _).
  exists s'. split; [exact Hs|]. rewrite Hst.
  unfold StorageRepository.getAll. cbn [localStorage storageKey new].
  by rewrite lookup_empty.
Defined.

(** X7: when [JSON.parse] inverts [JSON.stringify] on the sensitive data
    and the items have distinct ids, a successful [saveAll] is read back
    by the same instance: [getAll] returns the items, [getById] returns
    each of them, and memory and storage agree. *)
Theorem secure_saveAll_then_getAll {Sensitive Public : Type}
    (JSON_stringify : Sensitive -> jsstring)
    (JSON_parse : jsstring -> option Sensitive)
    (sha256 : bytes -> bytes) (aes_ctr : bytes -> bytes -> nat -> N)
    (gcm_tag : bytes -> bytes -> bytes -> bytes)
    (within_quota : list (ISecureStorageItem Sensitive Public) -> bool)
    (items : list (ISecureStorageItem Sensitive Public))
    (this : instance Public) (w : world Sensitive Public) :
  (forall d, JSON_parse (JSON_stringify d) = Some d) ->
  (forall d, isWellFormed (JSON_stringify d) = true) ->
  (forall d, head (JSON_stringify d) <> Some 0xFEFF%N) ->
  NoDup (map id items) ->
  within_quota items = true ->
  exists s',
    saveAll JSON_stringify sha256 aes_ctr gcm_tag within_quota items (this, w)
    = (Ok tt, s')
    /\ getAll JSON_parse sha256 aes_ctr gcm_tag s' = (Ok items, s')
    /\ (forall x, x ∈ items ->
         getById JSON_parse sha256 aes_ctr gcm_tag (id x) s' = (Ok (Some x), s'))
    /\ in_sync JSON_parse sha256 aes_ctr gcm_tag s'.
Proof.
  intros H1 H2 H3 Hnd Hq.
  destruct (saveAll_in_sync _ _ JSON_stringify JSON_parse sha256 aes_ctr gcm_tag
              within_quota H1 H2 H3 items this w Hnd Hq)
    as (s' & Hs & _ & Hall & Hby & Hsync).
  exists s'. split; [exact Hs|]. split; [exact Hall|].
  split; [exact Hby|exact Hsync].
Qed.

Lemma JSON_of_bool_round_trip :
  (forall d, bool_of_JSON (JSON_of_bool d) = Some d)
  /\ (forall d, isWellFormed (JSON_of_bool d) = true)
  /\ (forall d, head (JSON_of_bool d) <> Some 0xFEFF%N).
Proof. by repeat split; intros []. Qed.

Lemma secure_saveAll_then_getAll_witness :
  NoDup (map id [flagged])
  /\ forall sha256 aes_ctr gcm_tag,
     exists s',
       saveAll JSON_of_bool sha256 aes_ctr gcm_tag (fun _ => true) [flagged]
         (new (lit "otp-configs") (lit "correcthorse1"),
          {| localStorage := ∅; rng := counting |})
       = (Ok tt, s')
       /\ getAll bool_of_JSON sha256 aes_ctr gcm_tag s' = (Ok [flagged], s')
       /\ getById bool_of_JSON sha256 aes_ctr gcm_tag (lit "1") s'
          = (Ok (Some flagged), s').
Proof.
  split; [apply NoDup_singleton|]. intros sha256 aes_ctr gcm_tag.
  destruct JSON_of_bool_round_trip as (H1 & H2 & H3).
  destruct (secure_saveAll_then_getAll JSON_of_bool bool_of_JSON
              sha256 aes_ctr gcm_tag (fun _ => true) [flagged]
              (new (lit "otp-configs") (lit "correcthorse1"))
              {| localStorage := ∅; rng := counting |} H1 H2 H3)
    as (s' & Hs & Hall & Hby & _).
  - apply NoDup_singleton.
  - reflexivity.
  - exists s'. split; [exact Hs|]. split; [exact Hall|].
    apply (Hby flagged). by left.
Defined.

(** X8: when [JSON.parse] inverts [JSON.stringify] on the sensitive
    data, [save] keeps memory and storage in agreement: a new instance over
    stored items with distinct ids starts in agreement, and from a state in
    agreement a successful [save] leaves the stored items with the item put
    in place of the one with its id or at the end; [getAll] returns them,
    [getById] with the id of the item returns the item, and the state is
    in agreement again. *)
Theorem secure_save_then_getById {Sensitive Public : Type}
    (JSON_stringify : Sensitive -> jsstring)
    (JSON_parse : jsstring -> option Sensitive)
    (sha256 : bytes -> bytes) (aes_ctr : bytes -> bytes -> nat -> N)
    (gcm_tag : bytes -> bytes -> bytes -> bytes)
    (within_quota : list (ISecureStorageItem Sensitive Public) -> bool) :
  (forall d, JSON_parse (JSON_stringify d) = Some d) ->
  (forall d, isWellFormed (JSON_stringify d) = true) ->
  (forall d, head (JSON_stringify d) <> Some 0xFEFF%N) ->
  (forall storageKey password (w : world Sensitive Public),
     NoDup (map id (StorageRepository.getAll storageKey (localStorage w))) ->
     in_sync JSON_parse sha256 aes_ctr gcm_tag (new storageKey password, w))
  /\ (forall (x : ISecureStorageItem Sensitive Public) this w,
        let stored := StorageRepository.getAll (storageKey this) (localStorage w) in
        in_sync JSON_parse sha256 aes_ctr gcm_tag (this, w) ->
        within_quota (upsert id x stored) = true ->
        exists s',
          save JSON_stringify JSON_parse sha256 aes_ctr gcm_tag within_quota
            x (this, w) = (Ok x, s')
          /\ getAll JSON_parse sha256 aes_ctr gcm_tag s'
             = (Ok (upsert id x stored), s')
          /\ getById JSON_parse sha256 aes_ctr gcm_tag (id x) s'
             = (Ok (Some x), s')
          /\ in_sync JSON_parse sha256 aes_ctr gcm_tag s').
Proof.
  intros H1 H2 H3. split.
  - intros storageKey password w Hnd. split; [exact Hnd|].
    intros y Hy. unfold readable. cbn [fst new encryptedItems].
    by rewrite lookup_empty.
  - intros x this w stored Hsync Hq.
    destruct (save_in_sync _ _ JSON_stringify JSON_parse sha256 aes_ctr gcm_tag
                within_quota H1 H2 H3 x this w Hsync Hq)
      as (s' & Hs & _ & Hall & Hby & Hsync').
    exists s'. split; [exact Hs|]. split; [exact Hall|].
    split; [exact Hby|exact Hsync'].
Qed.

Lemma secure_save_then_getById_witness :
  (forall d, bool_of_JSON (JSON_of_bool d) = Some d)
  /\ forall sha256 aes_ctr gcm_tag,
     exists s',
       save JSON_of_bool bool_of_JSON sha256 aes_ctr gcm_tag (fun _ => true) flagged
         (new (lit "otp-configs") (lit "correcthorse1"),
          {| localStorage := ∅; rng := counting |})
       = (Ok flagged, s')
       /\ getById bool_of_JSON sha256 aes_ctr gcm_tag (lit "1") s'
          = (Ok (Some flagged), s').
Proof.
  destruct JSON_of_bool_round_trip as (H1 & H2 & H3).
  split; [exact H1|]. intros sha256 aes_ctr gcm_tag.
  destruct (secure_save_then_getById (Public := jsstring) JSON_of_bool
              bool_of_JSON sha256 aes_ctr gcm_tag (fun _ => true) H1 H2 H3)
    as [Hnew Hsave].
  destruct (Hsave flagged (new (lit "otp-configs") (lit "correcthorse1"))
              {| localStorage := ∅; rng := counting |})
    as (s' & Hs & _ & Hby & _).
  - apply Hnew. unfold StorageRepository.getAll. cbn [localStorage].
    rewrite lookup_empty. apply NoDup_nil_2.
  - reflexivity.
  - exists s'. by split.
Defined.

(** X9: every entry of the in-memory map is filed under its own id: a
    new instance has no entry, and [save], [saveAll], [remove] and
    [setPassword] keep it so.  In such a state [getById] never throws: it
    returns null or an item with the id asked for, decrypted from the
    entry of that id; the promise it returns without [await] cannot
    reject, because [getAll] has decrypted the same entry before. *)
Theorem secure_getById_never_throws {Sensitive Public : Type}
    (JSON_stringify : Sensitive -> jsstring)
    (JSON_parse : jsstring -> option Sensitive)
    (sha256 : bytes -> bytes) (aes_ctr : bytes -> bytes -> nat -> N)
    (gcm_tag : bytes -> bytes -> bytes -> bytes)
    (within_quota : list (ISecureStorageItem Sensitive Public) -> bool) :
  (forall storageKey password, keyed (new (Public := Public) storageKey password))
  /\ (forall (this : instance Public) (w : world Sensitive Public),
        keyed this ->
        (forall x,
           keyed (fst (snd (save JSON_stringify JSON_parse sha256 aes_ctr gcm_tag
                              within_quota x (this, w)))))
        /\ (forall items,
              keyed (fst (snd (saveAll JSON_stringify sha256 aes_ctr gcm_tag
                                 within_quota items (this, w)))))
        /\ (forall i,
              keyed (fst (snd (remove JSON_stringify JSON_parse sha256 aes_ctr
                                 gcm_tag within_quota i (this, w)))))
        /\ (forall newPassword, keyed (setPassword newPassword this))
        /\ (forall i,
              exists r,
                getById JSON_parse sha256 aes_ctr gcm_tag i (this, w)
                = (Ok r, (this, w))
                /\ forall d, r = Some d ->
                     id d = i
                     /\ exists e,
                          encryptedItems this !! i = Some e
                          /\ fst (decryptItem JSON_parse sha256 aes_ctr gcm_tag
                                    e (this, w)) = Ok d)).
Proof.
  split; [apply keyed_new|]. intros this w Hk.
  split; [intros x; by apply keyed_save|].
  split; [intros items; by apply keyed_saveAll|].
  split; [intros i; by apply keyed_remove|].
  split; [intros newPassword; exact Hk|].
  intros i. by apply getById_keyed.
Qed.

(** X10: [remove], which the class inherits, never throws and never
    deletes the in-memory entry of the id: the entry is the same after the
    call as before.  When it returns true no stored item has the id any
    more; when it returns false localStorage is as it was. *)
Theorem secure_remove_keeps_the_entry {Sensitive Public : Type}
    (JSON_stringify : Sensitive -> jsstring)
    (JSON_parse : jsstring -> option Sensitive)
    (sha256 : bytes -> bytes) (aes_ctr : bytes -> bytes -> nat -> N)
    (gcm_tag : bytes -> bytes -> bytes -> bytes)
    (within_quota : list (ISecureStorageItem Sensitive Public) -> bool)
    (i : jsstring) (this : instance Public) (w : world Sensitive Public) :
  let '(r, s') :=
    remove JSON_stringify JSON_parse sha256 aes_ctr gcm_tag within_quota i (this, w) in
  encryptedItems (fst s') !! i = encryptedItems this !! i
  /\ exists b,
       r = Ok b
       /\ (b = true ->
           Forall (fun y => id y <> i)
             (StorageRepository.getAll (storageKey (fst s')) (localStorage (snd s'))))
       /\ (b = false -> localStorage (snd s') = localStorage w).
Proof.
  pose proof (remove_keeps_entry _ _ JSON_stringify JSON_parse sha256 aes_ctr
                gcm_tag within_quota i this w) as Hkeep.
  destruct (remove_outcome _ _ JSON_stringify JSON_parse sha256 aes_ctr
              gcm_tag within_quota i this w) as (b & s1 & Hr & Ht & Hf).
  rewrite Hr in Hkeep |- *. cbn [fst snd] in Hkeep.
  split; [exact Hkeep|]. exists b. by repeat split.
Qed.

(** X11: when [localStorage.setItem] refuses the text, [saveAll] throws
    the QuotaExceededError and localStorage is as it was, but the loop has
    run: the in-memory entries of the items are the new ones and the
    generator has delivered 28 bytes for each item. *)
Theorem secure_saveAll_quota_failure {Sensitive Public : Type}
    (JSON_stringify : Sensitive -> jsstring)
    (sha256 : bytes -> bytes) (aes_ctr : bytes -> bytes -> nat -> N)
    (gcm_tag : bytes -> bytes -> bytes -> bytes)
    (within_quota : list (ISecureStorageItem Sensitive Public) -> bool)
    (items : list (ISecureStorageItem Sensitive Public))
    (this : instance Public) (w : world Sensitive Public) :
  within_quota items = false ->
  exists this' w',
    saveAll JSON_stringify sha256 aes_ctr gcm_tag within_quota items (this, w)
    = (Throw QuotaExceededError, (this', w'))
    /\ localStorage w' = localStorage w
    /\ rng w' = advance (length items * (SALT_LENGTH + IV_LENGTH)) (rng w)
    /\ forall k x,
         items !! k = Some x ->
         (forall j y, (k < j)%nat -> items !! j = Some y -> id y <> id x) ->
         encryptedItems this' !! id x
         = Some (encrypted_entry JSON_stringify sha256 aes_ctr gcm_tag
                   (password this) x
                   (advance (k * (SALT_LENGTH + IV_LENGTH)) (rng w))).
Proof.
  intros Hq. rewrite saveAll_outcome. cbv zeta. rewrite Hq.
  eexists _, _. split; [reflexivity|]. split; [done|]. split; [done|].
  intros k x Hk Hlast. by apply (entries_lookup _ _ _ _ _ _ within_quota).
Qed.

Lemma secure_saveAll_quota_failure_witness :
  id flagged = lit "1"
  /\ forall sha256 aes_ctr gcm_tag,
     exists this' w',
       saveAll JSON_of_bool sha256 aes_ctr gcm_tag (fun _ => false) [flagged]
         (new (lit "otp-configs") (lit "correcthorse1"),
          {| localStorage := ∅; rng := counting |})
       = (Throw QuotaExceededError, (this', w'))
       /\ localStorage w' = ∅
       /\ encryptedItems this' !! lit "1"
          = Some (encrypted_entry JSON_of_bool sha256 aes_ctr gcm_tag
                    (lit "correcthorse1") flagged counting).
Proof.
  split; [reflexivity|]. intros sha256 aes_ctr gcm_tag.
  destruct (secure_saveAll_quota_failure JSON_of_bool sha256 aes_ctr gcm_tag
              (fun _ => false) [flagged]
              (new (lit "otp-configs") (lit "correcthorse1"))
              {| localStorage := ∅; rng := counting |} eq_refl)
    as (this' & w' & Hs & Hls & _ & He).
  exists this', w'. split; [exact Hs|]. split; [exact Hls|].
  assert (H := He 0%nat flagged eq_refl). cbn [Nat.mul] in H.
  rewrite advance_0 in H. apply H. intros [|j] y Hj Hy; [lia|done].
Defined.

(** C10, as amended: [getById] returns null for an id that has no entry
    in the in-memory map of the instance, whatever localStorage holds, so a
    new instance returns null for every id.  A record that a previous
    instance persisted is hidden only until the instance saves: when
    [JSON.parse] inverts [JSON.stringify] on the sensitive data and the
    stored ids are distinct, a successful [save] of an item with another id
    gives the record an entry, and [getById] with its id returns it. *)
Theorem getById_requires_memory_entry {Sensitive Public : Type}
    (JSON_stringify : Sensitive -> jsstring)
    (JSON_parse : jsstring -> option Sensitive)
    (sha256 : bytes -> bytes) (aes_ctr : bytes -> bytes -> nat -> N)
    (gcm_tag : bytes -> bytes -> bytes -> bytes)
    (within_quota : list (ISecureStorageItem Sensitive Public) -> bool) :
  (forall (this : instance Public) (w : world Sensitive Public) (i : jsstring),
     encryptedItems this !! i = None ->
     getById JSON_parse sha256 aes_ctr gcm_tag i (this, w) = (Ok None, (this, w)))
  /\ (forall storageKey password (w : world Sensitive Public) (i : jsstring),
        getById JSON_parse sha256 aes_ctr gcm_tag i (new storageKey password, w)
        = (Ok None, (new storageKey password, w)))
  /\ ((forall d, JSON_parse (JSON_stringify d) = Some d) ->
      (forall d, isWellFormed (JSON_stringify d) = true) ->
      (forall d, head (JSON_stringify d) <> Some 0xFEFF%N) ->
      forall storageKey password (w : world Sensitive Public)
             (item previous : ISecureStorageItem Sensitive Public),
        let stored := StorageRepository.getAll storageKey (localStorage w) in
        NoDup (map id stored) ->
        within_quota (upsert id item stored) = true ->
        previous ∈ stored ->
        id previous <> id item ->
        exists s',
          save JSON_stringify JSON_parse sha256 aes_ctr gcm_tag within_quota
            item (new storageKey password, w) = (Ok item, s')
          /\ getById JSON_parse sha256 aes_ctr gcm_tag (id previous) s'
             = (Ok (Some previous), s')).
Proof.
  split; [|split].
  - intros this w i Hnone. by apply getById_not_in_memory.
  - intros storageKey password w i. apply getById_not_in_memory.
    cbn [fst new encryptedItems]. apply lookup_empty.
  - intros H1 H2 H3 storageKey password w item previous stored Hnd Hq Hp Hne.
    by apply (save_reveals_previous _ _ JSON_stringify JSON_parse sha256
                aes_ctr gcm_tag within_quota H1 H2 H3).
Qed.

Lemma getById_requires_memory_entry_witness :
  let w : world bool jsstring :=
    {| localStorage := {[ lit "otp-configs" := Parsed [flagged] ]};
       rng := counting |} in
  let this := new (Public := jsstring) (lit "otp-configs") (lit "correcthorse1") in
  flagged ∈ StorageRepository.getAll (lit "otp-configs") (localStorage w)
  /\ encryptedItems this !! lit "1" = None
  /\ forall sha256 aes_ctr gcm_tag,
       getById bool_of_JSON sha256 aes_ctr gcm_tag (lit "1") (this, w)
       = (Ok None, (this, w))
       /\ exists s',
            save JSON_of_bool bool_of_JSON sha256 aes_ctr gcm_tag (fun _ => true)
              unflagged (this, w) = (Ok unflagged, s')
            /\ getById bool_of_JSON sha256 aes_ctr gcm_tag (lit "1") s'
               = (Ok (Some flagged), s').
Proof.
  cbv zeta.
  assert (Hst : StorageRepository.getAll (lit "otp-configs")
                  ({[ lit "otp-configs" := Parsed [flagged] ]}
                   : gmap jsstring (stored (ISecureStorageItem bool jsstring)))
                = [flagged]).
  { unfold StorageRepository.getAll. by rewrite lookup_singleton_eq. }
  split; [cbn [localStorage]; rewrite Hst; by left|].
  split; [apply lookup_empty|].
  intros sha256 aes_ctr gcm_tag.
  destruct (getById_requires_memory_entry (Public := jsstring) JSON_of_bool
              bool_of_JSON sha256 aes_ctr gcm_tag (fun _ => true))
    as (_ & Hnew & Hsave).
  split; [apply Hnew|].
  destruct JSON_of_bool_round_trip as (H1 & H2 & H3).
  apply (Hsave H1 H2 H3 (lit "otp-configs") (lit "correcthorse1")
           {| localStorage := {[ lit "otp-configs" := Parsed [flagged] ]};
              rng := counting |} unflagged flagged).
  - cbn [localStorage]. rewrite Hst. apply NoDup_singleton.
  - reflexivity.
  - cbn [localStorage]. rewrite Hst. by left.
  - discriminate.
Defined.

(** C10 as the specification states it fails, whatever hash and cipher
    the platform uses: a new instance over a storage that holds the record
    with id 1 saves an item with id 2, and [getById] with id 1 then returns
    the record of the previous instance. *)
Lemma getById_returns_a_previous_record :
  ~ exists sha256 aes_ctr gcm_tag,
      spec_previous_record_never_returned (Public := jsstring)
        JSON_of_bool bool_of_JSON sha256 aes_ctr gcm_tag (fun _ => true).
Proof.
  intros (sha256 & aes_ctr & gcm_tag & Hspec).
  destruct JSON_of_bool_round_trip as (H1 & H2 & H3).
  assert (Hst : StorageRepository.getAll (lit "otp-configs")
                  ({[ lit "otp-configs" := Parsed [flagged] ]}
                   : gmap jsstring (stored (ISecureStorageItem bool jsstring)))
                = [flagged]).
  { unfold StorageRepository.getAll. by rewrite lookup_singleton_eq. }
  pose proof (Hspec (lit "otp-configs") (lit "correcthorse1")
                {| localStorage := {[ lit "otp-configs" := Parsed [flagged] ]};
                   rng := counting |} unflagged flagged) as Hnull.
  destruct (save_reveals_previous _ _ JSON_of_bool bool_of_JSON sha256 aes_ctr
              gcm_tag (fun _ => true) H1 H2 H3 unflagged flagged
              (lit "otp-configs") (lit "correcthorse1")
              {| localStorage := {[ lit "otp-configs" := Parsed [flagged] ]};
                 rng := counting |})
    as (s' & Hs & Hby).
  - cbn [localStorage]. rewrite Hst. apply NoDup_singleton.
  - reflexivity.
  - cbn [localStorage]. rewrite Hst. by left.
  - discriminate.
  - rewrite Hs in Hnull. cbn [snd] in Hnull. rewrite Hby in Hnull.
    cbn [fst] in Hnull.
    assert (H : @Ok exn _ (Some flagged) = Ok None); [|discriminate].
    apply Hnull; [cbn [localStorage]; rewrite Hst; by left|discriminate].
Qed.

End SecureStorageProps.
(** ** EncryptionService: the buffer conversions, the options, bad input *)

Module EncryptionOptionsProps.
Import UTF8 Base64 WebCrypto EncryptionService.
Import UTF8Props Base64Props EncryptionServiceProps.
Local Open Scope N_scope.

(** *** The length of a base64 text *)

Lemma sextets_length_3 a b c r :
  length (sextets (a :: b :: c :: r)) = (4 + length (sextets r))%nat.
Proof. reflexivity. Qed.

Lemma padded_length n : ((4 + n) + (4 - (4 + n) mod 4) mod 4 = 4 + (n + (4 - n mod 4) mod 4))%nat.
Proof.
  replace ((4 + n) mod 4)%nat with (n mod 4)%nat.
  - lia.
  - replace (4 + n)%nat with (n + 1 * 4)%nat by lia.
    by rewrite Nat.Div0.mod_add.
Qed.

Lemma encode_length_sextets bs :
  length (encode bs)
  = (length (sextets bs) + (4 - length (sextets bs) mod 4) mod 4)%nat.
Proof. unfold encode. by rewrite length_app, repeat_length, length_map. Qed.

Lemma third_step n : ((3 + n + 2) / 3 = 1 + (n + 2) / 3)%nat.
Proof.
  replace (3 + n + 2)%nat with (n + 2 + 1 * 3)%nat by lia.
  rewrite Nat.div_add by lia. lia.
Qed.

Lemma encode_length bs :
  length (encode bs) = (4 * ((length bs + 2) / 3))%nat.
Proof.
  rewrite encode_length_sextets.
  induction bs as [|a|a b|a b c r IH] using list_ind3.
  - reflexivity.
  - reflexivity.
  - reflexivity.
  - rewrite sextets_length_3, padded_length, IH.
    change (length (a :: b :: c :: r)) with (3 + length r)%nat.
    rewrite third_step. lia.
Qed.

(** *** [atob] on a text that is not base64 *)

Lemma strip_padding_keeps d u :
  u ∈ d -> u <> 61 -> u ∈ strip_padding d.
Proof.
  intros Hu Hne. unfold strip_padding.
  destruct (length d mod 4 =? 0)%nat; [|done].
  destruct (rev d) as [|x [|y r]] eqn:Hr.
  - done.
  - destruct (N.eqb_spec x 61) as [->|_]; [|done].
    apply (f_equal (@rev N)) in Hr. rewrite rev_involutive in Hr. subst d.
    apply list_elem_of_singleton in Hu. done.
  - apply (f_equal (@rev N)) in Hr. rewrite rev_involutive in Hr.
    cbn [rev] in Hr. subst d.
    rewrite <- app_assoc in Hu. cbn [app] in Hu.
    rewrite elem_of_app in Hu.
    destruct (N.eqb_spec x 61) as [->|Hx]; destruct (N.eqb_spec y 61) as [->|Hy];
      cbn [andb].
    + destruct Hu as [Hu|Hu]; [done|].
      rewrite !elem_of_cons in Hu. destruct Hu as [Hu|[Hu|Hu]]; try done.
      by apply not_elem_of_nil in Hu.
    + cbn [rev]. rewrite elem_of_app.
      destruct Hu as [Hu|Hu]; [by left|].
      rewrite !elem_of_cons in Hu. destruct Hu as [Hu|[Hu|Hu]].
      * right. subst. by left.
      * done.
      * by apply not_elem_of_nil in Hu.
    + rewrite <- app_assoc. cbn [app]. rewrite elem_of_app. done.
    + rewrite <- app_assoc. cbn [app]. rewrite elem_of_app. done.
Qed.

Lemma mapM_b64_value_None d u :
  u ∈ d -> b64_value u = None -> mapM b64_value d = None.
Proof.
  intros Hu Hv. induction d as [|c d IH]; [by apply not_elem_of_nil in Hu|].
  cbn [mapM]. apply elem_of_cons in Hu as [<-|Hu].
  - by rewrite Hv.
  - rewrite (IH Hu). by destruct (b64_value c).
Qed.

Lemma atob_not_base64 s u :
  u ∈ s -> is_ascii_whitespace u = false -> u <> 61 -> b64_value u = None ->
  atob s = None.
Proof.
  intros Hu Hws Hne Hv. unfold atob.
  assert (Hd : u ∈ strip_padding (filter (fun u => negb (is_ascii_whitespace u)) s)).
  { apply strip_padding_keeps; [|done]. apply list_elem_of_filter.
    split; [by rewrite Hws|done]. }
  destruct (_ =? 1)%nat; [done|].
  by rewrite (mapM_b64_value_None _ u Hd Hv).
Qed.

Section Service.
Variable sha256 : bytes -> bytes.
Variable aes_ctr : bytes -> bytes -> nat -> N.
Variable gcm_tag : bytes -> bytes -> bytes -> bytes.

Local Abbreviation encrypt := (encrypt sha256 aes_ctr gcm_tag).
Local Abbreviation decrypt := (decrypt sha256 aes_ctr gcm_tag).
Local Opaque pbkdf2.

Lemma deriveKey_nonzero password salt n :
  n <> 0 -> n < 2 ^ 32 ->
  deriveKey sha256 password salt n
  = Some (take 32 (pbkdf2 sha256 (TextEncoder_encode password) salt n)).
Proof.
  intros Hn Hlt. unfold deriveKey, subtle_deriveKey.
  apply N.eqb_neq in Hn. apply N.leb_gt in Hlt. by rewrite Hn, Hlt.
Qed.

Lemma sealed_bytes key iv data :
  Forall (fun b => b < 256)
    (ctr_xor aes_ctr key iv data
     ++ tag16 gcm_tag key iv (ctr_xor aes_ctr key iv data)).
Proof. apply Forall_app. split; [apply ctr_xor_bytes|apply tag16_bytes]. Qed.

(** [encrypt] with a salt and an IV of the caller, under the iteration
    count [n] that it passes on to [deriveKey]. *)
Lemma encrypt_with data password salt_bytes iv_bytes iterations n g :
  iv_bytes <> [] -> n <> 0 -> n < 2 ^ 32 ->
  n = match iterations with
      | Some m => if m =? 0 then DEFAULT_ITERATIONS else m
      | None => DEFAULT_ITERATIONS
      end ->
  let key := take 32 (pbkdf2 sha256 (TextEncoder_encode password) salt_bytes n) in
  let c := ctr_xor aes_ctr key iv_bytes (TextEncoder_encode data) in
  encrypt data password
    {| opt_salt := Some salt_bytes; opt_iv := Some iv_bytes;
       opt_iterations := iterations |} g
  = (Ok {| encryptedData := encode (map u8 (c ++ tag16 gcm_tag key iv_bytes c));
           salt := encode (map u8 salt_bytes);
           iv := encode (map u8 iv_bytes) |}, g).
Proof.
  intros Hiv Hn Hlt Hit key c. unfold EncryptionService.encrypt.
  cbn [opt_salt opt_iv opt_iterations]. rewrite <- Hit.
  rewrite deriveKey_nonzero by done. rewrite bind_Some. fold key.
  unfold subtle_encrypt. destruct iv_bytes as [|b iv']; [done|].
  rewrite bind_Some. fold c.
  by rewrite !arrayBufferToBase64_total, !bind_Some.
Qed.

Lemma decrypt_with data password salt_bytes iv_bytes n :
  Forall (fun b => b < 256) salt_bytes ->
  Forall (fun b => b < 256) iv_bytes ->
  iv_bytes <> [] -> n <> 0 -> n < 2 ^ 32 ->
  isWellFormed data = true -> head data <> Some 0xFEFF ->
  let key := take 32 (pbkdf2 sha256 (TextEncoder_encode password) salt_bytes n) in
  let c := ctr_xor aes_ctr key iv_bytes (TextEncoder_encode data) in
  decrypt (encode (map u8 (c ++ tag16 gcm_tag key iv_bytes c))) password
    (encode (map u8 salt_bytes)) (encode (map u8 iv_bytes)) n
  = Ok data.
Proof.
  intros Hs Hv Hiv Hn Hlt Hwf Hbom key c. unfold EncryptionService.decrypt.
  rewrite !base64ToArrayBuffer_arrayBufferToBase64
    by first [done | apply sealed_bytes].
  rewrite !bind_Some. rewrite deriveKey_nonzero by done.
  rewrite bind_Some. fold key.
  rewrite subtle_decrypt_sealed by done.
  rewrite bool_decide_true by done. rewrite bind_Some.
  unfold c. rewrite ctr_xor_involutive by by apply TextEncoder_encode_bytes.
  by rewrite TextDecoder_TextEncoder.
Qed.

Lemma decrypt_zero_iterations encryptedData password salt iv :
  decrypt encryptedData password salt iv 0 = Throw Failed_to_decrypt_data.
Proof.
  unfold EncryptionService.decrypt.
  destruct (base64ToArrayBuffer encryptedData); [|done].
  destruct (base64ToArrayBuffer salt); [|done].
  destruct (base64ToArrayBuffer iv); done.
Qed.

Lemma decrypt_bad_text encryptedData password salt iv iterations :
  base64ToArrayBuffer encryptedData = None
  \/ base64ToArrayBuffer salt = None
  \/ base64ToArrayBuffer iv = None ->
  decrypt encryptedData password salt iv iterations = Throw Failed_to_decrypt_data.
Proof.
  unfold EncryptionService.decrypt. intros [->|[H|H]]; [done| |].
  - destruct (base64ToArrayBuffer encryptedData); [|done].
    by rewrite bind_Some, H.
  - destruct (base64ToArrayBuffer encryptedData); [|done].
    destruct (base64ToArrayBuffer salt); [|done].
    by rewrite !bind_Some, H.
Qed.

Lemma decrypt_short encryptedData password salt iv iterations c :
  base64ToArrayBuffer encryptedData = Some c -> (length c < 16)%nat ->
  decrypt encryptedData password salt iv iterations = Throw Failed_to_decrypt_data.
Proof.
  intros Hc Hlen. unfold EncryptionService.decrypt. rewrite Hc, bind_Some.
  destruct (base64ToArrayBuffer salt) as [sb|]; [|done]. rewrite bind_Some.
  destruct (base64ToArrayBuffer iv) as [ib|]; [|done]. rewrite bind_Some.
  destruct (deriveKey sha256 password sb iterations) as [key|]; [|done].
  rewrite bind_Some. unfold subtle_decrypt.
  destruct ib; [done|].
  apply Nat.ltb_lt in Hlen. by rewrite Hlen.
Qed.
End Service.

(** X12: [arrayBufferToBase64] never throws, and [base64ToArrayBuffer]
    gives back the bytes of the buffer from its text; the text has four
    characters for every three bytes, rounded up, and two buffers with the
    same text hold the same bytes. *)
Theorem arrayBufferToBase64_round_trip (buffer : bytes) :
  exists text,
    arrayBufferToBase64 buffer = Some text
    /\ base64ToArrayBuffer text = Some (map u8 buffer)
    /\ (Forall (fun b => b < 256) buffer -> base64ToArrayBuffer text = Some buffer)
    /\ length text = (4 * ((length buffer + 2) / 3))%nat
    /\ forall buffer',
         arrayBufferToBase64 buffer' = Some text -> map u8 buffer' = map u8 buffer.
Proof.
  exists (encode (map u8 buffer)).
  split; [apply arrayBufferToBase64_total|].
  split; [unfold base64ToArrayBuffer; apply atob_encode, Forall_map_u8|].
  split; [intros Hb; by apply base64ToArrayBuffer_arrayBufferToBase64|].
  split; [by rewrite encode_length, length_map|].
  intros buffer'. rewrite arrayBufferToBase64_total. intros [= He].
  by apply base64_encode_inj in He; try apply Forall_map_u8.
Qed.

(** X13: with the default options [encrypt] never throws and takes 28
    bytes from the generator: the salt is the text of the first 16, the IV
    the text of the next 12, and the encrypted data is the text of a buffer
    16 bytes longer than the UTF-8 form of the plaintext. *)
Theorem encrypt_default_output_shape
    (sha256 : bytes -> bytes) (aes_ctr : bytes -> bytes -> nat -> N)
    (gcm_tag : bytes -> bytes -> bytes -> bytes)
    (data password : jsstring) (g : random) :
  exists r buffer,
    encrypt sha256 aes_ctr gcm_tag data password no_options g
    = (Ok r, advance (SALT_LENGTH + IV_LENGTH) g)
    /\ base64ToArrayBuffer (salt r) = Some (draw SALT_LENGTH g)
    /\ base64ToArrayBuffer (iv r) = Some (draw IV_LENGTH (advance SALT_LENGTH g))
    /\ base64ToArrayBuffer (encryptedData r) = Some buffer
    /\ length buffer = (length (TextEncoder_encode data) + 16)%nat
    /\ length (salt r) = 24%nat
    /\ length (iv r) = 16%nat.
Proof.
  rewrite encrypt_default. eexists. eexists.
  split; [by rewrite RepositoryProps.advance_advance|].
  cbv beta iota delta [salt iv encryptedData].
  split; [apply base64ToArrayBuffer_arrayBufferToBase64, draw_bytes|].
  split; [apply base64ToArrayBuffer_arrayBufferToBase64, draw_bytes|].
  split; [apply base64ToArrayBuffer_arrayBufferToBase64, sealed_bytes|].
  split.
  - rewrite length_app, (tag16_length aes_ctr gcm_tag). unfold ciphertext_of.
    by rewrite ctr_xor_length.
  - rewrite !encode_length, !length_map. unfold salt_of, iv_of.
    by rewrite !draw_length.
Qed.

(** X14: [encrypt] with a salt and an IV of the caller, and an
    iteration count below 2^32 if one is given, takes nothing from the
    generator and returns their texts; for a well-formed plaintext that
    does not begin with U+FEFF, [decrypt] with the same password and the
    iteration count of the options returns the plaintext.  A count that is
    missing or 0 stands for 100000 in [encrypt]. *)
Theorem encrypt_with_options_round_trip
    (sha256 : bytes -> bytes) (aes_ctr : bytes -> bytes -> nat -> N)
    (gcm_tag : bytes -> bytes -> bytes -> bytes)
    (data password : jsstring) (salt_bytes iv_bytes : bytes)
    (iterations : option N) (g : random) :
  Forall (fun b => b < 256) salt_bytes ->
  Forall (fun b => b < 256) iv_bytes ->
  iv_bytes <> [] ->
  (forall n, iterations = Some n -> n < 2 ^ 32) ->
  isWellFormed data = true ->
  head data <> Some 0xFEFF ->
  exists r,
    encrypt sha256 aes_ctr gcm_tag data password
      {| opt_salt := Some salt_bytes; opt_iv := Some iv_bytes;
         opt_iterations := iterations |} g
    = (Ok r, g)
    /\ base64ToArrayBuffer (salt r) = Some salt_bytes
    /\ base64ToArrayBuffer (iv r) = Some iv_bytes
    /\ (forall n, iterations = Some n -> n <> 0 ->
          decrypt sha256 aes_ctr gcm_tag (encryptedData r) password (salt r) (iv r) n
          = Ok data)
    /\ (iterations = None \/ iterations = Some 0 ->
          decrypt sha256 aes_ctr gcm_tag (encryptedData r) password (salt r) (iv r)
            DEFAULT_ITERATIONS
          = Ok data).
Proof.
  intros Hs Hv Hiv Hrange Hwf Hbom.
  set (n := match iterations with
            | Some m => if m =? 0 then DEFAULT_ITERATIONS else m
            | None => DEFAULT_ITERATIONS
            end).
  assert (Hn : n <> 0).
  { unfold n. destruct iterations as [m|]; [|done].
    destruct (N.eqb_spec m 0); done. }
  assert (Hlt : n < 2 ^ 32).
  { unfold n. destruct iterations as [m|]; [|done].
    destruct (N.eqb_spec m 0); [done|by apply Hrange]. }
  eexists. split; [by apply (encrypt_with _ _ _ _ _ _ _ _ n)|].
  cbv beta iota delta [salt iv encryptedData].
  split; [by apply base64ToArrayBuffer_arrayBufferToBase64|].
  split; [by apply base64ToArrayBuffer_arrayBufferToBase64|].
  split.
  - intros m Hm Hm0. assert (n = m) as <-.
    { unfold n. rewrite Hm. apply N.eqb_neq in Hm0. by rewrite Hm0. }
    by apply decrypt_with.
  - intros Hd. assert (n = DEFAULT_ITERATIONS) as Hnd.
    { unfold n. by destruct Hd as [->| ->]. }
    rewrite Hnd. by apply decrypt_with.
Qed.

Lemma encrypt_with_options_round_trip_witness :
  Forall (fun b => b < 256) (repeat 7 16)
  /\ Forall (fun b => b < 256) (repeat 9 12)
  /\ 1000 < 2 ^ 32
  /\ isWellFormed (lit "JBSWY3DPEHPK3PXP") = true
  /\ forall sha256 aes_ctr gcm_tag g,
       exists r,
         encrypt sha256 aes_ctr gcm_tag (lit "JBSWY3DPEHPK3PXP") (lit "correcthorse1")
           {| opt_salt := Some (repeat 7 16); opt_iv := Some (repeat 9 12);
              opt_iterations := Some 1000 |} g
         = (Ok r, g)
         /\ decrypt sha256 aes_ctr gcm_tag (encryptedData r) (lit "correcthorse1")
              (salt r) (iv r) 1000
            = Ok (lit "JBSWY3DPEHPK3PXP").
Proof.
  assert (H7 : Forall (fun b => b < 256) (repeat 7 16)) by (repeat constructor).
  assert (H9 : Forall (fun b => b < 256) (repeat 9 12)) by (repeat constructor).
  split; [exact H7|]. split; [exact H9|]. split; [reflexivity|].
  split; [reflexivity|].
  intros sha256 aes_ctr gcm_tag g.
  destruct (encrypt_with_options_round_trip sha256 aes_ctr gcm_tag
              (lit "JBSWY3DPEHPK3PXP") (lit "correcthorse1")
              (repeat 7 16) (repeat 9 12) (Some 1000) g H7 H9)
    as (r & Hr & _ & _ & Hd & _);
    [discriminate|by intros n [= <-]|reflexivity|discriminate|].
  exists r. split; [exact Hr|]. by apply Hd.
Defined.

(** X15: [decrypt] throws its error, and returns nothing, when one of the
    three texts has a character that is neither of the base64 alphabet nor
    white space nor [=], when the encrypted data holds fewer than the 16
    bytes of a tag, and, whatever the texts are, when the iteration count
    is 0. *)
Theorem decrypt_rejects_malformed_input
    (sha256 : bytes -> bytes) (aes_ctr : bytes -> bytes -> nat -> N)
    (gcm_tag : bytes -> bytes -> bytes -> bytes)
    (encryptedData password salt iv : jsstring) (iterations : N) :
  let not_base64 (s : jsstring) :=
    exists u, u ∈ s /\ is_ascii_whitespace u = false /\ u <> 61
              /\ b64_value u = None in
  (not_base64 encryptedData \/ not_base64 salt \/ not_base64 iv ->
   decrypt sha256 aes_ctr gcm_tag encryptedData password salt iv iterations
   = Throw Failed_to_decrypt_data)
  /\ (forall buffer,
        base64ToArrayBuffer encryptedData = Some buffer ->
        (length buffer < 16)%nat ->
        decrypt sha256 aes_ctr gcm_tag encryptedData password salt iv iterations
        = Throw Failed_to_decrypt_data)
  /\ decrypt sha256 aes_ctr gcm_tag encryptedData password salt iv 0
     = Throw Failed_to_decrypt_data.
Proof.
  intros not_base64. split; [|split].
  - intros H. apply decrypt_bad_text. unfold base64ToArrayBuffer.
    destruct H as [H|[H|H]]; destruct H as (u & Hu & Hws & Hne & Hv);
      [left|right; left|right; right]; by apply (atob_not_base64 _ u).
  - intros buffer Hb Hlen. eapply decrypt_short; [exact Hb|exact Hlen].
  - apply decrypt_zero_iterations.
Qed.

End EncryptionOptionsProps.
(** ** OTPService: the count-down, generation and validation together *)

Module OTPCountdownProps.
Import OTPService OTPServiceProps.

Lemma seconds_later (now_ms k : Z) : (now_ms + 1000 * k) / 1000 = now_ms / 1000 + k.
Proof.
  replace (now_ms + 1000 * k) with (now_ms + k * 1000) by lia.
  by rewrite Z.div_add by lia.
Qed.

Lemma same_step (step s k : Z) :
  0 < step -> 0 <= k < step - s mod step -> (s + k) / step = s / step.
Proof.
  intros Hstep Hk. symmetry.
  apply (Z.div_unique_pos (s + k) step (s / step) (s mod step + k)); [lia|].
  pose proof (Z.div_mod s step ltac:(lia)). lia.
Qed.

Lemma next_step (step s : Z) :
  0 < step -> (s + (step - s mod step)) / step = s / step + 1.
Proof.
  intros Hstep. symmetry.
  apply (Z.div_unique_pos _ step (s / step + 1) 0); [lia|].
  pose proof (Z.div_mod s step ltac:(lia)). lia.
Qed.

(** X16: at or after the epoch, for a period > 0, the remaining time is
    the number of seconds to the next change of the time step
    [floor(seconds / period)] that the code is computed from: the step stays
    the same for every smaller number of seconds and is one more after
    that many.  One second later the remaining time is one less, or the
    period again when it was 1, and it repeats with the period. *)
Theorem getRemainingTime_counts_down_to_the_next_step (step now_ms : Z) :
  0 < step -> 0 <= now_ms ->
  let remaining := getRemainingTime step now_ms in
  (forall k, 0 <= k < remaining ->
     (now_ms + 1000 * k) / 1000 / step = now_ms / 1000 / step)
  /\ (now_ms + 1000 * remaining) / 1000 / step = now_ms / 1000 / step + 1
  /\ getRemainingTime step (now_ms + 1000)
     = (if remaining =? 1 then step else remaining - 1)
  /\ getRemainingTime step (now_ms + 1000 * step) = remaining
  /\ (remaining = step <-> (now_ms / 1000) mod step = 0).
Proof.
  intros Hstep Hnow remaining.
  assert (Hr : remaining = step - (now_ms / 1000) mod step)
    by (by apply getRemainingTime_mod).
  split; [|split; [|split; [|split]]].
  - intros k Hk. rewrite seconds_later. apply same_step; lia.
  - rewrite seconds_later, Hr. by apply next_step.
  - by apply getRemainingTime_next_second.
  - rewrite getRemainingTime_mod by lia. rewrite seconds_later, Hr.
    replace (now_ms / 1000 + step) with (now_ms / 1000 + 1 * step) by lia.
    by rewrite Z.mod_add by lia.
  - rewrite Hr. lia.
Qed.

Lemma getRemainingTime_counts_down_to_the_next_step_witness :
  0 < 30 /\ 0 <= 1111111109000
  /\ getRemainingTime 30 1111111109000 = 1
  /\ (1111111109000 + 1000 * 1) / 1000 / 30 = 1111111109000 / 1000 / 30 + 1
  /\ getRemainingTime 30 (1111111109000 + 1000) = 30.
Proof.
  split; [lia|]. split; [lia|]. split; [reflexivity|].
  destruct (getRemainingTime_counts_down_to_the_next_step 30 1111111109000)
    as (_ & H1 & H2 & _); [lia|lia|].
  split; [exact H1|exact H2].
Defined.

Lemma affixes_empty (prefix token postfix : jsstring) :
  prefix ++ token ++ postfix = token <-> prefix = [] /\ postfix = [].
Proof.
  split.
  - intros H. apply (f_equal (@length N)) in H. rewrite !length_app in H.
    destruct prefix, postfix; cbn [length] in H; try lia. done.
  - intros [-> ->]. by rewrite app_nil_r.
Qed.

(** X17: generation and validation together.  When the library accepts
    exactly the token it generates under the same options and clock
    reading, [validateTOTP] accepts a code that [generateTOTP] returned
    under the same options exactly when the prefix and the postfix of the
    options are empty: [validateTOTP] hands the code to the library as it
    is. *)
Theorem validateTOTP_accepts_the_bare_token_only
    (totp_generate : Z -> Z -> HashAlgorithms -> jsstring -> Z -> result exn jsstring)
    (totp_verify :
       Z -> Z -> HashAlgorithms -> jsstring -> jsstring -> Z -> result exn bool)
    (secret : jsstring) (options : OTPOptions) (now_ms : Z) (code : jsstring) :
  (forall digits step algorithm token secret now_ms,
     totp_verify digits step algorithm token secret now_ms = Ok true
     <-> totp_generate digits step algorithm secret now_ms = Ok token) ->
  generateTOTP totp_generate secret options now_ms = Ok code ->
  (validateTOTP totp_verify code secret options now_ms = Ok true
   <-> default [] (prefix options) = [] /\ default [] (postfix options) = []).
Proof.
  intros Hlib. unfold generateTOTP, validateTOTP. cbv zeta.
  rewrite Hlib.
  destruct (totp_generate _ _ _ secret now_ms) as [token|e]; [|done].
  intros [= <-]. rewrite <- affixes_empty. split.
  - intros [= H]. by symmetry.
  - intros H. by rewrite H.
Qed.

Lemma validateTOTP_accepts_the_bare_token_only_witness :
  let generate := spec_totp_generate (fun _ _ _ => []) in
  let verify :=
    fun digits step algorithm token secret now_ms =>
      match generate digits step algorithm secret now_ms with
      | Ok generated => @Ok exn bool (bool_decide (generated = token))
      | Throw e => Throw e
      end in
  let dashed :=
    {| digits := None; step := None; algorithm := None;
       prefix := Some (lit "G-"); postfix := None |} in
  generateTOTP generate (lit "12345678901234567890") dashed 59000
  = Ok (lit "G-000000")
  /\ validateTOTP verify (lit "G-000000") (lit "12345678901234567890") dashed 59000
     <> Ok true
  /\ validateTOTP verify (lit "000000") (lit "12345678901234567890") no_options 59000
     = Ok true.
Proof.
  intros generate verify dashed.
  assert (Hlib : forall digits step algorithm token secret now_ms,
            verify digits step algorithm token secret now_ms = Ok true
            <-> generate digits step algorithm secret now_ms = Ok token).
  { intros d s a token secret now. unfold verify.
    destruct (generate d s a secret now) as [generated|e]; [|done]. split.
    - intros [= H]. apply bool_decide_eq_true in H. by rewrite H.
    - intros [= ->]. by rewrite bool_decide_true. }
  split; [reflexivity|]. split.
  - intros H.
    apply (validateTOTP_accepts_the_bare_token_only generate verify
             (lit "12345678901234567890") dashed 59000 (lit "G-000000") Hlib eq_refl)
      in H.
    by destruct H.
  - reflexivity.
Defined.

End OTPCountdownProps.
(** ** parseOtpAuthUri: what a parse returns, the issuer, the rejections *)

Module OtpAuthParsedProps.
Import UTF8 OtpAuthUri OtpAuthParameters OtpAuthUriProps.

Lemma conforms_empty : conforms ∅.
Proof. intros key v H. by rewrite lookup_empty in H. Qed.

Lemma conforms_insert_string key s params :
  key <> lit "digits" -> key <> lit "period" -> key <> lit "counter" ->
  conforms params -> conforms (<[key := VString s]> params).
Proof.
  intros H1 H2 H3 Hc k v Hk.
  apply lookup_insert_Some in Hk as [[<- <-]|[_ Hk]]; [done|by apply Hc].
Qed.

Lemma conforms_insert_number key n params :
  (key = lit "digits" /\ 0 < n) \/ (key = lit "period" /\ 0 < n)
  \/ (key = lit "counter" /\ 0 <= n) ->
  conforms params -> conforms (<[key := VNumber n]> params).
Proof.
  intros Hn Hc k v Hk.
  apply lookup_insert_Some in Hk as [[<- <-]|[_ Hk]]; [done|by apply Hc].
Qed.

Lemma conforms_number params key n :
  conforms params -> params !! key = Some (VNumber n) ->
  key = lit "digits" \/ key = lit "period" \/ key = lit "counter".
Proof. intros Hc Hk. destruct (Hc _ _ Hk) as [[? _]|[[? _]|[? _]]]; auto. Qed.

Section Parser.
Variable URL_new : jsstring -> option URL.
Variable unicode_toLowerCase : jsstring -> jsstring.
Variable unicode_toUpperCase : jsstring -> jsstring.

Local Abbreviation toLowerCase := (toLowerCase unicode_toLowerCase).
Local Abbreviation extract := (extract unicode_toLowerCase unicode_toUpperCase).
Local Abbreviation extract_all :=
  (extract_all unicode_toLowerCase unicode_toUpperCase).
Local Abbreviation parseOtpAuthUrl :=
  (parseOtpAuthUrl unicode_toLowerCase unicode_toUpperCase).
Local Abbreviation parseOtpAuthUri :=
  (parseOtpAuthUri URL_new unicode_toLowerCase unicode_toUpperCase).

(** A turn of the loop keeps the properties within their types. *)
Lemma extract_conforms params entry params' :
  conforms params -> extract params entry = Some params' -> conforms params'.
Proof.
  intros Hc. unfold OtpAuthUri.extract.
  destruct (decodeURIComponent (snd entry)) as [d|]; [|done].
  cbn [mbind option_bind]. intros [= <-].
  destruct (bool_decide_reflect (toLowerCase (fst entry) = lit "secret")) as [_|H1];
    [by apply conforms_insert_string|].
  destruct (bool_decide_reflect (toLowerCase (fst entry) = lit "issuer")) as [_|H2];
    [by apply conforms_insert_string|].
  destruct (bool_decide_reflect (toLowerCase (fst entry) = lit "algorithm")) as [_|H3].
  { destruct (_ || _); by apply conforms_insert_string. }
  destruct (bool_decide_reflect (toLowerCase (fst entry) = lit "digits")) as [_|H4].
  { destruct (parseInt d) as [n|]; [|done].
    destruct ((n =? 6) || (n =? 8)) eqn:H68.
    - apply conforms_insert_number; [|done]. left. split; [done|].
      by apply orb_true_iff in H68 as [->%Z.eqb_eq| ->%Z.eqb_eq].
    - destruct (0 <? n) eqn:Hpos; [|done].
      apply conforms_insert_number; [|done]. left. split; [done|].
      by apply Z.ltb_lt. }
  destruct (bool_decide_reflect (toLowerCase (fst entry) = lit "period")) as [_|H5].
  { destruct (parseInt d) as [n|]; [|done].
    destruct (0 <? n) eqn:Hpos; [|done].
    apply conforms_insert_number; [|done]. right. left. split; [done|].
    by apply Z.ltb_lt. }
  destruct (bool_decide_reflect (toLowerCase (fst entry) = lit "counter")) as [_|H6].
  { destruct (parseInt d) as [n|]; [|done].
    destruct (0 <=? n) eqn:Hpos; [|done].
    apply conforms_insert_number; [|done]. right. right. split; [done|].
    by apply Z.leb_le. }
  unfold set_property. destruct (bool_decide _); [done|].
  by apply conforms_insert_string.
Qed.

Lemma extract_all_conforms params entries params' :
  conforms params -> extract_all params entries = Some params' ->
  conforms params'.
Proof.
  revert params. induction entries as [|e entries IH]; intros params Hc H.
  - by injection H as <-.
  - cbn [OtpAuthUri.extract_all] in H.
    destruct (extract params e) as [p1|] eqn:He; [|done].
    cbn [mbind option_bind] in H.
    apply (IH p1); [|done]. by apply (extract_conforms params e).
Qed.

(** A parameter [issuer], in any letter case, sets the property. *)
Lemma extract_issuer params key v :
  toLowerCase key = lit "issuer" ->
  extract params (key, v)
  = d ← decodeURIComponent v; Some (<[lit "issuer" := VString d]> params).
Proof.
  intros H. unfold OtpAuthUri.extract. cbn [fst snd]. rewrite H.
  change (bool_decide (lit "issuer" = lit "secret")) with false.
  by rewrite bool_decide_true by done.
Qed.

Lemma extract_secret params key v :
  toLowerCase key = lit "secret" ->
  extract params (key, v)
  = d ← decodeURIComponent v; Some (<[lit "secret" := VString d]> params).
Proof.
  intros H. unfold OtpAuthUri.extract. cbn [fst snd]. rewrite H.
  by rewrite bool_decide_true by done.
Qed.

(** Steps 5 and 6. *)
Lemma finish_checks ty labelIssuer labelAccount params r :
  finish ty labelIssuer labelAccount params = Some r ->
  (exists c s, params !! lit "secret" = Some (VString (c :: s)))
  /\ (ty = hotp -> exists n, params !! lit "counter" = Some (VNumber n))
  /\ parameters r !! lit "issuer"
     = match params !! lit "issuer" with
       | Some v => Some v
       | None =>
           match labelIssuer with
           | Some (c :: s) => Some (VString (c :: s))
           | _ => None
           end
       end.
Proof.
  unfold finish.
  destruct (params !! lit "secret") as [[[|c s]|]|] eqn:Hs; try done.
  destruct ty.
  - intros [= <-]. cbn [parameters].
    split; [by exists c, s|]. split; [done|].
    destruct (params !! lit "issuer") as [[[|c0 s0]|n0]|] eqn:Hi;
      rewrite ?Hi; try done.
    + by destruct labelIssuer as [[|c1 s1]|]; rewrite Hi.
    + by destruct labelIssuer as [[|c1 s1]|]; rewrite Hi.
    + destruct labelIssuer as [[|c1 s1]|]; rewrite ?Hi; try done.
      by rewrite lookup_insert_eq.
  - destruct (params !! lit "counter") as [[s1|n]|] eqn:Hn; try done.
    intros [= <-]. cbn [parameters].
    split; [by exists c, s|]. split; [by exists n|].
    destruct (params !! lit "issuer") as [[[|c0 s0]|n0]|] eqn:Hi;
      rewrite ?Hi; try done.
    + by destruct labelIssuer as [[|c1 s1]|]; rewrite Hi.
    + by destruct labelIssuer as [[|c1 s1]|]; rewrite Hi.
    + destruct labelIssuer as [[|c1 s1]|]; rewrite ?Hi; try done.
      by rewrite lookup_insert_eq.
Qed.

Lemma finish_conforms ty labelIssuer labelAccount params r :
  conforms params -> finish ty labelIssuer labelAccount params = Some r ->
  conforms (parameters r).
Proof.
  intros Hc. unfold finish.
  destruct (params !! lit "secret") as [[[|c s]|]|]; try done.
  destruct (match ty with totp => _ | hotp => _ end); [|done].
  intros [= <-]. cbn [parameters].
  destruct (match params !! lit "issuer" with
            | Some (VString (c0 :: s0)) => _ | _ => _ end) as [[|c0 s0]|];
    try done.
  destruct (params !! lit "issuer"); [done|].
  by apply conforms_insert_string.
Qed.

(** A successful parse of the URL object, step by step. *)
Lemma parseOtpAuthUrl_steps url r :
  parseOtpAuthUrl url = Some r ->
  toLowerCase (hostname url) = type_name (type r)
  /\ account (label r) <> []
  /\ exists params,
       extract_all ∅ (searchParams url) = Some params
       /\ finish (type r) (issuer (label r)) (account (label r)) params = Some r.
Proof.
  unfold OtpAuthUri.parseOtpAuthUrl. cbv zeta.
  assert (Hty : forall ty,
            (if bool_decide (toLowerCase (hostname url) = lit "totp") then Some totp
             else if bool_decide (toLowerCase (hostname url) = lit "hotp")
                  then Some hotp else None) = Some ty ->
            toLowerCase (hostname url) = type_name ty).
  { intros ty.
    destruct (bool_decide_reflect (toLowerCase (hostname url) = lit "totp")) as [H|_];
      [by intros [= <-]|].
    destruct (bool_decide_reflect (toLowerCase (hostname url) = lit "hotp")) as [H|_];
      [by intros [= <-]|done]. }
  destruct (if bool_decide (toLowerCase (hostname url) = lit "totp") then _ else _)
    as [ty|]; [|done].
  specialize (Hty ty eq_refl). cbn [mbind option_bind].
  destruct (if startsWith (pathname url) (lit "/") then _ else _) as [|c path];
    [done|].
  destruct (decodeURIComponent (c :: path)) as [d|]; [|done].
  cbn [mbind option_bind].
  destruct (parseLabel d) as [[li la]|]; [|done]. cbn [mbind option_bind].
  destruct la as [|c' la]; [done|].
  destruct (extract_all ∅ (searchParams url)) as [params|] eqn:Hp; [|done].
  cbn [mbind option_bind]. intros Hf.
  destruct (finish_Some _ _ _ _ _ Hf) as (Ht & Hl & _).
  rewrite Ht, Hl. cbn [issuer account]. split; [done|]. split; [done|].
  by exists params.
Qed.

Lemma parseOtpAuthUri_URL uri r :
  parseOtpAuthUri uri = Some r ->
  startsWith uri (lit "otpauth://") = true
  /\ exists url, URL_new uri = Some url /\ parseOtpAuthUrl url = Some r.
Proof.
  unfold OtpAuthUri.parseOtpAuthUri.
  destruct (startsWith uri (lit "otpauth://")); [|done]. cbn [negb].
  destruct (URL_new uri) as [url|]; [|done]. cbn [mbind option_bind].
  intros H. split; [done|]. by exists url.
Qed.

(** The secret of a successful parse. *)
Lemma parsed_secret uri r :
  parseOtpAuthUri uri = Some r ->
  exists c s, parameters r !! lit "secret" = Some (VString (c :: s)).
Proof.
  intros (_ & url & _ & Hp)%parseOtpAuthUri_URL.
  apply parseOtpAuthUrl_steps in Hp as (_ & _ & params & _ & Hf).
  destruct (finish_checks _ _ _ _ _ Hf) as ((c & s & Hs) & _ & _).
  apply finish_Some in Hf as (_ & _ & Hk).
  exists c, s. by rewrite Hk.
Qed.

Lemma parsed_account uri r :
  parseOtpAuthUri uri = Some r -> account (label r) <> [].
Proof.
  intros (_ & url & _ & Hp)%parseOtpAuthUri_URL.
  by apply parseOtpAuthUrl_steps in Hp as (_ & Ha & _).
Qed.
End Parser.

(** X18: what a successful parse returns.  The URI starts with
    [otpauth://], the type is the lower-cased host name, the account is not
    empty, the secret is a string that is not empty, a [hotp] result has a
    counter that is a number, at least 0, and the parameters have their
    declared types: only [digits] and [period], both above 0, and
    [counter], at least 0, are numbers, and they are never strings. *)
Theorem parsed_uri_has_the_declared_form
    (URL_new : jsstring -> option URL)
    (unicode_toLowerCase unicode_toUpperCase : jsstring -> jsstring)
    (uri : jsstring) (r : OtpAuthData) :
  parseOtpAuthUri URL_new unicode_toLowerCase unicode_toUpperCase uri = Some r ->
  startsWith uri (lit "otpauth://") = true
  /\ (exists url,
        URL_new uri = Some url
        /\ toLowerCase unicode_toLowerCase (hostname url) = type_name (type r))
  /\ account (label r) <> []
  /\ (exists secret,
        parameters r !! lit "secret" = Some (VString secret) /\ secret <> [])
  /\ (type r = hotp ->
      exists counter,
        parameters r !! lit "counter" = Some (VNumber counter) /\ 0 <= counter)
  /\ conforms (parameters r).
Proof.
  intros Hp. pose proof (parsed_secret _ _ _ _ _ Hp) as (c & s & Hsec).
  apply parseOtpAuthUri_URL in Hp as (Hstart & url & Hu & Hp).
  apply parseOtpAuthUrl_steps in Hp as (Hty & Ha & params & He & Hf).
  assert (Hc : conforms (parameters r)).
  { pose proof (extract_all_conforms _ _ _ _ _ conforms_empty He) as Hc.
    exact (finish_conforms _ _ _ _ _ Hc Hf). }
  split; [done|]. split; [by exists url|]. split; [done|].
  split; [by exists (c :: s)|]. split; [|done].
  intros Hhotp. destruct (finish_checks _ _ _ _ _ Hf) as (_ & Hn & _).
  destruct (Hn Hhotp) as [n Hcn].
  apply finish_Some in Hf as (_ & _ & Hk).
  rewrite <- Hk in Hcn by done. exists n. split; [done|].
  destruct (Hc _ _ Hcn) as [[H _]|[[H _]|[_ H]]]; done.
Qed.

Lemma parsed_uri_has_the_declared_form_witness :
  exists r,
    parseOtpAuthUri sample_URL (fun s => s) (fun s => s) uri_plain = Some r
    /\ type r = totp
    /\ account (label r) = lit "alice"
    /\ parameters r !! lit "secret" = Some (VString (lit "JBSWY3DPEHPK3PXP"))
    /\ conforms (parameters r).
Proof.
  destruct (parseOtpAuthUri sample_URL (fun s => s) (fun s => s) uri_plain)
    as [r|] eqn:Hp; [|by vm_compute in Hp].
  pose proof Hp as Hr. vm_compute in Hr. injection Hr as <-.
  eexists. split; [reflexivity|].
  split; [reflexivity|]. split; [reflexivity|]. split; [reflexivity|].
  apply (parsed_uri_has_the_declared_form sample_URL (fun s => s) (fun s => s)
           uri_plain _ Hp).
Defined.

(** X19: the issuer.  In a successful parse, the last parameter whose
    lower-cased key is [issuer] sets [parameters.issuer] to its decoded
    value, also when that value is empty and the label names an issuer;
    without such a parameter [parameters.issuer] is the issuer of the label
    when that is not empty, and stays unset otherwise.  The issuer of the
    label itself is returned as it was parsed. *)
Theorem issuer_parameter_takes_precedence
    (URL_new : jsstring -> option URL)
    (unicode_toLowerCase unicode_toUpperCase : jsstring -> jsstring)
    (uri : jsstring) (url : URL) (r : OtpAuthData) :
  URL_new uri = Some url ->
  parseOtpAuthUri URL_new unicode_toLowerCase unicode_toUpperCase uri = Some r ->
  (forall before key v after,
     searchParams url = before ++ (key, v) :: after ->
     toLowerCase unicode_toLowerCase key = lit "issuer" ->
     (forall e, e ∈ after -> toLowerCase unicode_toLowerCase (fst e) <> lit "issuer") ->
     exists d,
       decodeURIComponent v = Some d
       /\ parameters r !! lit "issuer" = Some (VString d))
  /\ ((forall e, e ∈ searchParams url ->
         toLowerCase unicode_toLowerCase (fst e) <> lit "issuer") ->
      parameters r !! lit "issuer"
      = match issuer (label r) with
        | Some (c :: s) => Some (VString (c :: s))
        | _ => None
        end).
Proof.
  intros Hu Hp. apply (parseOtpAuthUri_Some _ _ _ _ _ _ Hu) in Hp.
  apply parseOtpAuthUrl_steps in Hp as (_ & _ & params & He & Hf).
  destruct (finish_checks _ _ _ _ _ Hf) as (_ & _ & Hi).
  split.
  - intros before key v after Hs Hk Hlast.
    rewrite Hs, extract_all_app in He.
    destruct (extract_all _ _ ∅ before) as [p1|]; [|done].
    cbn [mbind option_bind OtpAuthUri.extract_all] in He.
    rewrite extract_issuer in He by done.
    destruct (decodeURIComponent v) as [d|]; [|done].
    cbn [mbind option_bind] in He. exists d. split; [done|].
    rewrite Hi, (extract_all_other _ _ _ _ _ _ He Hlast).
    by rewrite lookup_insert_eq.
  - intros Hnone. rewrite Hi, (extract_all_other _ _ _ _ _ _ He Hnone).
    by rewrite lookup_empty.
Qed.

Lemma issuer_parameter_takes_precedence_witness :
  sample_URL uri_plain = Some url_plain
  /\ exists r,
       parseOtpAuthUri sample_URL (fun s => s) (fun s => s) uri_plain = Some r
       /\ issuer (label r) = Some (lit "Example")
       /\ parameters r !! lit "issuer" = Some (VString (lit "Example")).
Proof.
  split; [reflexivity|].
  destruct (parseOtpAuthUri sample_URL (fun s => s) (fun s => s) uri_plain)
    as [r|] eqn:Hp; [|by vm_compute in Hp].
  pose proof Hp as Hr. vm_compute in Hr. injection Hr as <-.
  eexists. split; [reflexivity|]. split; [reflexivity|].
  destruct (issuer_parameter_takes_precedence sample_URL (fun s => s) (fun s => s)
              uri_plain url_plain _ eq_refl Hp) as [_ H].
  rewrite H; [reflexivity|].
  intros e He. cbn [searchParams url_plain] in He.
  rewrite !elem_of_cons in He. destruct He as [->|[->|He]].
  - by vm_compute.
  - by vm_compute.
  - by apply not_elem_of_nil in He.
Defined.

(** X20: a URI is rejected with [null] when no query parameter has the
    lower-cased key [secret], when the last such parameter is empty, and,
    for the type [hotp], when no query parameter has the lower-cased key
    [counter]. *)
Theorem uri_without_secret_or_counter_is_rejected
    (URL_new : jsstring -> option URL)
    (unicode_toLowerCase unicode_toUpperCase : jsstring -> jsstring)
    (uri : jsstring) (url : URL) :
  URL_new uri = Some url ->
  ((forall e, e ∈ searchParams url ->
      toLowerCase unicode_toLowerCase (fst e) <> lit "secret") ->
   parseOtpAuthUri URL_new unicode_toLowerCase unicode_toUpperCase uri = None)
  /\ (forall before key after,
        searchParams url = before ++ (key, []) :: after ->
        toLowerCase unicode_toLowerCase key = lit "secret" ->
        (forall e, e ∈ after ->
           toLowerCase unicode_toLowerCase (fst e) <> lit "secret") ->
        parseOtpAuthUri URL_new unicode_toLowerCase unicode_toUpperCase uri = None)
  /\ (toLowerCase unicode_toLowerCase (hostname url) = lit "hotp" ->
      (forall e, e ∈ searchParams url ->
         toLowerCase unicode_toLowerCase (fst e) <> lit "counter") ->
      parseOtpAuthUri URL_new unicode_toLowerCase unicode_toUpperCase uri = None).
Proof.
  intros Hu.
  assert (Hsteps : forall r,
            parseOtpAuthUri URL_new unicode_toLowerCase unicode_toUpperCase uri
            = Some r ->
            toLowerCase unicode_toLowerCase (hostname url) = type_name (type r)
            /\ exists params,
                 extract_all unicode_toLowerCase unicode_toUpperCase ∅
                   (searchParams url) = Some params
                 /\ (exists c s, params !! lit "secret" = Some (VString (c :: s)))
                 /\ (type r = hotp ->
                     exists n, params !! lit "counter" = Some (VNumber n))).
  { intros r Hp. apply (parseOtpAuthUri_Some _ _ _ _ _ _ Hu) in Hp.
    apply parseOtpAuthUrl_steps in Hp as (Hty & _ & params & He & Hf).
    destruct (finish_checks _ _ _ _ _ Hf) as (Hs & Hn & _).
    split; [done|]. by exists params. }
  split; [|split].
  - intros Hnone.
    destruct (parseOtpAuthUri _ _ _ uri) as [r|] eqn:Hp; [|done].
    destruct (Hsteps r eq_refl) as (_ & params & He & (c & s & Hs) & _).
    rewrite (extract_all_other _ _ _ _ _ _ He Hnone), lookup_empty in Hs. done.
  - intros before key after Hsp Hk Hlast.
    destruct (parseOtpAuthUri _ _ _ uri) as [r|] eqn:Hp; [|done].
    destruct (Hsteps r eq_refl) as (_ & params & He & (c & s & Hs) & _).
    rewrite Hsp, extract_all_app in He.
    destruct (extract_all _ _ ∅ before) as [p1|]; [|done].
    cbn [mbind option_bind OtpAuthUri.extract_all] in He.
    rewrite extract_secret in He by done.
    cbn [decodeURIComponent mbind option_bind] in He.
    rewrite (extract_all_other _ _ _ _ _ _ He Hlast), lookup_insert_eq in Hs.
    done.
  - intros Hhotp Hnone.
    destruct (parseOtpAuthUri _ _ _ uri) as [r|] eqn:Hp; [|done].
    destruct (Hsteps r eq_refl) as (Hty & params & He & _ & Hn).
    assert (Ht : type r = hotp).
    { rewrite Hhotp in Hty. by destruct (type r). }
    destruct (Hn Ht) as [n Hc].
    rewrite (extract_all_other _ _ _ _ _ _ He Hnone), lookup_empty in Hc. done.
Qed.

Lemma uri_without_secret_or_counter_is_rejected_witness :
  sample_URL_no_secret uri_no_secret = Some url_no_secret
  /\ parseOtpAuthUri sample_URL_no_secret (fun s => s) (fun s => s) uri_no_secret
     = None.
Proof.
  split; [reflexivity|].
  apply (proj1 (uri_without_secret_or_counter_is_rejected sample_URL_no_secret
                  (fun s => s) (fun s => s) uri_no_secret url_no_secret eq_refl)).
  intros e He. cbn [searchParams url_no_secret] in He.
  rewrite elem_of_cons in He. destruct He as [->|He].
  - by vm_compute.
  - by apply not_elem_of_nil in He.
Defined.

End OtpAuthParsedProps.
(** ** app/page.tsx: the handlers of the form *)

Module PageProps.
Import OtpAuthUri Page OtpAuthParsedProps.

Lemma replace_ids (i : jsstring) (newConfig : OTPConfig) (configs : list OTPConfig) :
  id newConfig = i ->
  map id (map (fun config => if bool_decide (id config = i) then newConfig else config)
            configs)
  = map id configs.
Proof.
  intros Hi. rewrite map_map. apply map_ext. intros c.
  by destruct (bool_decide_reflect (id c = i)) as [->|_].
Qed.

Lemma replace_absent (i : jsstring) (newConfig : OTPConfig) (configs : list OTPConfig) :
  Forall (fun c => id c <> i) configs ->
  map (fun config => if bool_decide (id config = i) then newConfig else config) configs
  = configs.
Proof.
  induction 1 as [|c configs Hc _ IH]; [done|].
  cbn [map]. by rewrite bool_decide_false, IH.
Qed.

Lemma replace_same (i : jsstring) (newConfig : OTPConfig) (configs : list OTPConfig) :
  (forall c, c ∈ configs -> id c = i -> c = newConfig) ->
  map (fun config => if bool_decide (id config = i) then newConfig else config) configs
  = configs.
Proof.
  induction configs as [|c configs IH]; intros H; [done|].
  cbn [map]. rewrite IH by (intros c' Hc'; apply H; by right).
  destruct (bool_decide_reflect (id c = i)) as [Hc|_]; [|done].
  f_equal. symmetry. apply H; [by left|done].
Qed.

Lemma replace_elem (i : jsstring) (newConfig c : OTPConfig) (configs : list OTPConfig) :
  id newConfig = i ->
  c ∈ map (fun config => if bool_decide (id config = i) then newConfig else config)
        configs ->
  id c = i -> c = newConfig.
Proof.
  intros Hn Hc Hi. apply list_elem_of_fmap in Hc as (c0 & -> & _).
  destruct (bool_decide_reflect (id c0 = i)) as [_|Hne]; done.
Qed.

Lemma filter_appended (i : jsstring) (newConfig : OTPConfig) (configs : list OTPConfig) :
  id newConfig = i ->
  filter (fun config => id config <> i) (configs ++ [newConfig])
  = filter (fun config => id config <> i) configs.
Proof.
  intros Hi. rewrite filter_app, filter_cons_False by (intros H; by apply H).
  by rewrite filter_nil, app_nil_r.
Qed.

Lemma filter_fresh (i : jsstring) (configs : list OTPConfig) :
  Forall (fun c => id c <> i) configs ->
  filter (fun config => id config <> i) configs = configs.
Proof.
  induction 1 as [|c configs Hc _ IH]; [done|].
  by rewrite filter_cons_True, IH.
Qed.

(** What [handleSaveConfig] does when both fields are filled in. *)
Lemma handleSaveConfig_filled random_id st :
  form_accountName st <> [] -> form_secretKey st <> [] ->
  handleSaveConfig random_id st
  = let selected :=
      match selectedConfigId st with
      | Some (c :: i) => Some (c :: i)
      | _ => None
      end in
    let newConfig :=
      {| id := default random_id selected;
         accountName := form_accountName st;
         secretKey := form_secretKey st;
         prefix := form_prefix st;
         postfix := form_postfix st |} in
    (true,
     {| otpConfigs :=
          match selected with
          | Some i =>
              map (fun config => if bool_decide (id config = i) then newConfig else config)
                (otpConfigs st)
          | None => otpConfigs st ++ [newConfig]
          end;
        isDialogOpen := false;
        form_accountName := form_accountName st;
        form_secretKey := form_secretKey st;
        form_prefix := form_prefix st;
        form_postfix := form_postfix st;
        selectedConfigId := selectedConfigId st |}).
Proof.
  intros Ha Hs. unfold handleSaveConfig.
  destruct (form_accountName st) as [|a an]; [done|].
  by destruct (form_secretKey st) as [|k sk].
Qed.

(** X21: [handleImageUpload] on the text of a QR code.  The dialog is
    opened and the configurations stay.  When the text parses as an otpauth
    URI the two fields hold the account of the label and the secret, and
    [handleSaveConfig] accepts them; with no configuration selected it adds
    a configuration with that account and secret at the end.  When the text
    does not parse, both fields are emptied and [handleSaveConfig] refuses
    them. *)
Theorem handleImageUpload_fills_the_form
    (URL_new : jsstring -> option URL)
    (unicode_toLowerCase unicode_toUpperCase : jsstring -> jsstring)
    (data random_id : jsstring) (st : Home) :
  let parsed :=
    parseOtpAuthUri URL_new unicode_toLowerCase unicode_toUpperCase data in
  let st' :=
    handleImageUpload URL_new unicode_toLowerCase unicode_toUpperCase data st in
  isDialogOpen st' = true
  /\ otpConfigs st' = otpConfigs st
  /\ (forall r,
        parsed = Some r ->
        exists secret,
          parameters r !! lit "secret" = Some (VString secret)
          /\ form_accountName st' = account (label r)
          /\ form_secretKey st' = secret
          /\ fst (handleSaveConfig random_id st') = true
          /\ (selectedConfigId st = None ->
              otpConfigs (snd (handleSaveConfig random_id st'))
              = otpConfigs st
                ++ [{| id := random_id;
                       accountName := account (label r);
                       secretKey := secret;
                       prefix := form_prefix st;
                       postfix := form_postfix st |}]))
  /\ (parsed = None ->
      form_accountName st' = [] /\ form_secretKey st' = []
      /\ handleSaveConfig random_id st' = (false, st')).
Proof.
  intros parsed st'. split; [done|]. split; [done|]. split.
  - intros r Hr.
    destruct (parsed_secret _ _ _ _ _ Hr) as (c & s & Hs).
    pose proof (parsed_account _ _ _ _ _ Hr) as Ha.
    assert (Hacc : form_accountName st' = account (label r)).
    { unfold st', handleImageUpload. cbn [form_accountName]. fold parsed.
      by rewrite Hr. }
    assert (Hsec : form_secretKey st' = c :: s).
    { unfold st', handleImageUpload. cbn [form_secretKey]. fold parsed.
      rewrite Hr. cbn [mbind option_bind]. unfold secret_of. by rewrite Hs. }
    exists (c :: s). split; [done|]. split; [done|]. split; [done|].
    rewrite handleSaveConfig_filled by (by rewrite ?Hacc, ?Hsec).
    split; [done|]. intros Hsel. cbn [snd otpConfigs].
    replace (selectedConfigId st') with (@None jsstring) by done.
    cbn [default]. by rewrite Hacc, Hsec.
  - intros Hn. unfold st', handleImageUpload, handleSaveConfig.
    cbn [form_accountName form_secretKey]. fold parsed. by rewrite Hn.
Qed.

(** X22: [handleSaveConfig] with a configuration selected and both
    fields filled in reports success and replaces, in place, every
    configuration with the selected id by the one of the form: the ids and
    their order stay, the other configurations stay, and saving again
    changes nothing.  When no configuration has the selected id the list is
    left as it was.  Saving directly after [handleEditConfig] leaves a list
    with distinct ids as it was. *)
Theorem handleSaveConfig_replaces_in_place
    (random_id i : jsstring) (st : Home) :
  selectedConfigId st = Some i -> i <> [] ->
  form_accountName st <> [] -> form_secretKey st <> [] ->
  let newConfig :=
    {| id := i;
       accountName := form_accountName st;
       secretKey := form_secretKey st;
       prefix := form_prefix st;
       postfix := form_postfix st |} in
  exists st',
    handleSaveConfig random_id st = (true, st')
    /\ isDialogOpen st' = false
    /\ map id (otpConfigs st') = map id (otpConfigs st)
    /\ (forall c, c ∈ otpConfigs st' -> id c = i -> c = newConfig)
    /\ (forall k c,
          otpConfigs st !! k = Some c -> id c <> i ->
          otpConfigs st' !! k = Some c)
    /\ (Forall (fun c => id c <> i) (otpConfigs st) ->
        otpConfigs st' = otpConfigs st)
    /\ handleSaveConfig random_id st' = (true, st')
    /\ (forall config st0,
          st = handleEditConfig config st0 ->
          (forall c, c ∈ otpConfigs st0 -> id c = id config -> c = config) ->
          otpConfigs st' = otpConfigs st0).
Proof.
  intros Hsel Hi Ha Hs newConfig.
  rewrite handleSaveConfig_filled by done. rewrite Hsel.
  destruct i as [|c0 i0]; [done|]. cbn [default]. cbv zeta. fold newConfig.
  eexists. split; [reflexivity|]. cbn [isDialogOpen otpConfigs].
  split; [done|]. split; [by apply replace_ids|].
  split; [intros c; by apply replace_elem|].
  split.
  { intros k c Hk Hne. rewrite list_lookup_fmap, Hk. cbn [fmap option_fmap option_map].
    by rewrite bool_decide_false. }
  split; [apply replace_absent|].
  split.
  { rewrite handleSaveConfig_filled by done.
    cbn [selectedConfigId form_accountName form_secretKey form_prefix form_postfix
         otpConfigs default].
    f_equal. f_equal. apply replace_same. intros c. by apply replace_elem. }
  intros config st0 -> Hsame. cbn [handleEditConfig otpConfigs].
  apply replace_same. intros c Hc Hid.
  injection Hsel as Hsel. unfold newConfig.
  cbn [handleEditConfig form_accountName form_secretKey form_prefix form_postfix].
  rewrite <- Hsel in *. rewrite (Hsame c Hc Hid). by destruct config.
Qed.

Lemma handleSaveConfig_replaces_in_place_witness :
  selectedConfigId (handleEditConfig sample_config sample_home) = Some (lit "k3x9")
  /\ exists st',
       handleSaveConfig (lit "zzzz") (handleEditConfig sample_config sample_home)
       = (true, st')
       /\ otpConfigs st' = [sample_config].
Proof.
  split; [reflexivity|].
  destruct (handleSaveConfig_replaces_in_place (lit "zzzz") (lit "k3x9")
              (handleEditConfig sample_config sample_home) eq_refl)
    as (st' & Hsave & _ & _ & _ & _ & _ & _ & Hedit); [done|done|done|].
  exists st'. split; [exact Hsave|].
  apply (Hedit sample_config sample_home eq_refl).
  intros c Hc _. by apply list_elem_of_singleton in Hc.
Defined.

(** X23: [handleSaveConfig] with no configuration selected and both
    fields filled in adds a configuration with the random id at the end.
    [handleDeleteConfig] with that id then removes it, together with every
    older configuration that has the same id; when the id is new, deleting
    gives back the list as it was before the save. *)
Theorem handleDeleteConfig_undoes_an_added_config
    (random_id : jsstring) (st : Home) :
  selectedConfigId st = None \/ selectedConfigId st = Some [] ->
  form_accountName st <> [] -> form_secretKey st <> [] ->
  exists st',
    handleSaveConfig random_id st = (true, st')
    /\ otpConfigs st'
       = otpConfigs st
         ++ [{| id := random_id;
                accountName := form_accountName st;
                secretKey := form_secretKey st;
                prefix := form_prefix st;
                postfix := form_postfix st |}]
    /\ otpConfigs (handleDeleteConfig random_id st')
       = filter (fun config => id config <> random_id) (otpConfigs st)
    /\ (Forall (fun config => id config <> random_id) (otpConfigs st) ->
        otpConfigs (handleDeleteConfig random_id st') = otpConfigs st).
Proof.
  intros Hsel Ha Hs. rewrite handleSaveConfig_filled by done.
  assert (Hnone : match selectedConfigId st with
                  | Some (c :: i) => Some (c :: i)
                  | _ => None
                  end = None) by (by destruct Hsel as [-> | ->]).
  rewrite Hnone. cbn [default]. cbv zeta.
  eexists. split; [reflexivity|]. cbn [otpConfigs handleDeleteConfig].
  split; [done|]. rewrite filter_appended by done.
  split; [done|]. apply filter_fresh.
Qed.

Lemma handleDeleteConfig_undoes_an_added_config_witness :
  selectedConfigId sample_form = None
  /\ exists st',
       handleSaveConfig (lit "zzzz") sample_form = (true, st')
       /\ length (otpConfigs st') = 2%nat
       /\ otpConfigs (handleDeleteConfig (lit "zzzz") st') = [sample_config].
Proof.
  split; [reflexivity|].
  destruct (handleDeleteConfig_undoes_an_added_config (lit "zzzz") sample_form)
    as (st' & Hsave & Hadd & _ & Hdel); [by left|done|done|].
  exists st'. split; [exact Hsave|]. split; [by rewrite Hadd|].
  apply Hdel. by repeat constructor.
Defined.

End PageProps.
